(** * Polarimetric differential-calibration core of vampires_dpp

    A shallow embedding of the Python sources
    [vampires_dpp/pdi/processing.py], [vampires_dpp/pdi/utils.py] and the
    legacy [vampires_dpp/polarization.py], together with the properties of
    the frame-set matcher, the differential combiner, the Mueller-matrix
    corrector and the Stokes product synthesizer.

    Conventions of the embedding.
    - A Python [float] or [int] is a rational where it is a header value or
      a timestamp ([Q], in canonical form [Qc] inside dictionary keys), and
      a real ([R]) where it is a pixel value: the development is about the
      real-number semantics of the array arithmetic, so rounding is outside
      the model, and so is NaN except in the error maps of the calibration,
      which [np.nanmean] combines: module [WithNaN] has them with NaN.
    - A numpy array is the function from multi-indices to its elements;
      arithmetic between arrays is elementwise, as numpy does for arrays of
      one shape.  An array that the code indexes along its first axis
      ([cube[0]], [cube[1]], ...) is the list of its planes.
    - A [dict] is a [gmap]; a failing lookup raises [KeyError].
    - A raised exception is the [Raise] branch of [result]. *)

From Stdlib Require Import Reals Lra Psatz RNsatz QArith Qabs Qcanon ZArith String.
From stdpp Require Import gmap strings list fin_maps pretty.

(** ** Python values, exceptions and the error monad *)

Module Py.

(** The hashable scalars that occur in FITS headers and dictionary keys.
    Python compares and hashes [0] and [0.0] alike, so both are [Num]. *)
Inductive atom :=
| Num (q : Qc)
| Str (s : string).

(** A hashable object: a scalar or a tuple of scalars. *)
Inductive pyobj :=
| Atom (a : atom)
| Tuple (l : list atom).

#[global] Instance atom_eq_dec : EqDecision atom.
Proof. solve_decision. Defined.

#[global] Instance atom_countable : Countable atom.
Proof.
  refine (inj_countable'
            (fun a => match a with Num q => inl q | Str s => inr s end)
            (fun x => match x with inl q => Num q | inr s => Str s end) _).
  by intros [].
Defined.

#[global] Instance pyobj_eq_dec : EqDecision pyobj.
Proof. solve_decision. Defined.

#[global] Instance pyobj_countable : Countable pyobj.
Proof.
  refine (inj_countable'
            (fun o => match o with Atom a => inl a | Tuple l => inr l end)
            (fun x => match x with inl a => Atom a | inr l => Tuple l end) _).
  by intros [].
Defined.

Definition py_float (q : Q) : atom := Num (Q2Qc q).
Definition py_int (z : Z) : atom := Num (Q2Qc (inject_Z z)).
Definition py_str (s : string) : atom := Str s.

(** [(angle, flc, camera)] and [(angle, camera)] key tuples. *)
Definition key3 (a : Q) (s : string) (c : Z) : pyobj :=
  Tuple [py_float a; py_str s; py_int c].
Definition key2 (a : Q) (c : Z) : pyobj :=
  Tuple [py_float a; py_int c].

(** [set(t)] for a tuple [t]: the set of its components. *)
Definition set_of_tuple (t : list atom) : gset pyobj :=
  list_to_set (Atom <$> t).

Inductive exn :=
| KeyError (k : pyobj)
| ValueError (msg : string)
| IndexError
| TypeError
| UnboundLocalError (name : string)
| FileNotFoundError (path : string).

Inductive result (A : Type) :=
| Ok (a : A)
| Raise (e : exn).
Arguments Ok {A} a.
Arguments Raise {A} e.

#[global] Instance result_ret : MRet result := fun A a => Ok a.
#[global] Instance result_bind : MBind result :=
  fun A B f m => match m with Ok a => f a | Raise e => Raise e end.

Definition is_Ok {A} (r : result A) : Prop := exists a, r = Ok a.
Definition is_Ok_b {A} (r : result A) : bool :=
  match r with Ok _ => true | Raise _ => false end.
Definition raises {A} (r : result A) : Prop := exists e, r = Raise e.

(** [d[k]] *)
Definition getitem {V} (d : gmap pyobj V) (k : pyobj) : result V :=
  match d !! k with
  | Some v => Ok v
  | None => Raise (KeyError k)
  end.

(** [t[i]] for an object that must be a tuple. *)
Definition tuple_item (o : pyobj) (i : nat) : result atom :=
  match o with
  | Tuple l => match l !! i with Some a => Ok a | None => Raise IndexError end
  | Atom _ => Raise TypeError
  end.

(** [for x in xs: acc = body(acc, x)], stopping at the first exception. *)
Fixpoint for_in {A S} (body : S -> A -> result S) (acc : S) (xs : list A) : result S :=
  match xs with
  | [] => Ok acc
  | x :: xs' => acc' ← body acc x; for_in body acc' xs'
  end.

(** [l[i]] for a sequence and a non-negative index. *)
Definition index {V} (l : list V) (i : nat) : result V :=
  match l !! i with
  | Some v => Ok v
  | None => Raise IndexError
  end.

End Py.
Import Py.

(** ** Arrays *)

Module Arrays.

Definition Index : Type := list nat.

(** An array of reals, read at a multi-index. *)
Definition Frame : Type := Index -> R.

Definition fconst (c : R) : Frame := fun _ => c.
Definition fadd (a b : Frame) : Frame := fun p => (a p + b p)%R.
Definition fsub (a b : Frame) : Frame := fun p => (a p - b p)%R.
Definition fmul (a b : Frame) : Frame := fun p => (a p * b p)%R.
Definition fdiv (a b : Frame) : Frame := fun p => (a p / b p)%R.
Definition fscale (c : R) (a : Frame) : Frame := fun p => (c * a p)%R.
Definition fneg (a : Frame) : Frame := fun p => (- a p)%R.
Definition fmap (f : R -> R) (a : Frame) : Frame := fun p => f (a p).
Definition fmap2 (f : R -> R -> R) (a b : Frame) : Frame := fun p => f (a p) (b p).

Declare Scope frame_scope.
Delimit Scope frame_scope with fr.
Bind Scope frame_scope with Frame.
Infix "+" := fadd : frame_scope.
Infix "-" := fsub : frame_scope.
Infix "*" := fmul : frame_scope.
Infix "/" := fdiv : frame_scope.
Notation "- a" := (fneg a) : frame_scope.
Arguments fscale c%_R a%_fr.
Notation "c *: a" := (fscale c a) : frame_scope.

(** Pointwise equality of arrays. *)
Definition feq (a b : Frame) : Prop := forall p, a p = b p.
Infix "=f" := feq (at level 70, no associativity).

Definition Rsum (l : list R) : R := foldr Rplus 0%R l.

(** [np.mean(frames, axis=0)] *)
Definition mean_axis0 (frames : list Frame) : Frame :=
  fun p => (Rsum ((fun f => f p) <$> frames) / INR (length frames))%R.

(** [np.hypot] *)
Definition hypot (x y : R) : R := sqrt (x * x + y * y).

End Arrays.
Import Arrays.

(** ** The differential combiner *)

Module Combiner.

(** [0.5 * (d[k1] - d[k2])] and [0.5 * (d[k1] + d[k2])]: the two lookups
    are made left to right, and the first missing key raises. *)
Definition half_diff (d : gmap pyobj Frame) (k1 k2 : pyobj) : result Frame :=
  x ← getitem d k1; y ← getitem d k2; mret (0.5 *: (x - y))%fr.
Definition half_sum (d : gmap pyobj Frame) (k1 k2 : pyobj) : result Frame :=
  x ← getitem d k1; y ← getitem d k2; mret (0.5 *: (x + y))%fr.

(** [triple_diff_dict] of [pdi/processing.py]. *)
Definition triple_diff_dict (input_dict : gmap pyobj Frame)
  : result (Frame * Frame * Frame) :=
  (* single diff (cams) *)
  pQ0 ← half_diff input_dict (key3 0 "A" 1) (key3 0 "A" 2);
  pIQ0 ← half_sum input_dict (key3 0 "A" 1) (key3 0 "A" 2);
  pQ1 ← half_diff input_dict (key3 0 "B" 1) (key3 0 "B" 2);
  pIQ1 ← half_sum input_dict (key3 0 "B" 1) (key3 0 "B" 2);
  mQ0 ← half_diff input_dict (key3 45 "A" 1) (key3 45 "A" 2);
  mIQ0 ← half_sum input_dict (key3 45 "A" 1) (key3 45 "A" 2);
  mQ1 ← half_diff input_dict (key3 45 "B" 1) (key3 45 "B" 2);
  mIQ1 ← half_sum input_dict (key3 45 "B" 1) (key3 45 "B" 2);
  pU0 ← half_diff input_dict (key3 22.5 "A" 1) (key3 22.5 "A" 2);
  pIU0 ← half_sum input_dict (key3 22.5 "A" 1) (key3 22.5 "A" 2);
  pU1 ← half_diff input_dict (key3 22.5 "B" 1) (key3 22.5 "B" 2);
  pIU1 ← half_sum input_dict (key3 22.5 "B" 1) (key3 22.5 "B" 2);
  mU0 ← half_diff input_dict (key3 67.5 "A" 1) (key3 67.5 "A" 2);
  mIU0 ← half_sum input_dict (key3 67.5 "A" 1) (key3 67.5 "A" 2);
  mU1 ← half_diff input_dict (key3 67.5 "B" 1) (key3 67.5 "B" 2);
  mIU1 ← half_sum input_dict (key3 67.5 "B" 1) (key3 67.5 "B" 2);
  (* double difference (FLC1 - FLC2) *)
  let pQ := (0.5 *: (pQ0 - pQ1))%fr in
  let pIQ := (0.5 *: (pIQ0 + pIQ1))%fr in
  let mQ := (0.5 *: (mQ0 - mQ1))%fr in
  let mIQ := (0.5 *: (mIQ0 + mIQ1))%fr in
  let pU := (0.5 *: (pU0 - pU1))%fr in
  let pIU := (0.5 *: (pIU0 + pIU1))%fr in
  let mU := (0.5 *: (mU0 - mU1))%fr in
  let mIU := (0.5 *: (mIU0 + mIU1))%fr in
  (* triple difference (HWP1 - HWP2) *)
  let Q := (0.5 *: (pQ - mQ))%fr in
  let IQ := (0.5 *: (pIQ + mIQ))%fr in
  let U := (0.5 *: (pU - mU))%fr in
  let IU := (0.5 *: (pIU + mIU))%fr in
  let I := (0.5 *: (IQ + IU))%fr in
  mret (I, Q, U).

(** [double_diff_dict] of [pdi/processing.py]. *)
Definition double_diff_dict (input_dict : gmap pyobj Frame)
  : result (Frame * Frame * Frame) :=
  (* single diff (cams) *)
  pQ ← half_diff input_dict (key2 0 1) (key2 0 2);
  pIQ ← half_sum input_dict (key2 0 1) (key2 0 2);
  mQ ← half_diff input_dict (key2 45 1) (key2 45 2);
  mIQ ← half_sum input_dict (key2 45 1) (key2 45 2);
  pU ← half_diff input_dict (key2 22.5 1) (key2 22.5 2);
  pIU ← half_sum input_dict (key2 22.5 1) (key2 22.5 2);
  mU ← half_diff input_dict (key2 67.5 1) (key2 67.5 2);
  mIU ← half_sum input_dict (key2 67.5 1) (key2 67.5 2);
  (* double difference (HWP1 - HWP2) *)
  let Q := (0.5 *: (pQ - mQ))%fr in
  let IQ := (0.5 *: (pIQ + mIQ))%fr in
  let U := (0.5 *: (pU - mU))%fr in
  let IU := (0.5 *: (pIU + mIU))%fr in
  let I := (0.5 *: (IQ + IU))%fr in
  mret (I, Q, U).

(** [itertools.product((0, 45, 22.5, 67.5), ("A", "B"), (1, 2))] and
    [itertools.product((0, 45, 22.5, 67.5), (1, 2))], in product order. *)
Definition tripled_keys : list pyobj :=
  a ← [0; 45; 22.5; 67.5]%Q; s ← ["A"; "B"]%string; c ← [1; 2]%Z; [key3 a s c].
Definition doubled_keys : list pyobj :=
  a ← [0; 45; 22.5; 67.5]%Q; c ← [1; 2]%Z; [key2 a c].

Definition DOUBLEDIFF_SETS : gset pyobj := list_to_set doubled_keys.
Definition TRIPLEDIFF_SETS : gset pyobj := list_to_set tripled_keys.

(** The body of the cycle loop of the legacy
    [polarization_calibration_triplediff] of [polarization.py], for the
    cycle that starts at offset [ix] of the sorted [image_cube]. *)
Definition legacy_triplediff_cycle (image_cube : list Frame) (ix : nat)
  : result (Frame * Frame * Frame) :=
  let at_ (j : nat) := index image_cube (ix + j) in
  (* (cam1 - cam2) - (cam1 - cam2) *)
  pQ0 ← (a ← at_ 0; b ← at_ 2; mret (a - b)%fr);
  mQ0 ← (a ← at_ 1; b ← at_ 3; mret (a - b)%fr);
  let Q0 := (0.5 *: (pQ0 - mQ0))%fr in
  pQ1 ← (a ← at_ 4; b ← at_ 6; mret (a - b)%fr);
  mQ1 ← (a ← at_ 5; b ← at_ 7; mret (a - b)%fr);
  let Q1 := (0.5 *: (pQ1 - mQ1))%fr in
  pU0 ← (a ← at_ 8; b ← at_ 10; mret (a - b)%fr);
  mU0 ← (a ← at_ 9; b ← at_ 11; mret (a - b)%fr);
  let U0 := (0.5 *: (pU0 - mU0))%fr in
  pU1 ← (a ← at_ 12; b ← at_ 14; mret (a - b)%fr);
  mU1 ← (a ← at_ 13; b ← at_ 15; mret (a - b)%fr);
  let U1 := (0.5 *: (pU1 - mU1))%fr in
  (* factor of 2 because intensity is cut in half by beamsplitter *)
  let I := (2 *: mean_axis0 (take 16 (drop ix image_cube)))%fr in
  mret (I, (0.5 *: (Q0 - Q1))%fr, (0.5 *: (U0 - U1))%fr).

End Combiner.
Import Combiner.

(** ** The frame-set matcher *)

Module Matcher.

(** A row of the observation table: the header columns the matcher reads. *)
Record Row := mkRow {
  RET_ANG1 : Q;
  U_FLC : string;
  U_CAMERA : Z;
  MJD : Q;
  path : string;
}.

(** [ndarray.argmin()]: the index of the first least element; an empty
    array raises [ValueError]. *)
Fixpoint argmin_from (best : Q) (ibest : nat) (i : nat) (l : list Q) : nat :=
  match l with
  | [] => ibest
  | x :: l' =>
      if Qlt_le_dec x best then argmin_from x i (S i) l'
      else argmin_from best ibest (S i) l'
  end.

Definition argmin (l : list Q) : result nat :=
  match l with
  | [] => Raise (ValueError "attempt to get argmin of an empty sequence")
  | x :: l' => Ok (argmin_from x 0 1 l')
  end.

(** [np.abs(row_time - time_arr)], for one table row. *)
Definition deltatime (row r : Row) : Q := Qabs (MJD row - MJD r).

Definition row_key3 (r : Row) : list atom :=
  [py_float (RET_ANG1 r); py_str (U_FLC r); py_int (U_CAMERA r)].
Definition row_key2 (r : Row) : list atom :=
  [py_float (RET_ANG1 r); py_int (U_CAMERA r)].

(** The three-column and two-column boolean masks for a key. *)
Definition mask3 (k0 k1 k2 : atom) (r : Row) : bool :=
  bool_decide (py_float (RET_ANG1 r) = k0)
  && bool_decide (py_str (U_FLC r) = k1)
  && bool_decide (py_int (U_CAMERA r) = k2).
Definition mask2 (k0 k1 : atom) (r : Row) : bool :=
  bool_decide (py_float (RET_ANG1 r) = k0)
  && bool_decide (py_int (U_CAMERA r) = k1).

(** [idx = deltatime[mask].argmin(); table.loc[mask, "path"].iloc[idx]] *)
Definition nearest (row : Row) (masked : list Row) : result string :=
  idx ← argmin (deltatime row <$> masked);
  r ← index masked idx;
  mret (path r).

(** The body of the loop over [remaining_keys]. *)
Definition fill3 (table : list Row) (row : Row)
    (output_set : gmap pyobj string) (key : pyobj) : result (gmap pyobj string) :=
  k0 ← tuple_item key 0; k1 ← tuple_item key 1; k2 ← tuple_item key 2;
  p ← nearest row (List.filter (mask3 k0 k1 k2) table);
  mret (<[key := p]> output_set).

Definition fill2 (table : list Row) (row : Row)
    (output_set : gmap pyobj string) (key : pyobj) : result (gmap pyobj string) :=
  k0 ← tuple_item key 0; k1 ← tuple_item key 1;
  p ← nearest row (List.filter (mask2 k0 k1) table);
  mret (<[key := p]> output_set).

(** [get_triplediff_set]: [set(row_key)] is the set of the components of the
    key tuple.  The loop visits [remaining_keys] in the order of the set's
    enumeration. *)
Definition get_triplediff_set (table : list Row) (row : Row)
  : result (gmap pyobj string) :=
  let row_key := row_key3 row in
  let remaining_keys := TRIPLEDIFF_SETS ∖ set_of_tuple row_key in
  let output_set : gmap pyobj string := {[ Tuple row_key := path row ]} in
  for_in (fill3 table row) output_set (elements remaining_keys).

Definition get_doublediff_set (table : list Row) (row : Row)
  : result (gmap pyobj string) :=
  let row_key := row_key2 row in
  let remaining_keys := DOUBLEDIFF_SETS ∖ set_of_tuple row_key in
  let output_set : gmap pyobj string := {[ Tuple row_key := path row ]} in
  for_in (fill2 table row) output_set (elements remaining_keys).

(** The loop body seen as: pick a path for the key, then store it. *)
Definition fill_with (pick : pyobj -> result string)
    (output_set : gmap pyobj string) (key : pyobj) : result (gmap pyobj string) :=
  p ← pick key; mret (<[key := p]> output_set).

Definition pick3 (table : list Row) (row : Row) (key : pyobj) : result string :=
  k0 ← tuple_item key 0; k1 ← tuple_item key 1; k2 ← tuple_item key 2;
  nearest row (List.filter (mask3 k0 k1 k2) table).
Definition pick2 (table : list Row) (row : Row) (key : pyobj) : result string :=
  k0 ← tuple_item key 0; k1 ← tuple_item key 1;
  nearest row (List.filter (mask2 k0 k1) table).

(** The candidate records of a key: the table rows that bear it. *)
Definition candidates3 (table : list Row) (k : pyobj) : list Row :=
  List.filter (fun r => bool_decide (Tuple (row_key3 r) = k)) table.
Definition candidates2 (table : list Row) (k : pyobj) : list Row :=
  List.filter (fun r => bool_decide (Tuple (row_key2 r) = k)) table.

(** [r] at position [i] of [cands] is the nearest in time to [row], and the
    first listed among the equally near. *)
Definition first_nearest (row : Row) (cands : list Row) (i : nat) (r : Row) : Prop :=
  cands !! i = Some r
  /\ (forall j r', cands !! j = Some r' -> (deltatime row r <= deltatime row r')%Q)
  /\ (forall j r', (j < i)%nat -> cands !! j = Some r' ->
                   (deltatime row r < deltatime row r')%Q).

(** A table with two records for the key [(0, "A", 1)] taken at the same
    time, then one record for each of the sixteen keys a day later. *)
Definition tie_table3 : list Row :=
  mkRow 0 "A" 1 60000 "first.fits"
  :: mkRow 0 "A" 1 60000 "anchor.fits"
  :: (a ← [0; 45; 22.5; 67.5]%Q; s ← ["A"; "B"]%string; c ← [1; 2]%Z;
      [mkRow a s c 60001 "later.fits"]).
Definition tie_anchor3 : Row := mkRow 0 "A" 1 60000 "anchor.fits".

Definition tie_table2 : list Row :=
  mkRow 0 "" 1 60000 "first.fits"
  :: mkRow 0 "" 1 60000 "anchor.fits"
  :: (a ← [0; 45; 22.5; 67.5]%Q; c ← [1; 2]%Z; [mkRow a "" c 60001 "later.fits"]).
Definition tie_anchor2 : Row := mkRow 0 "" 1 60000 "anchor.fits".

End Matcher.
Import Matcher.

(** ** Calibration of one set of files *)

Module Calibration.

(** What the calibration reads from one FITS file: the primary data cube,
    the stacked error extensions, and the primary header cards that it
    uses. *)
Record FitsFile := mkFits {
  data : Frame;
  err : Frame;
  RET_ANG1 : Q;
  U_FLC : string;
  U_CAMERA : Z;
  DEROTANG : R;
}.

(** The returned HDU list, without its headers: the Stokes planes and the
    error map. *)
Record StokesHDUL := mkHDUL {
  stokes_cube : Frame * Frame * Frame;
  stokes_err : Frame;
}.

(** The two dictionaries and the list that the loading loop fills. *)
Record Loaded := mkLoaded {
  cube_dict : gmap pyobj Frame;
  cube_errs : list Frame;
}.

Definition msg_triplediff : string :=
  "Cannot do triple-differential calibration without exact sets of 16 frames for each HWP cycle".
Definition msg_doublediff : string :=
  "Cannot do double-differential calibration without exact sets of 8 frames for each HWP cycle".

(** [np.sqrt(np.nanmean(np.power(cube_errs, 2), axis=0) / len(cube_errs))];
    on real-valued maps [nanmean] is the mean.  [WithNaN.combine_errs] is
    the same on maps that hold NaN. *)
Definition combine_errs (cube_errs : list Frame) : Frame :=
  fmap sqrt
    (fun p => (mean_axis0 (fmap (fun x => (x ^ 2)%R) <$> cube_errs) p
               / INR (length cube_errs))%R).

Section Pipeline.

(** [image_processing.derotate_cube] and the files on disk. *)
Variable derotate_cube : Frame -> R -> Frame.
Variable fs : gmap string FitsFile.

Definition fits_open (file : string) : result FitsFile :=
  match fs !! file with
  | Some f => Ok f
  | None => Raise (FileNotFoundError file)
  end.

(** The body of [for file in filenames], for three-part and two-part keys. *)
Definition load3 (st : Loaded) (file : string) : result Loaded :=
  f ← fits_open file;
  let cube_derot := derotate_cube (data f) (DEROTANG f) in
  let cube_err_derot := derotate_cube (err f) (DEROTANG f) in
  let key := Tuple [py_float (RET_ANG1 f); py_str (U_FLC f); py_int (U_CAMERA f)] in
  mret (mkLoaded (<[key := cube_derot]> (cube_dict st))
                 (cube_errs st ++ [cube_err_derot])).

Definition load2 (st : Loaded) (file : string) : result Loaded :=
  f ← fits_open file;
  let cube_derot := derotate_cube (data f) (DEROTANG f) in
  let cube_err_derot := derotate_cube (err f) (DEROTANG f) in
  let key := Tuple [py_float (RET_ANG1 f); py_int (U_CAMERA f)] in
  mret (mkLoaded (<[key := cube_derot]> (cube_dict st))
                 (cube_errs st ++ [cube_err_derot])).

(** The part of [polarization_calibration_triplediff] after the check of
    the number of files. *)
Definition triplediff_body (filenames : list string) : result StokesHDUL :=
  st ← for_in load3 (mkLoaded ∅ []) filenames;
  stokes_cube ← triple_diff_dict (cube_dict st);
  let stokes_err := combine_errs (cube_errs st) in
  mret (mkHDUL stokes_cube stokes_err).

Definition polarization_calibration_triplediff (filenames : list string)
  : result StokesHDUL :=
  if negb (length filenames mod 16 =? 0)%nat
  then Raise (ValueError msg_triplediff)
  else triplediff_body filenames.

Definition doublediff_body (filenames : list string) : result StokesHDUL :=
  st ← for_in load2 (mkLoaded ∅ []) filenames;
  stokes_cube ← double_diff_dict (cube_dict st);
  let stokes_err := combine_errs (cube_errs st) in
  mret (mkHDUL stokes_cube stokes_err).

Definition polarization_calibration_doublediff (filenames : list string)
  : result StokesHDUL :=
  if negb (length filenames mod 8 =? 0)%nat
  then Raise (ValueError msg_doublediff)
  else doublediff_body filenames.

(** The derotated error maps of the files of a call, in the order of the
    call. *)
Definition derotated_errs (files : list FitsFile) : list Frame :=
  (fun f => derotate_cube (err f) (DEROTANG f)) <$> files.

End Pipeline.

(** A message names a number when the decimal numeral occurs in it. *)
Definition names (n : nat) (msg : string) : bool :=
  match String.index 0 (pretty n) msg with Some _ => true | None => false end.

(** The root mean square of a set of error maps divided by the square root
    of their number. *)
Definition rms_over_set (errs : list Frame) : Frame :=
  fun p => (sqrt (mean_axis0 (fmap (fun x => (x ^ 2)%R) <$> errs) p)
            / sqrt (INR (length errs)))%R.

(** The written statement about the message of the count check. *)
Definition count_error_names_both : Prop :=
  forall derotate_cube fs filenames,
    (length filenames mod 16 <> 0)%nat ->
    exists msg,
      polarization_calibration_triplediff derotate_cube fs filenames
      = Raise (ValueError msg)
      /\ names 16 msg = true /\ names (length filenames) msg = true.

(** Sixteen files, two for each two-part key, every error map the
    constant 1; and a derotation that leaves arrays as they are. *)
Definition two_cycles_names : list string :=
  ["a0"; "a1"; "a2"; "a3"; "a4"; "a5"; "a6"; "a7";
   "b0"; "b1"; "b2"; "b3"; "b4"; "b5"; "b6"; "b7"]%string.
Definition one_cycle_files : list FitsFile :=
  a ← [0; 45; 22.5; 67.5]%Q; c ← [1; 2]%Z; [mkFits (fconst 1) (fconst 1) a "A" c 0].
Definition two_cycles_fs : gmap string FitsFile :=
  list_to_map (zip two_cycles_names (one_cycle_files ++ one_cycle_files)).
Definition no_derotation (cube : Frame) (angle : R) : Frame := cube.

End Calibration.
Import Calibration.

(** ** The Mueller-matrix correction *)

Module Mueller.

(** A two-by-two matrix, by rows, and a two-vector. *)
Definition M22 : Type := (R * R) * (R * R).
Definition V2 : Type := (R * R)%type.

Definition transpose (m : M22) : M22 :=
  let '((a, b), (c, d)) := m in ((a, c), (b, d)).
Definition mulv (m : M22) (x : V2) : V2 :=
  let '((a, b), (c, d)) := m in
  let '(x1, x2) := x in ((a * x1 + b * x2)%R, (c * x1 + d * x2)%R).
Definition det (m : M22) : R :=
  let '((a, b), (c, d)) := m in (a * d - b * c)%R.
Definition frob2 (m : M22) : R :=
  let '((a, b), (c, d)) := m in (a * a + b * b + c * c + d * d)%R.

(** The squared residual of [m x ~ b]. *)
Definition residual2 (m : M22) (x b : V2) : R :=
  let '(y1, y2) := mulv m x in
  let '(b1, b2) := b in ((y1 - b1) * (y1 - b1) + (y2 - b2) * (y2 - b2))%R.

(** [x] is a least-squares solution of [m x ~ b]. *)
Definition is_lstsq (m : M22) (b x : V2) : Prop :=
  forall y, (residual2 m x b <= residual2 m y b)%R.

(** [np.linalg.lstsq(m, b, rcond=None)[0]] for a two-by-two [m] and one
    column [b], over the reals: the pseudo-inverse of [m] applied to [b],
    which is the inverse when [m] is regular, the transpose over the
    squared Frobenius norm when [m] has rank one, and zero for the zero
    matrix. *)
Definition lstsq2 (m : M22) (b : V2) : V2 :=
  let '((a, b'), (c, d)) := m in
  let '(b1, b2) := b in
  if Req_dec_T (det m) 0 then
    if Req_dec_T (frob2 m) 0 then (0%R, 0%R)
    else (((a * b1 + c * b2) / frob2 m)%R, ((b' * b1 + d * b2) / frob2 m)%R)
  else (((d * b1 - b' * b2) / det m)%R, ((a * b2 - c * b1) / det m)%R).

(** [np.array((mmQ[1:3], mmU[1:3]))]: the two slices must both have two
    entries to make a two-by-two array. *)
Definition Marr_of (mmQ mmU : list R) : result M22 :=
  match take 2 (drop 1 mmQ), take 2 (drop 1 mmU) with
  | [q1; q2], [u1; u2] => Ok ((q1, q2), (u1, u2))
  | _, _ => Raise (ValueError "setting an array element with a sequence")
  end.

(** The [if mm_correct:] block of [make_stokes_image], for one field:
    from the planes [I], [Q], [U], the error map and the two Mueller rows
    to [stokes_data] and [stokes_err_data]. *)
Definition make_stokes_image_mm_correct (I Q U I_err : Frame) (mmQ mmU : list R)
  : result ((Frame * Frame * Frame) * (Frame * Frame * Frame)) :=
  (* correct IP *)
  q0 ← index mmQ 0;
  let Q := (Q - q0 *: I)%fr in
  u0 ← index mmU 0;
  let U := (U - u0 *: I)%fr in
  let Q_err := fmap2 hypot I_err (q0 *: I_err)%fr in
  let U_err := fmap2 hypot I_err (u0 *: I_err)%fr in
  (* correct cross-talk *)
  let Sarr := fun p => (Q p, U p) in
  Marr ← Marr_of mmQ mmU;
  let res := fun p => lstsq2 (transpose Marr) (Sarr p) in
  let Q := fun p => fst (res p) in
  let U := fun p => snd (res p) in
  mret ((I, Q, U), (I_err, Q_err, U_err)).

(** The matrix of the written specification, from the two rows. *)
Definition crosstalk_matrix (q1 q2 u1 u2 : R) : M22 := ((q1, q2), (u1, u2)).

End Mueller.
Import Mueller.

(** ** Radial Stokes parameters and derived products *)

Module Products.

(** [np.arctan2(y, x)] over the reals: the angle in (-pi, pi] of the point
    [(x, y)], and 0 at the origin. *)
Definition arctan2 (y x : R) : R :=
  if Rlt_dec 0 x then atan (y / x)
  else if Rlt_dec x 0 then
    if Rle_dec 0 y then (atan (y / x) + PI)%R else (atan (y / x) - PI)%R
  else if Rlt_dec 0 y then (PI / 2)%R
  else if Rlt_dec y 0 then (- (PI / 2))%R
  else 0%R.

(** [out[i] = v] on a copy of a list of planes. *)
Definition setitem (out : list Frame) (i : nat) (v : Frame) : result (list Frame) :=
  if decide (i < length out)%nat then Ok (<[i := v]> out) else Raise IndexError.

Section Synthesizer.

(** [indexing.frame_angles(stokes_cube, conv="astro")]: the azimuth of each
    pixel about the centre of the frame. *)
Variable frame_angles : list Frame -> Frame.

(** [radial_stokes].  The two error outputs are [None] where the code
    returns arrays filled with NaN. *)
Definition radial_stokes (stokes_cube : list Frame)
    (stokes_err : option (list Frame)) (phi : R)
  : result (Frame * Frame * option Frame * option Frame) :=
  let thetas := frame_angles stokes_cube in
  let cos2t := fmap cos (2 *: (thetas + fconst phi))%fr in
  let sin2t := fmap sin (2 *: (thetas + fconst phi))%fr in
  c1 ← index stokes_cube 1; c2 ← index stokes_cube 2;
  let Qphi := (- cos2t * c1 - sin2t * c2)%fr in
  let Uphi := (sin2t * c1 - cos2t * c2)%fr in
  match stokes_err with
  | Some stokes_err =>
      e1 ← index stokes_err 1; e2 ← index stokes_err 2;
      let Qphi_err := fmap2 hypot (cos2t * e1)%fr (sin2t * e2)%fr in
      let Uphi_err := fmap2 hypot (sin2t * e1)%fr (cos2t * e2)%fr in
      mret (Qphi, Uphi, Some Qphi_err, Some Uphi_err)
  | None => mret (Qphi, Uphi, None, None)
  end.

(** [rotate_stokes]: [theta] is an array, or a scalar broadcast to one. *)
Definition rotate_stokes (stokes_cube : list Frame) (theta : Frame)
  : result (list Frame) :=
  let out := stokes_cube in
  let sin2ts := fmap sin (2 *: theta)%fr in
  let cos2ts := fmap cos (2 *: theta)%fr in
  c1 ← index stokes_cube 1; c2 ← index stokes_cube 2;
  out ← setitem out 1 (c1 * cos2ts - c2 * sin2ts)%fr;
  c1 ← index stokes_cube 1; c2 ← index stokes_cube 2;
  out ← setitem out 2 (c1 * sin2ts + c2 * cos2ts)%fr;
  mret out.

(** An error plane that is NaN-filled cannot be stacked as a real array. *)
Definition real_plane (e : option Frame) : result Frame :=
  match e with Some e => Ok e | None => Raise TypeError end.

(** [stokes_products] *)
Definition stokes_products (stokes_frame stokes_err : list Frame) (phi : R)
  : result (list Frame * list Frame) :=
  f2 ← index stokes_frame 2; f1 ← index stokes_frame 1;
  let pi := fmap2 hypot f2 f1 in
  let aolp := fmap2 arctan2 f2 f1 in
  '(Qphi, Uphi, Qphi_err, Uphi_err) ← radial_stokes stokes_frame (Some stokes_err) phi;
  (* error propagation *)
  e2 ← index stokes_err 2; e1 ← index stokes_err 1;
  let pi_err := (fmap2 hypot (f2 * e2) (f1 * e1) / fmap Rabs pi)%fr in
  let aolp_err := (fmap2 hypot (f1 * e2) (f2 * e1) / fmap (fun x => (x ^ 2)%R) pi)%fr in
  f0 ← index stokes_frame 0;
  e0 ← index stokes_err 0;
  Qphi_err ← real_plane Qphi_err; Uphi_err ← real_plane Uphi_err;
  mret ([f0; f1; f2; Qphi; Uphi; pi; aolp],
        [e0; e1; e2; Qphi_err; Uphi_err; pi_err; aolp_err]).

End Synthesizer.

(** The written round trip: radial Stokes with [phi], then the Stokes
    rotation by [-phi], gives back [Q] and [U]. *)
Definition radial_round_trip : Prop :=
  forall frame_angles (I Q U : Frame) (phi : R),
  exists Qphi Uphi eQ eU Q' U',
    radial_stokes frame_angles [I; Q; U] None phi = Ok (Qphi, Uphi, eQ, eU)
    /\ rotate_stokes [I; Qphi; Uphi] (fconst (- phi)) = Ok [I; Q'; U']
    /\ Q' =f Q /\ U' =f U.

End Products.
Import Products.

(** ** Arrays as shared objects: the second-order IP correction *)

Module Heap.

Definition loc : Type := positive.

(** What a location of the store holds: the planes of an array buffer, or
    the cards (value, comment) of a FITS header. *)
Inductive obj :=
| Arr (planes : list Frame)
| Hdr (cards : gmap string (R * string)).

Abbreviation heap := (gmap loc obj).

(** An [ndarray] object: a buffer and, for a view [base[:n]], the bound. *)
Record ndarray := mkView {
  buffer : loc;
  upto : option nat;
}.

Definition whole (l : loc) : ndarray := mkView l None.

(** [a[:n]]: a view on the same buffer. *)
Definition slice_upto (a : ndarray) (n : nat) : ndarray :=
  mkView (buffer a) (Some (match upto a with Some m => m `min` n | None => n end)).

Definition planes_of (h : heap) (a : ndarray) : result (list Frame) :=
  match h !! buffer a with
  | Some (Arr ps) => Ok (match upto a with Some n => take n ps | None => ps end)
  | _ => Raise TypeError
  end.

(** [a[i]] *)
Definition getplane (h : heap) (a : ndarray) (i : nat) : result Frame :=
  ps ← planes_of h a; index ps i.

(** [np.array(planes)]: a new buffer. *)
Definition np_array (h : heap) (planes : list Frame) : heap * ndarray :=
  let l := fresh (dom h) in (<[l := Arr planes]> h, whole l).

(** [a[:n] = values]: the planes of [values] are copied into the buffer of
    [a]; the shapes must agree. *)
Definition assign_slice (h : heap) (a : ndarray) (n : nat) (values : list Frame)
  : result heap :=
  target ← planes_of h (slice_upto a n);
  if decide (length target = length values) then
    match h !! buffer a with
    | Some (Arr ps) => Ok (<[buffer a := Arr (values ++ drop (length target) ps)]> h)
    | _ => Raise TypeError
    end
  else Raise (ValueError "could not broadcast input array").

(** [header[key] = value, comment] *)
Definition set_card (h : heap) (header : loc) (key : string) (v : R) (comment : string)
  : result heap :=
  match h !! header with
  | Some (Hdr cards) => Ok (<[header := Hdr (<[key := (v, comment)]> cards)]> h)
  | _ => Raise TypeError
  end.

(** [instpol_correct] of [pdi/utils.py] *)
Definition instpol_correct (h : heap) (stokes_cube : ndarray) (pQ pU : R)
  : result (heap * ndarray) :=
  c0 ← getplane h stokes_cube 0;
  c1 ← getplane h stokes_cube 1;
  c0' ← getplane h stokes_cube 0;
  c2 ← getplane h stokes_cube 2;
  c0'' ← getplane h stokes_cube 0;
  mret (np_array h [c0; (c1 - pQ *: c0')%fr; (c2 - pU *: c0'')%fr]).

Section IPCorrect.

(** The photometric estimators [measure_instpol(I, X, r)] and
    [measure_instpol_ann(I, X, Rin, Rout)]: they read their arguments and
    return a number. *)
Variable measure_instpol : Frame -> Frame -> R -> R.
Variable measure_instpol_ann : Frame -> Frame -> R -> R -> R.

(** The [match method:] statement: the coefficients it binds, if any. *)
Definition measure (h : heap) (stokes_data : ndarray) (phot_rad : R * R)
    (method : string) : result (option (R * R)) :=
  if decide (method = "aperture"%string) then
    i ← getplane h stokes_data 0; q ← getplane h stokes_data 1;
    let cQ := measure_instpol i q (fst phot_rad) in
    i ← getplane h stokes_data 0; u ← getplane h stokes_data 2;
    let cU := measure_instpol i u (fst phot_rad) in
    mret (Some (cQ, cU))
  else if decide (method = "annulus"%string) then
    i ← getplane h stokes_data 0; q ← getplane h stokes_data 1;
    let cQ := measure_instpol_ann i q (fst phot_rad) (snd phot_rad) in
    i ← getplane h stokes_data 0; u ← getplane h stokes_data 2;
    let cU := measure_instpol_ann i u (fst phot_rad) (snd phot_rad) in
    mret (Some (cQ, cU))
  else mret None.

(** [polarization_ip_correct] of [pdi/processing.py] *)
Definition polarization_ip_correct (h : heap) (stokes_data : ndarray)
    (phot_rad : R * R) (method : string) (header : option loc)
  : result (heap * (ndarray * option loc)) :=
  bound ← measure h stokes_data phot_rad method;
  match bound with
  | None => Raise (UnboundLocalError "cQ")
  | Some (cQ, cU) =>
      '(h, corrected) ← instpol_correct h (slice_upto stokes_data 3) cQ cU;
      values ← planes_of h corrected;
      h ← assign_slice h stokes_data 3 values;
      h ← match header with
          | Some hdr =>
              h ← set_card h hdr "IP_FQ" cQ "I -> Q IP correction value";
              set_card h hdr "IP_FU" cU "I -> U IP correction value"
          | None => Ok h
          end;
      mret (h, (stokes_data, header))
  end.

End IPCorrect.

(** A store with one Stokes array of three constant planes. *)
Definition one_array_heap : heap := {[ 1%positive := Arr [fconst 1; fconst 2; fconst 3] ]}.

End Heap.
Import Heap.

(** ** The nested-averaging formula of the written specification

    The triple-difference tree as the specification words it: per angle
    the camera half-difference and half-sum for each modulator state, then
    the half-difference (half-sum) across the two states, then across the
    angle pair. *)

Module Spec42.
Section Formula.
Variable F : pyobj -> Frame.

Definition pD (a : Q) : Frame := (0.5 *: (F (key3 a "A" 1) - F (key3 a "A" 2)))%fr.
Definition pS (a : Q) : Frame := (0.5 *: (F (key3 a "A" 1) + F (key3 a "A" 2)))%fr.
Definition mD (a : Q) : Frame := (0.5 *: (F (key3 a "B" 1) - F (key3 a "B" 2)))%fr.
Definition mS (a : Q) : Frame := (0.5 *: (F (key3 a "B" 1) + F (key3 a "B" 2)))%fr.

Definition Q0 : Frame := (0.5 *: (pD 0 - mD 0))%fr.
Definition IQ0 : Frame := (0.5 *: (pS 0 + mS 0))%fr.
Definition Q1 : Frame := (0.5 *: (pD 45 - mD 45))%fr.
Definition IQ1 : Frame := (0.5 *: (pS 45 + mS 45))%fr.
Definition Qs : Frame := (0.5 *: (Q0 - Q1))%fr.
Definition IQ : Frame := (0.5 *: (IQ0 + IQ1))%fr.

Definition U0 : Frame := (0.5 *: (pD 22.5 - mD 22.5))%fr.
Definition IU0 : Frame := (0.5 *: (pS 22.5 + mS 22.5))%fr.
Definition U1 : Frame := (0.5 *: (pD 67.5 - mD 67.5))%fr.
Definition IU1 : Frame := (0.5 *: (pS 67.5 + mS 67.5))%fr.
Definition Us : Frame := (0.5 *: (U0 - U1))%fr.
Definition IU : Frame := (0.5 *: (IU0 + IU1))%fr.

Definition Is : Frame := (0.5 *: (IQ + IU))%fr.

End Formula.
End Spec42.

(** The synthetic frame set whose sixteen frames are all the constant 1. *)
Definition unit_frameset : gmap pyobj Frame :=
  gset_to_gmap (fconst 1) TRIPLEDIFF_SETS.

(** The written statement about the sixteen unit frames: the intensity is
    2 at every pixel. *)
Definition unit_frames_give_two : Prop :=
  exists I Q U,
    triple_diff_dict unit_frameset = Ok (I, Q, U)
    /\ forall p, I p = 2%R /\ Q p = 0%R /\ U p = 0%R.

(** ** The double-difference tree *)

(** The expressions [double_diff_dict] builds from the frames [F] of the
    eight two-part keys. *)
Module DoubleTree.
Section Formula.
Variable F : pyobj -> Frame.

Definition D (a : Q) : Frame := (0.5 *: (F (key2 a 1) - F (key2 a 2)))%fr.
Definition S (a : Q) : Frame := (0.5 *: (F (key2 a 1) + F (key2 a 2)))%fr.
Definition Qs : Frame := (0.5 *: (D 0 - D 45))%fr.
Definition IQ : Frame := (0.5 *: (S 0 + S 45))%fr.
Definition Us : Frame := (0.5 *: (D 22.5 - D 67.5))%fr.
Definition IU : Frame := (0.5 *: (S 22.5 + S 67.5))%fr.
Definition Is : Frame := (0.5 *: (IQ + IU))%fr.

End Formula.
End DoubleTree.

(** ** Dictionaries of arrays read from files *)

Module Dicts.
Section Files.

(** The files on disk, for [util.load_fits(file, header=True)]. *)
Variable fs : gmap string FitsFile.

Definition load_fits (file : string) : result FitsFile :=
  match fs !! file with
  | Some f => Ok f
  | None => Raise (FileNotFoundError file)
  end.

Definition header_key3 (f : FitsFile) : pyobj :=
  Tuple [py_float (Calibration.RET_ANG1 f); py_str (Calibration.U_FLC f);
         py_int (Calibration.U_CAMERA f)].
Definition header_key2 (f : FitsFile) : pyobj :=
  Tuple [py_float (Calibration.RET_ANG1 f); py_int (Calibration.U_CAMERA f)].

(** [make_triplediff_dict] and [make_doublediff_dict] *)
Definition make_triplediff_dict (filenames : list string)
  : result (gmap pyobj Frame) :=
  for_in (fun output file =>
            f ← load_fits file;
            let key := header_key3 f in
            mret (<[key := data f]> output))
         ∅ filenames.

Definition make_doublediff_dict (filenames : list string)
  : result (gmap pyobj Frame) :=
  for_in (fun output file =>
            f ← load_fits file;
            let key := header_key2 f in
            mret (<[key := data f]> output))
         ∅ filenames.

End Files.
End Dicts.
Import Dicts.

(** Thirty-two files, two for each three-part key, all arrays the
    constant 1. *)
Definition two_cycles3_names : list string :=
  (fun i : nat => "f" +:+ pretty i) <$> seq 0 32.
Definition one_cycle3_files : list FitsFile :=
  a ← [0; 45; 22.5; 67.5]%Q; s ← ["A"; "B"]%string; c ← [1; 2]%Z;
  [mkFits (fconst 1) (fconst 1) a s c 0].
Definition two_cycles3_fs : gmap string FitsFile :=
  list_to_map (zip two_cycles3_names (one_cycle3_files ++ one_cycle3_files)).

(** A store with the Stokes array of [one_array_heap] and an empty header. *)
Definition array_and_header_heap : heap :=
  <[2%positive := Hdr ∅]> one_array_heap.

(** ** One field of [make_stokes_image] *)

Module Image.

(** [I, Q, U = a]: the first axis must have exactly three entries. *)
Definition unpack3 {A} (l : list A) : result (A * A * A) :=
  match l with
  | [a; b; c] => Ok (a, b, c)
  | _ =>
      Raise (ValueError (if decide (length l < 3)%nat
                         then "not enough values to unpack"
                         else "too many values to unpack"))
  end.

(** [a[i] = v] *)
Definition setplane (h : heap) (a : ndarray) (i : nat) (v : Frame) : result heap :=
  ps ← planes_of h a;
  if decide (i < length ps)%nat then
    match h !! buffer a with
    | Some (Arr all) => Ok (<[buffer a := Arr (<[i := v]> all)]> h)
    | _ => Raise TypeError
    end
  else Raise IndexError.

(** [header[key]]: the value of a card. *)
Definition card_value (h : heap) (header : option loc) (key : string) : result R :=
  match header with
  | Some l =>
      match h !! l with
      | Some (Hdr cards) =>
          match cards !! key with
          | Some (v, _) => Ok v
          | None => Raise (KeyError (Atom (Str key)))
          end
      | _ => Raise TypeError
      end
  | None => Raise TypeError
  end.

(** Reading a local variable that only some branches bind. *)
Definition local {A} (name : string) (v : option A) : result A :=
  match v with
  | Some a => Ok a
  | None => Raise (UnboundLocalError name)
  end.

Section Field.
Variable measure_instpol : Frame -> Frame -> R -> R.
Variable measure_instpol_ann : Frame -> Frame -> R -> R -> R.

(** The body of the loop over the fields in [make_stokes_image], from
    [I, Q, U = stokes_data] to the two [append]s.  [mm] holds the rows
    [mmQ], [mmU] of the field when [mm_correct] is set and is [None]
    otherwise; [stokes_err_data] is the local variable that only the
    [if mm_correct:] block binds.  The card [STOKES], whose value is a
    string, is not kept in the store; [I_] stands for the plane [I]. *)
Definition make_stokes_image_field (h : heap) (stokes_data : ndarray)
    (stokes_header : loc) (stokes_err : Frame) (mm : option (list R * list R))
    (ip_correct : bool) (ip_radius ip_radius2 : R) (ip_method : string)
  : result (heap * (ndarray * ndarray * option loc)) :=
  planes ← planes_of h stokes_data;
  '(I_, Q, U) ← unpack3 planes;
  let I_err := stokes_err in
  let stokes_header := Some stokes_header in
  (* mm correct *)
  '(h, stokes_data, stokes_err_data) ←
    match mm with
    | Some (mmQ, mmU) =>
        '((I', Q', U'), (I_err', Q_err, U_err)) ←
          make_stokes_image_mm_correct I_ Q U I_err mmQ mmU;
        (* [Q -= ...] and [U -= ...] have written into the input array *)
        q0 ← index mmQ 0; u0 ← index mmU 0;
        h ← assign_slice h stokes_data 3 [I_; (Q - q0 *: I_)%fr; (U - u0 *: I_)%fr];
        let '(h, stokes_data) := np_array h [I'; Q'; U'] in
        let '(h, stokes_err_data) := np_array h [I_err'; Q_err; U_err] in
        mret (h, stokes_data, Some stokes_err_data)
    | None => mret (h, stokes_data, None)
    end;
  (* second order IP correction *)
  '(h, stokes_data, stokes_header) ←
    (if ip_correct then
       '(h, (stokes_data, stokes_header)) ←
         polarization_ip_correct measure_instpol measure_instpol_ann
           h stokes_data (ip_radius, ip_radius2) ip_method stokes_header;
       err ← local "stokes_err_data" stokes_err_data;
       e1 ← getplane h err 1;
       fq ← card_value h stokes_header "IP_FQ";
       e0 ← getplane h err 0;
       h ← setplane h err 1 (fmap2 hypot e1 (fq *: e0)%fr);
       e2 ← getplane h err 2;
       fu ← card_value h stokes_header "IP_FU";
       e0 ← getplane h err 0;
       h ← setplane h err 2 (fmap2 hypot e2 (fu *: e0)%fr);
       mret (h, stokes_data, stokes_header)
     else mret (h, stokes_data, stokes_header));
  (* output_data.append(stokes_data); output_data_err.append(stokes_err_data) *)
  stokes_err_data ← local "stokes_err_data" stokes_err_data;
  mret (h, (stokes_data, stokes_err_data, stokes_header)).

End Field.

End Image.
Import Image.

(** ** The calibration with error maps that hold NaN *)

(** The error maps of the files can hold NaN, and the calibration combines
    them with [np.nanmean].  Here the calibration is given again with
    error maps whose values are a real or NaN; the data cubes stay real. *)
Module WithNaN.

(** An array whose entries are a real or NaN ([None]). *)
Definition NFrame : Type := Index -> option R.
Definition of_frame (a : Frame) : NFrame := fun p => Some (a p).
Definition all_nan : NFrame := fun _ => None.

Record FitsFile := mkFits {
  data : Frame;
  err : NFrame;
  RET_ANG1 : Q;
  U_FLC : string;
  U_CAMERA : Z;
  DEROTANG : R;
}.

Record StokesHDUL := mkHDUL {
  stokes_cube : Frame * Frame * Frame;
  stokes_err : NFrame;
}.

Record Loaded := mkLoaded {
  cube_dict : gmap pyobj Frame;
  cube_errs : list NFrame;
}.

(** [np.power(a, 2)]: the square of NaN is NaN. *)
Definition power2 (a : NFrame) : NFrame := fun p => (fun x => (x ^ 2)%R) <$> a p.

(** [np.nanmean(frames, axis=0)]: at each pixel the mean of the entries
    that are not NaN, and NaN where every entry is NaN (the warning is
    silenced). *)
Definition nanmean_axis0 (frames : list NFrame) : NFrame :=
  fun p =>
    match omap (fun f : NFrame => f p) frames with
    | [] => None
    | x :: xs => Some (Rsum (x :: xs) / INR (length (x :: xs)))%R
    end.

(** [np.sqrt(np.nanmean(np.power(cube_errs, 2), axis=0) / len(cube_errs))] *)
Definition combine_errs (cube_errs : list NFrame) : NFrame :=
  fun p => (fun m => sqrt (m / INR (length cube_errs)))
             <$> nanmean_axis0 (power2 <$> cube_errs) p.

Definition file_key3 (f : FitsFile) : pyobj :=
  Tuple [py_float (RET_ANG1 f); py_str (U_FLC f); py_int (U_CAMERA f)].
Definition file_key2 (f : FitsFile) : pyobj :=
  Tuple [py_float (RET_ANG1 f); py_int (U_CAMERA f)].

Section Pipeline.

(** [image_processing.derotate_cube], on a data cube and on a stack of
    error maps that may hold NaN, and the files on disk. *)
Variable derotate_cube : Frame -> R -> Frame.
Variable derotate_cube_nan : NFrame -> R -> NFrame.
Variable fs : gmap string FitsFile.

Definition fits_open (file : string) : result FitsFile :=
  match fs !! file with
  | Some f => Ok f
  | None => Raise (FileNotFoundError file)
  end.

Definition load3 (st : Loaded) (file : string) : result Loaded :=
  f ← fits_open file;
  let cube_derot := derotate_cube (data f) (DEROTANG f) in
  let cube_err_derot := derotate_cube_nan (err f) (DEROTANG f) in
  let key := Tuple [py_float (RET_ANG1 f); py_str (U_FLC f); py_int (U_CAMERA f)] in
  mret (mkLoaded (<[key := cube_derot]> (cube_dict st))
                 (cube_errs st ++ [cube_err_derot])).

Definition load2 (st : Loaded) (file : string) : result Loaded :=
  f ← fits_open file;
  let cube_derot := derotate_cube (data f) (DEROTANG f) in
  let cube_err_derot := derotate_cube_nan (err f) (DEROTANG f) in
  let key := Tuple [py_float (RET_ANG1 f); py_int (U_CAMERA f)] in
  mret (mkLoaded (<[key := cube_derot]> (cube_dict st))
                 (cube_errs st ++ [cube_err_derot])).

Definition triplediff_body (filenames : list string) : result StokesHDUL :=
  st ← for_in load3 (mkLoaded ∅ []) filenames;
  stokes_cube ← triple_diff_dict (cube_dict st);
  let stokes_err := combine_errs (cube_errs st) in
  mret (mkHDUL stokes_cube stokes_err).

Definition polarization_calibration_triplediff (filenames : list string)
  : result StokesHDUL :=
  if negb (length filenames mod 16 =? 0)%nat
  then Raise (ValueError msg_triplediff)
  else triplediff_body filenames.

Definition doublediff_body (filenames : list string) : result StokesHDUL :=
  st ← for_in load2 (mkLoaded ∅ []) filenames;
  stokes_cube ← double_diff_dict (cube_dict st);
  let stokes_err := combine_errs (cube_errs st) in
  mret (mkHDUL stokes_cube stokes_err).

Definition polarization_calibration_doublediff (filenames : list string)
  : result StokesHDUL :=
  if negb (length filenames mod 8 =? 0)%nat
  then Raise (ValueError msg_doublediff)
  else doublediff_body filenames.

(** The derotated error maps of the files of a call, in the order of the
    call. *)
Definition derotated_errs (files : list FitsFile) : list NFrame :=
  (fun f => derotate_cube_nan (err f) (DEROTANG f)) <$> files.

End Pipeline.

(** The root mean square, at a pixel, of the entries of a set of error
    maps that are not NaN there, divided by the square root of [n]; NaN
    where every entry is NaN. *)
Definition rms_scaled (errs : list NFrame) (n : nat) : NFrame :=
  fun p =>
    let finite := omap (fun e : NFrame => e p) errs in
    if decide (finite = []) then None
    else Some (sqrt (Rsum ((fun x => (x ^ 2)%R) <$> finite) / INR (length finite))
               / sqrt (INR n))%R.

(** The written statement about the error map of double-difference: it is
    the RMS over a frame set of eight of the call's files, scaled by
    [1/sqrt 8]. *)
Definition doublediff_err_over_eight : Prop :=
  forall derotate_cube derotate_cube_nan fs filenames hdul,
    polarization_calibration_doublediff derotate_cube derotate_cube_nan fs filenames
    = Ok hdul ->
    exists members : list FitsFile,
      length members = 8%nat
      /\ (forall f, f ∈ members -> exists name, name ∈ filenames /\ fs !! name = Some f)
      /\ forall p, stokes_err hdul p
                   = rms_scaled (derotated_errs derotate_cube_nan members) 8 p.

(** Two cycles of eight files for the two-part keys: every error map the
    constant 1; and the same with the error maps of the first cycle NaN
    everywhere.  The derotation leaves arrays as they are. *)
Definition cycle_files (e : NFrame) : list FitsFile :=
  a ← [0; 45; 22.5; 67.5]%Q; c ← [1; 2]%Z; [mkFits (fconst 1) e a "A" c 0].
Definition two_cycles_fs : gmap string FitsFile :=
  list_to_map (zip two_cycles_names
                 (cycle_files (of_frame (fconst 1)) ++ cycle_files (of_frame (fconst 1)))).
Definition nan_cycle_fs : gmap string FitsFile :=
  list_to_map (zip two_cycles_names
                 (cycle_files all_nan ++ cycle_files (of_frame (fconst 1)))).
Definition no_derotation_nan (cube : NFrame) (angle : R) : NFrame := cube.

End WithNaN.

(** * Properties *)

(** ** Facts about the error monad and arrays *)

Lemma getitem_Some {V} (d : gmap pyobj V) k v :
  d !! k = Some v -> getitem d k = Ok v.
Proof. unfold getitem. by intros ->. Qed.

Lemma getitem_Ok {V} (d : gmap pyobj V) k v :
  getitem d k = Ok v <-> d !! k = Some v.
Proof. unfold getitem. destruct (d !! k); split; congruence. Qed.

Lemma index_Ok {V} (l : list V) i v :
  index l i = Ok v <-> l !! i = Some v.
Proof. unfold index. destruct (l !! i); split; congruence. Qed.

Lemma bind_Ok {A B} (m : result A) (f : A -> result B) b :
  m ≫= f = Ok b <-> exists a, m = Ok a /\ f a = Ok b.
Proof.
  destruct m as [a|e]; simpl; split.
  - eauto.
  - by intros (a' & [= ->] & H).
  - discriminate.
  - by intros (a' & [=] & _).
Qed.

Lemma Rsum_replicate n (c : R) : Rsum (replicate n c) = (INR n * c)%R.
Proof.
  induction n as [|n IH]; [simpl; lra|].
  rewrite S_INR. simpl. rewrite IH. lra.
Qed.

Lemma hypot_comm x y : hypot x y = hypot y x.
Proof. unfold hypot. f_equal. lra. Qed.

Lemma hypot_nonneg x y : (0 <= hypot x y)%R.
Proof. apply sqrt_pos. Qed.

Lemma hypot_sqr x y : (hypot x y * hypot x y = x * x + y * y)%R.
Proof. unfold hypot. apply sqrt_sqrt. nra. Qed.


(** ** The differential combiner *)

Lemma half_diff_Some d k1 k2 x y :
  d !! k1 = Some x -> d !! k2 = Some y ->
  half_diff d k1 k2 = Ok (0.5 *: (x - y))%fr.
Proof. intros H1 H2. unfold half_diff. by rewrite (getitem_Some _ _ _ H1), (getitem_Some _ _ _ H2). Qed.

Lemma half_sum_Some d k1 k2 x y :
  d !! k1 = Some x -> d !! k2 = Some y ->
  half_sum d k1 k2 = Ok (0.5 *: (x + y))%fr.
Proof. intros H1 H2. unfold half_sum. by rewrite (getitem_Some _ _ _ H1), (getitem_Some _ _ _ H2). Qed.

Lemma tripled_key_in a s c :
  a ∈ [0; 45; 22.5; 67.5]%Q -> s ∈ ["A"; "B"]%string -> c ∈ [1; 2]%Z ->
  key3 a s c ∈ TRIPLEDIFF_SETS.
Proof.
  intros Ha Hs Hc. apply elem_of_list_to_set. unfold tripled_keys.
  apply list_elem_of_bind. exists a. split; [|done].
  apply list_elem_of_bind. exists s. split; [|done].
  apply list_elem_of_bind. exists c. split; [|done].
  apply list_elem_of_singleton. done.
Qed.

Lemma triple_diff_dict_total (d : gmap pyobj Frame) (F : pyobj -> Frame) :
  (forall a s c,
      a ∈ [0; 45; 22.5; 67.5]%Q -> s ∈ ["A"; "B"]%string -> c ∈ [1; 2]%Z ->
      d !! key3 a s c = Some (F (key3 a s c))) ->
  triple_diff_dict d = Ok (Spec42.Is F, Spec42.Qs F, Spec42.Us F).
Proof.
  intros Hd. unfold triple_diff_dict.
  repeat first
    [ erewrite half_diff_Some by (apply Hd; set_solver)
    | erewrite half_sum_Some by (apply Hd; set_solver) ].
  reflexivity.
Qed.

(** C1: on a complete sixteen-key frame set, [triple_diff_dict] returns the
    nested-averaging tree of the specification, stage for stage: the three
    outputs are the specification's [I], [Q] and [U] expressions themselves,
    not merely arrays with the same values. *)
Theorem triple_diff_dict_nested_average (d : gmap pyobj Frame) (F : pyobj -> Frame)
  (Hd : forall k, k ∈ TRIPLEDIFF_SETS -> d !! k = Some (F k)) :
  triple_diff_dict d = Ok (Spec42.Is F, Spec42.Qs F, Spec42.Us F).
Proof.
  apply triple_diff_dict_total. intros a s c Ha Hs Hc.
  apply Hd. by apply tripled_key_in.
Qed.

Lemma triple_diff_dict_nested_average_witness :
  triple_diff_dict unit_frameset
  = Ok (Spec42.Is (fun _ => fconst 1), Spec42.Qs (fun _ => fconst 1),
        Spec42.Us (fun _ => fconst 1)).
Proof.
  apply (triple_diff_dict_nested_average unit_frameset (fun _ => fconst 1)).
  intros k Hk. unfold unit_frameset. rewrite lookup_gset_to_gmap_Some. done.
Defined.

(** The tree collapsed by hand: [Q] is one eighth of the signed sum of the
    eight frames at angles 0 and 45, and [I] is the plain mean of all
    sixteen frames. *)
Lemma nested_average_collapsed (F : pyobj -> Frame) (p : Index) :
  Spec42.Qs F p
  = ((F (key3 0 "A" 1) p - F (key3 0 "A" 2) p
      - F (key3 0 "B" 1) p + F (key3 0 "B" 2) p
      - F (key3 45 "A" 1) p + F (key3 45 "A" 2) p
      + F (key3 45 "B" 1) p - F (key3 45 "B" 2) p) / 8)%R
  /\ Spec42.Us F p
  = ((F (key3 22.5 "A" 1) p - F (key3 22.5 "A" 2) p
      - F (key3 22.5 "B" 1) p + F (key3 22.5 "B" 2) p
      - F (key3 67.5 "A" 1) p + F (key3 67.5 "A" 2) p
      + F (key3 67.5 "B" 1) p - F (key3 67.5 "B" 2) p) / 8)%R
  /\ Spec42.Is F p
  = ((F (key3 0 "A" 1) p + F (key3 0 "A" 2) p
      + F (key3 0 "B" 1) p + F (key3 0 "B" 2) p
      + F (key3 45 "A" 1) p + F (key3 45 "A" 2) p
      + F (key3 45 "B" 1) p + F (key3 45 "B" 2) p
      + F (key3 22.5 "A" 1) p + F (key3 22.5 "A" 2) p
      + F (key3 22.5 "B" 1) p + F (key3 22.5 "B" 2) p
      + F (key3 67.5 "A" 1) p + F (key3 67.5 "A" 2) p
      + F (key3 67.5 "B" 1) p + F (key3 67.5 "B" 2) p) / 16)%R.
Proof.
  unfold Spec42.Qs, Spec42.Us, Spec42.Is, Spec42.IQ, Spec42.IU,
    Spec42.Q0, Spec42.Q1, Spec42.U0, Spec42.U1,
    Spec42.IQ0, Spec42.IQ1, Spec42.IU0, Spec42.IU1,
    Spec42.pD, Spec42.mD, Spec42.pS, Spec42.mS, fscale, fsub, fadd.
  repeat split; lra.
Qed.

Lemma unit_frameset_lookup k :
  k ∈ TRIPLEDIFF_SETS -> unit_frameset !! k = Some (fconst 1).
Proof. intros Hk. unfold unit_frameset. by rewrite lookup_gset_to_gmap_Some. Qed.

Lemma constant_frameset_lookup (c : R) k :
  k ∈ TRIPLEDIFF_SETS ->
  gset_to_gmap (fconst c) TRIPLEDIFF_SETS !! k = Some (fconst c).
Proof. intros Hk. by rewrite lookup_gset_to_gmap_Some. Qed.

Lemma triple_diff_dict_constant_frames (c : R) :
  triple_diff_dict (gset_to_gmap (fconst c) TRIPLEDIFF_SETS)
  = Ok (Spec42.Is (fun _ => fconst c), Spec42.Qs (fun _ => fconst c),
        Spec42.Us (fun _ => fconst c))
  /\ forall p, Spec42.Is (fun _ => fconst c) p = c
               /\ Spec42.Qs (fun _ => fconst c) p = 0%R
               /\ Spec42.Us (fun _ => fconst c) p = 0%R.
Proof.
  split.
  - apply (triple_diff_dict_total _ (fun _ => fconst c)).
    intros a s c' Ha Hs Hc. apply constant_frameset_lookup. by apply tripled_key_in.
  - intros p.
    destruct (nested_average_collapsed (fun _ => fconst c) p) as (HQ & HU & HI).
    rewrite HQ, HU, HI. unfold fconst. repeat split; lra.
Qed.

(** C2, as the code has it: on the sixteen unit frames [triple_diff_dict]
    returns [I = 1], [Q = 0] and [U = 0] at every pixel.  The intensity is
    the value of the formula [I = 0.5 (IQ + IU)] of the written
    specification over the halved camera sums: frames of the constant
    value [c] give [I = c], [Q = 0] and [U = 0], and no factor 2 for the
    beamsplitter is applied. *)
Theorem triple_diff_dict_unit_frames :
  (exists I Q U,
     triple_diff_dict unit_frameset = Ok (I, Q, U)
     /\ I = Spec42.Is (fun _ => fconst 1)
     /\ forall p, I p = 1%R /\ Q p = 0%R /\ U p = 0%R)
  /\ forall c : R,
       exists I Q U,
         triple_diff_dict (gset_to_gmap (fconst c) TRIPLEDIFF_SETS) = Ok (I, Q, U)
         /\ forall p, I p = c /\ Q p = 0%R /\ U p = 0%R.
Proof.
  split.
  - destruct (triple_diff_dict_constant_frames 1) as [Hrun Hval].
    eexists _, _, _. split; [exact Hrun|]. split; [reflexivity|exact Hval].
  - intros c. destruct (triple_diff_dict_constant_frames c) as [Hrun Hval].
    eexists _, _, _. split; [exact Hrun|exact Hval].
Qed.

(** The written statement fails: the intensity of the unit frames is 1,
    not 2. *)
Lemma unit_frames_intensity_not_two : ~ unit_frames_give_two.
Proof.
  intros (I & Q & U & Hrun & Hval).
  destruct (triple_diff_dict_constant_frames 1) as [Hcode Hone].
  unfold unit_frameset in Hrun. rewrite Hcode in Hrun.
  injection Hrun as <- _ _.
  destruct (Hval []) as [H2 _]. destruct (Hone []) as [H1 _]. lra.
Qed.

(** The legacy combiner of [polarization.py] on the same sixteen unit
    frames: [I = 2], [Q = 0], [U = 0]. *)
Lemma legacy_triplediff_unit_frames :
  exists I Q U,
    legacy_triplediff_cycle (replicate 16 (fconst 1)) 0 = Ok (I, Q, U)
    /\ forall p, I p = 2%R /\ Q p = 0%R /\ U p = 0%R.
Proof.
  eexists _, _, _. split; [reflexivity|].
  intros p. unfold fscale, fsub, fconst, mean_axis0. simpl. repeat split; lra.
Qed.

(** ** The frame-set matcher *)

(** *** The loop over the remaining keys *)

Section FillLoop.
Variable pick : pyobj -> result string.

Lemma for_in_cons {A S} (body : S -> A -> result S) acc x xs :
  for_in body acc (x :: xs) = body acc x ≫= fun acc' => for_in body acc' xs.
Proof. reflexivity. Qed.

Lemma for_in_fill_Ok keys : forall out m,
  for_in (fill_with pick) out keys = Ok m ->
  (forall k, k ∈ keys -> exists p, pick k = Ok p /\ m !! k = Some p)
  /\ (forall k, k ∉ keys -> m !! k = out !! k).
Proof.
  induction keys as [|x xs IH]; intros out m H.
  - injection H as <-. split; [intros k Hk; by apply elem_of_nil in Hk | done].
  - rewrite for_in_cons in H.
    apply bind_Ok in H as (out' & Hstep & Hrest).
    unfold fill_with in Hstep. apply bind_Ok in Hstep as (p & Hp & [= <-]).
    destruct (IH _ _ Hrest) as [Hin Hout]. split.
    + intros k Hk. apply elem_of_cons in Hk as [->|Hk]; [|by apply Hin].
      destruct (decide (x ∈ xs)) as [Hx|Hx]; [by apply Hin|].
      exists p. split; [done|]. rewrite (Hout _ Hx). apply lookup_insert_eq.
    + intros k Hk. apply not_elem_of_cons in Hk as [Hne Hk].
      rewrite (Hout _ Hk). by apply lookup_insert_ne.
Qed.

Lemma for_in_fill_Raise keys : forall out e,
  for_in (fill_with pick) out keys = Raise e ->
  exists k, k ∈ keys /\ pick k = Raise e.
Proof.
  induction keys as [|x xs IH]; intros out e H; [discriminate|].
  rewrite for_in_cons in H.
  destruct (pick x) as [p|e'] eqn:Hp.
  - assert (Hx : fill_with pick out x = Ok (<[x := p]> out))
      by (unfold fill_with; by rewrite Hp).
    rewrite Hx in H.
    destruct (IH _ _ H) as (k & Hk & Hr). exists k. split; [by right|done].
  - assert (Hx : fill_with pick out x = Raise e')
      by (unfold fill_with; by rewrite Hp).
    rewrite Hx in H. injection H as <-. exists x. split; [by left|done].
Qed.

Lemma for_in_fill_total keys : forall out,
  (forall k, k ∈ keys -> is_Ok (pick k)) ->
  is_Ok (for_in (fill_with pick) out keys).
Proof.
  intros out Hall. destruct (for_in (fill_with pick) out keys) as [m|e] eqn:H.
  - by exists m.
  - apply for_in_fill_Raise in H as (k & Hk & Hr).
    destruct (Hall k Hk) as [p Hp]. congruence.
Qed.

End FillLoop.

(** *** [argmin] returns the first least element *)

Lemma argmin_from_spec l : forall pre best ibest,
  pre !! ibest = Some best ->
  (forall j y, pre !! j = Some y -> (best <= y)%Q) ->
  (forall j y, (j < ibest)%nat -> pre !! j = Some y -> (best < y)%Q) ->
  let r := argmin_from best ibest (length pre) l in
  exists v, (pre ++ l) !! r = Some v
    /\ (forall j y, (pre ++ l) !! j = Some y -> (v <= y)%Q)
    /\ (forall j y, (j < r)%nat -> (pre ++ l) !! j = Some y -> (v < y)%Q).
Proof.
  induction l as [|x l IH]; intros pre best ibest Hb Hle Hlt; simpl.
  - rewrite app_nil_r. eauto.
  - assert (Hlen : length (pre ++ [x]) = S (length pre))
      by (rewrite length_app; simpl; lia).
    replace (pre ++ x :: l) with ((pre ++ [x]) ++ l) by (by rewrite <- app_assoc).
    destruct (Qlt_le_dec x best) as [Hx|Hx].
    + specialize (IH (pre ++ [x]) x (length pre)). rewrite Hlen in IH.
      apply IH.
      * rewrite lookup_app_r by lia. by rewrite Nat.sub_diag.
      * intros j y Hj. apply lookup_app_Some in Hj as [Hj|[_ Hj]].
        -- apply Qlt_le_weak. eapply Qlt_le_trans; [exact Hx|]. by eapply Hle.
        -- destruct (j - length pre)%nat; simpl in Hj; [|done].
           injection Hj as <-. apply Qle_refl.
      * intros j y Hj Hy. rewrite lookup_app_l in Hy by lia.
        eapply Qlt_le_trans; [exact Hx|]. by eapply Hle.
    + specialize (IH (pre ++ [x]) best ibest). rewrite Hlen in IH.
      apply IH.
      * apply lookup_app_l_Some. done.
      * intros j y Hj. apply lookup_app_Some in Hj as [Hj|[_ Hj]]; [by eapply Hle|].
        destruct (j - length pre)%nat; simpl in Hj; [|done].
        by injection Hj as <-.
      * intros j y Hj Hy. apply Hlt with j; [done|].
        apply lookup_lt_Some in Hb. by rewrite lookup_app_l in Hy by lia.
Qed.

Lemma argmin_spec (l : list Q) :
  l <> [] ->
  exists i v, argmin l = Ok i /\ l !! i = Some v
    /\ (forall j y, l !! j = Some y -> (v <= y)%Q)
    /\ (forall j y, (j < i)%nat -> l !! j = Some y -> (v < y)%Q).
Proof.
  destruct l as [|x l]; [done|]. intros _.
  destruct (argmin_from_spec l [x] x 0%nat) as (v & Hv & Hle & Hlt).
  - done.
  - intros [|j] y Hj; [|done]. injection Hj as <-. apply Qle_refl.
  - intros j y Hj. lia.
  - exists (argmin_from x 0 1 l), v. simpl in *. done.
Qed.

Lemma argmin_nil_raises : exists msg, argmin [] = Raise (ValueError msg).
Proof. by eexists. Qed.

(** *** The loop body, the masks and the keyspace *)

Lemma for_in_ext {A S} (f g : S -> A -> result S) xs :
  (forall acc x, f acc x = g acc x) ->
  forall acc, for_in f acc xs = for_in g acc xs.
Proof.
  intros Hfg. induction xs as [|x xs IH]; intros acc; [done|].
  rewrite !for_in_cons, Hfg. destruct (g acc x); simpl; [apply IH|done].
Qed.

Lemma fill3_fill_with table row out key :
  fill3 table row out key = fill_with (pick3 table row) out key.
Proof.
  unfold fill3, fill_with, pick3.
  destruct (tuple_item key 0); simpl; [|done].
  destruct (tuple_item key 1); simpl; [|done].
  destruct (tuple_item key 2); simpl; done.
Qed.

Lemma fill2_fill_with table row out key :
  fill2 table row out key = fill_with (pick2 table row) out key.
Proof.
  unfold fill2, fill_with, pick2.
  destruct (tuple_item key 0); simpl; [|done].
  destruct (tuple_item key 1); simpl; done.
Qed.

Lemma tripled_keys_shape k :
  k ∈ TRIPLEDIFF_SETS -> exists k0 k1 k2, k = Tuple [k0; k1; k2].
Proof.
  intros Hk. apply elem_of_list_to_set in Hk. unfold tripled_keys in Hk.
  apply list_elem_of_bind in Hk as (a & Hk & _).
  apply list_elem_of_bind in Hk as (s & Hk & _).
  apply list_elem_of_bind in Hk as (c & Hk & _).
  apply list_elem_of_singleton in Hk as ->. unfold key3. eauto.
Qed.

Lemma doubled_keys_shape k :
  k ∈ DOUBLEDIFF_SETS -> exists k0 k1, k = Tuple [k0; k1].
Proof.
  intros Hk. apply elem_of_list_to_set in Hk. unfold doubled_keys in Hk.
  apply list_elem_of_bind in Hk as (a & Hk & _).
  apply list_elem_of_bind in Hk as (c & Hk & _).
  apply list_elem_of_singleton in Hk as ->. unfold key2. eauto.
Qed.

Lemma set_of_tuple_atoms t k : k ∈ set_of_tuple t -> exists a, k = Atom a.
Proof.
  unfold set_of_tuple. rewrite elem_of_list_to_set, list_elem_of_fmap.
  intros (a & -> & _). eauto.
Qed.

(** [set(row_key)] holds the three components of the key, none of which is
    a tuple: the difference removes nothing, and the anchor's own key stays
    among the keys the loop visits. *)
Lemma remaining_keys3_all row :
  TRIPLEDIFF_SETS ∖ set_of_tuple (row_key3 row) = TRIPLEDIFF_SETS.
Proof.
  apply set_eq. intros k. rewrite elem_of_difference. split; [tauto|].
  intros Hk. split; [done|]. intros Hin.
  apply tripled_keys_shape in Hk as (k0 & k1 & k2 & ->).
  apply set_of_tuple_atoms in Hin as (a & [=]).
Qed.

Lemma remaining_keys2_all row :
  DOUBLEDIFF_SETS ∖ set_of_tuple (row_key2 row) = DOUBLEDIFF_SETS.
Proof.
  apply set_eq. intros k. rewrite elem_of_difference. split; [tauto|].
  intros Hk. split; [done|]. intros Hin.
  apply doubled_keys_shape in Hk as (k0 & k1 & ->).
  apply set_of_tuple_atoms in Hin as (a & [=]).
Qed.

Lemma mask3_candidates table k0 k1 k2 :
  List.filter (mask3 k0 k1 k2) table = candidates3 table (Tuple [k0; k1; k2]).
Proof.
  unfold candidates3. apply List.filter_ext. intros r. unfold mask3, row_key3.
  repeat case_bool_decide; simpl; try done; congruence.
Qed.

Lemma mask2_candidates table k0 k1 :
  List.filter (mask2 k0 k1) table = candidates2 table (Tuple [k0; k1]).
Proof.
  unfold candidates2. apply List.filter_ext. intros r. unfold mask2, row_key2.
  repeat case_bool_decide; simpl; try done; congruence.
Qed.

Lemma pick3_candidates table row k :
  k ∈ TRIPLEDIFF_SETS -> pick3 table row k = nearest row (candidates3 table k).
Proof.
  intros Hk. apply tripled_keys_shape in Hk as (k0 & k1 & k2 & ->).
  unfold pick3. simpl. by rewrite mask3_candidates.
Qed.

Lemma pick2_candidates table row k :
  k ∈ DOUBLEDIFF_SETS -> pick2 table row k = nearest row (candidates2 table k).
Proof.
  intros Hk. apply doubled_keys_shape in Hk as (k0 & k1 & ->).
  unfold pick2. simpl. by rewrite mask2_candidates.
Qed.

(** *** The record picked for one key *)

Lemma nearest_nil row : exists msg, nearest row [] = Raise (ValueError msg).
Proof. by eexists. Qed.

Lemma nearest_spec row cands :
  cands <> [] ->
  exists i r, nearest row cands = Ok (path r) /\ first_nearest row cands i r.
Proof.
  intros Hne.
  destruct (argmin_spec (deltatime row <$> cands)) as (i & v & Hi & Hv & Hle & Hlt).
  { by destruct cands. }
  rewrite list_lookup_fmap in Hv.
  destruct (cands !! i) as [r|] eqn:Hr; [|done]. injection Hv as <-.
  exists i, r. split.
  - unfold nearest. rewrite Hi. simpl. unfold index. by rewrite Hr.
  - split; [done|]. split.
    + intros j r' Hj. apply (Hle j). by rewrite list_lookup_fmap, Hj.
    + intros j r' Hji Hj. apply (Hlt j); [done|]. by rewrite list_lookup_fmap, Hj.
Qed.

Lemma nearest_Ok_iff row cands : is_Ok (nearest row cands) <-> cands <> [].
Proof.
  split.
  - intros [p Hp] ->. destruct (nearest_nil row) as [msg Hm]. congruence.
  - intros Hne. destruct (nearest_spec row cands Hne) as (i & r & Hn & _).
    by eexists.
Qed.

Lemma nearest_Raise row cands e :
  nearest row cands = Raise e -> cands = [] /\ exists msg, e = ValueError msg.
Proof.
  intros He. destruct cands as [|c cands].
  - split; [done|]. destruct (nearest_nil row) as [msg Hm]. exists msg. congruence.
  - destruct (nearest_spec row (c :: cands)) as (i & r & Hn & _); [done|congruence].
Qed.

(** *** What the matcher returns *)

Lemma get_triplediff_set_loop table row :
  get_triplediff_set table row
  = for_in (fill_with (pick3 table row)) {[ Tuple (row_key3 row) := path row ]}
      (elements TRIPLEDIFF_SETS).
Proof.
  unfold get_triplediff_set. rewrite remaining_keys3_all.
  apply for_in_ext. intros. apply fill3_fill_with.
Qed.

Lemma get_doublediff_set_loop table row :
  get_doublediff_set table row
  = for_in (fill_with (pick2 table row)) {[ Tuple (row_key2 row) := path row ]}
      (elements DOUBLEDIFF_SETS).
Proof.
  unfold get_doublediff_set. rewrite remaining_keys2_all.
  apply for_in_ext. intros. apply fill2_fill_with.
Qed.

Lemma get_triplediff_set_Ok table row m k :
  get_triplediff_set table row = Ok m -> k ∈ TRIPLEDIFF_SETS ->
  exists i r, first_nearest row (candidates3 table k) i r /\ m !! k = Some (path r).
Proof.
  rewrite get_triplediff_set_loop. intros H Hk.
  apply for_in_fill_Ok in H as [Hin _].
  destruct (Hin k) as (p & Hp & Hm); [by apply elem_of_elements|].
  rewrite pick3_candidates in Hp by done.
  destruct (candidates3 table k) as [|c cs] eqn:Hc.
  { destruct (nearest_nil row) as [msg Hmsg]. congruence. }
  destruct (nearest_spec row (c :: cs)) as (i & r & Hn & Hfirst); [done|].
  exists i, r. split; [done|]. congruence.
Qed.

Lemma get_doublediff_set_Ok table row m k :
  get_doublediff_set table row = Ok m -> k ∈ DOUBLEDIFF_SETS ->
  exists i r, first_nearest row (candidates2 table k) i r /\ m !! k = Some (path r).
Proof.
  rewrite get_doublediff_set_loop. intros H Hk.
  apply for_in_fill_Ok in H as [Hin _].
  destruct (Hin k) as (p & Hp & Hm); [by apply elem_of_elements|].
  rewrite pick2_candidates in Hp by done.
  destruct (candidates2 table k) as [|c cs] eqn:Hc.
  { destruct (nearest_nil row) as [msg Hmsg]. congruence. }
  destruct (nearest_spec row (c :: cs)) as (i & r & Hn & Hfirst); [done|].
  exists i, r. split; [done|]. congruence.
Qed.

Lemma get_triplediff_set_Raise table row e :
  get_triplediff_set table row = Raise e ->
  (exists k, k ∈ TRIPLEDIFF_SETS /\ candidates3 table k = [])
  /\ exists msg, e = ValueError msg.
Proof.
  rewrite get_triplediff_set_loop. intros H.
  apply for_in_fill_Raise in H as (k & Hk & Hr).
  apply elem_of_elements in Hk. rewrite pick3_candidates in Hr by done.
  apply nearest_Raise in Hr as [Hnil Hmsg]. eauto.
Qed.

Lemma get_doublediff_set_Raise table row e :
  get_doublediff_set table row = Raise e ->
  (exists k, k ∈ DOUBLEDIFF_SETS /\ candidates2 table k = [])
  /\ exists msg, e = ValueError msg.
Proof.
  rewrite get_doublediff_set_loop. intros H.
  apply for_in_fill_Raise in H as (k & Hk & Hr).
  apply elem_of_elements in Hk. rewrite pick2_candidates in Hr by done.
  apply nearest_Raise in Hr as [Hnil Hmsg]. eauto.
Qed.

Lemma get_triplediff_set_missing table row k :
  k ∈ TRIPLEDIFF_SETS -> candidates3 table k = [] ->
  raises (get_triplediff_set table row).
Proof.
  intros Hk Hnil. destruct (get_triplediff_set table row) as [m|e] eqn:H.
  - destruct (get_triplediff_set_Ok _ _ _ _ H Hk) as (i & r & [Hr _] & _).
    rewrite Hnil in Hr. done.
  - by exists e.
Qed.

Lemma get_doublediff_set_missing table row k :
  k ∈ DOUBLEDIFF_SETS -> candidates2 table k = [] ->
  raises (get_doublediff_set table row).
Proof.
  intros Hk Hnil. destruct (get_doublediff_set table row) as [m|e] eqn:H.
  - destruct (get_doublediff_set_Ok _ _ _ _ H Hk) as (i & r & [Hr _] & _).
    rewrite Hnil in Hr. done.
  - by exists e.
Qed.

(** Every key of the keyspace, the anchor's own included, is given the
    first-listed nearest candidate. *)
Lemma matcher_nearest_first_listed table row :
  (forall m k, get_triplediff_set table row = Ok m -> k ∈ TRIPLEDIFF_SETS ->
     exists i r, first_nearest row (candidates3 table k) i r
                 /\ m !! k = Some (path r))
  /\ (forall m k, get_doublediff_set table row = Ok m -> k ∈ DOUBLEDIFF_SETS ->
     exists i r, first_nearest row (candidates2 table k) i r
                 /\ m !! k = Some (path r)).
Proof.
  split; intros m k H Hk.
  - by apply get_triplediff_set_Ok.
  - by apply get_doublediff_set_Ok.
Qed.

(** C4: the anchor's own key is given to another record.  In [tie_table3]
    the anchor [anchor.fits] is the second of two records of key
    [(0, "A", 1)] that share its timestamp; the loop visits the anchor's key
    too and stores the first of the two.  The same happens with two-part
    keys. *)
Theorem matcher_anchor_key_overwritten :
  (tie_anchor3 ∈ tie_table3
   /\ exists m, get_triplediff_set tie_table3 tie_anchor3 = Ok m
        /\ m !! Tuple (row_key3 tie_anchor3) = Some "first.fits"%string
        /\ m !! Tuple (row_key3 tie_anchor3) <> Some (path tie_anchor3))
  /\ (tie_anchor2 ∈ tie_table2
   /\ exists m, get_doublediff_set tie_table2 tie_anchor2 = Ok m
        /\ m !! Tuple (row_key2 tie_anchor2) = Some "first.fits"%string
        /\ m !! Tuple (row_key2 tie_anchor2) <> Some (path tie_anchor2)).
Proof.
  split; (split; [unfold tie_table3, tie_table2; set_solver|]).
  - assert (H1 : get_triplediff_set tie_table3 tie_anchor3
                  ≫= (fun m => mret (m !! Tuple (row_key3 tie_anchor3)))
                  = Ok (Some "first.fits"%string))
      by (vm_compute; reflexivity).
    apply bind_Ok in H1 as (m & Hm & Hk). injection Hk as Hk.
    exists m. split; [exact Hm|]. rewrite Hk. split; [reflexivity|].
    vm_compute. discriminate.
  - assert (H1 : get_doublediff_set tie_table2 tie_anchor2
                  ≫= (fun m => mret (m !! Tuple (row_key2 tie_anchor2)))
                  = Ok (Some "first.fits"%string))
      by (vm_compute; reflexivity).
    apply bind_Ok in H1 as (m & Hm & Hk). injection Hk as Hk.
    exists m. split; [exact Hm|]. rewrite Hk. split; [reflexivity|].
    vm_compute. discriminate.
Qed.

(** C5: the matcher raises exactly when some key of the keyspace has no
    candidate row in the table; what it raises is then the [ValueError] of
    [argmin] on an empty selection, and nothing else; and when every key
    has a candidate it returns a dictionary defined on the whole keyspace. *)
Theorem matcher_fails_iff_key_without_candidate table row :
  (raises (get_triplediff_set table row)
     <-> exists k, k ∈ TRIPLEDIFF_SETS /\ candidates3 table k = [])
  /\ (forall e, get_triplediff_set table row = Raise e -> exists msg, e = ValueError msg)
  /\ ((forall k, k ∈ TRIPLEDIFF_SETS -> candidates3 table k <> []) ->
        exists m, get_triplediff_set table row = Ok m
                  /\ size TRIPLEDIFF_SETS = 16%nat
                  /\ forall k, k ∈ TRIPLEDIFF_SETS -> is_Some (m !! k))
  /\ (raises (get_doublediff_set table row)
     <-> exists k, k ∈ DOUBLEDIFF_SETS /\ candidates2 table k = [])
  /\ (forall e, get_doublediff_set table row = Raise e -> exists msg, e = ValueError msg)
  /\ ((forall k, k ∈ DOUBLEDIFF_SETS -> candidates2 table k <> []) ->
        exists m, get_doublediff_set table row = Ok m
                  /\ size DOUBLEDIFF_SETS = 8%nat
                  /\ forall k, k ∈ DOUBLEDIFF_SETS -> is_Some (m !! k)).
Proof.
  repeat split.
  - intros [e He]. by apply get_triplediff_set_Raise in He as [? _].
  - intros (k & Hk & Hnil). by eapply get_triplediff_set_missing.
  - intros e He. by apply get_triplediff_set_Raise in He as [_ ?].
  - intros Hall. destruct (get_triplediff_set table row) as [m|e] eqn:H.
    + exists m. split; [done|]. split; [vm_compute; reflexivity|].
      intros k Hk. destruct (get_triplediff_set_Ok _ _ _ _ H Hk) as (i & r & _ & Hm).
      by eexists.
    + apply get_triplediff_set_Raise in H as [(k & Hk & Hnil) _].
      by destruct (Hall k Hk).
  - intros [e He]. by apply get_doublediff_set_Raise in He as [? _].
  - intros (k & Hk & Hnil). by eapply get_doublediff_set_missing.
  - intros e He. by apply get_doublediff_set_Raise in He as [_ ?].
  - intros Hall. destruct (get_doublediff_set table row) as [m|e] eqn:H.
    + exists m. split; [done|]. split; [vm_compute; reflexivity|].
      intros k Hk. destruct (get_doublediff_set_Ok _ _ _ _ H Hk) as (i & r & _ & Hm).
      by eexists.
    + apply get_doublediff_set_Raise in H as [(k & Hk & Hnil) _].
      by destruct (Hall k Hk).
Qed.

Lemma tie_table3_complete k :
  k ∈ TRIPLEDIFF_SETS -> candidates3 tie_table3 k <> [].
Proof.
  intros Hk. apply elem_of_list_to_set, list_elem_of_In in Hk.
  assert (H : forallb (fun k => match candidates3 tie_table3 k with
                                | [] => false
                                | _ => true
                                end) tripled_keys = true)
    by (vm_compute; reflexivity).
  rewrite forallb_forall in H. specialize (H k Hk).
  destruct (candidates3 tie_table3 k); [discriminate H|done].
Qed.

Lemma matcher_fails_iff_key_without_candidate_witness :
  exists m, get_triplediff_set tie_table3 tie_anchor3 = Ok m
            /\ size TRIPLEDIFF_SETS = 16%nat
            /\ forall k, k ∈ TRIPLEDIFF_SETS -> is_Some (m !! k).
Proof.
  destruct (matcher_fails_iff_key_without_candidate tie_table3 tie_anchor3)
    as (_ & _ & H & _).
  apply H. exact tie_table3_complete.
Defined.

(** ** The check of the number of files *)

Lemma mod_check_false n k : (n mod k <> 0)%nat -> negb (n mod k =? 0)%nat = true.
Proof. intros H. apply negb_true_iff. by apply Nat.eqb_neq. Qed.

Lemma mod_check_true n k : (n mod k = 0)%nat -> negb (n mod k =? 0)%nat = false.
Proof. intros H. apply negb_false_iff. by apply Nat.eqb_eq. Qed.

(** C6, as the code has it: when the number of files is not a multiple of
    16 (of 8) the calibration raises [ValueError] before it opens a file or
    computes anything, whatever is on disk; the message is one fixed
    string, which names the multiple 16 (8); and when the number is a
    multiple the check lets the calibration proper run. *)
Theorem count_check_fixed_message derotate_cube fs filenames :
  ((length filenames mod 16 <> 0)%nat ->
     polarization_calibration_triplediff derotate_cube fs filenames
     = Raise (ValueError msg_triplediff))
  /\ ((length filenames mod 16 = 0)%nat ->
     polarization_calibration_triplediff derotate_cube fs filenames
     = triplediff_body derotate_cube fs filenames)
  /\ names 16 msg_triplediff = true
  /\ ((length filenames mod 8 <> 0)%nat ->
     polarization_calibration_doublediff derotate_cube fs filenames
     = Raise (ValueError msg_doublediff))
  /\ ((length filenames mod 8 = 0)%nat ->
     polarization_calibration_doublediff derotate_cube fs filenames
     = doublediff_body derotate_cube fs filenames)
  /\ names 8 msg_doublediff = true.
Proof.
  unfold polarization_calibration_triplediff, polarization_calibration_doublediff.
  repeat split.
  - intros H. by rewrite mod_check_false.
  - intros H. by rewrite mod_check_true.
  - intros H. by rewrite mod_check_false.
  - intros H. by rewrite mod_check_true.
Qed.

Lemma count_check_fixed_message_witness :
  polarization_calibration_triplediff no_derotation ∅ ["a"; "b"; "c"]%string
  = Raise (ValueError msg_triplediff)
  /\ polarization_calibration_doublediff no_derotation ∅ ["a"; "b"; "c"]%string
     = Raise (ValueError msg_doublediff)
  /\ polarization_calibration_triplediff no_derotation ∅ []
     = triplediff_body no_derotation ∅ []
  /\ polarization_calibration_doublediff no_derotation ∅ []
     = doublediff_body no_derotation ∅ [].
Proof.
  destruct (count_check_fixed_message no_derotation ∅ ["a"; "b"; "c"]%string)
    as (H3 & _ & _ & H2 & _).
  destruct (count_check_fixed_message no_derotation ∅ [])
    as (_ & H3' & _ & _ & H2' & _).
  split; [apply H3; simpl; lia|].
  split; [apply H2; simpl; lia|].
  split; [apply H3'; reflexivity|apply H2'; reflexivity].
Defined.

(** The message of the check does not name the count received: for three
    files it is the fixed string, in which no "3" occurs. *)
Lemma count_error_message_omits_count : ~ count_error_names_both.
Proof.
  intros H.
  destruct (H no_derotation ∅ ["a"; "b"; "c"]%string) as (msg & Hmsg & _ & Hn).
  { simpl. lia. }
  unfold polarization_calibration_triplediff in Hmsg. simpl in Hmsg.
  injection Hmsg as <-.
  vm_compute in Hn. discriminate.
Qed.

(** ** The error map of a calibration *)

Lemma is_Ok_b_true {A} (r : result A) : is_Ok_b r = true -> exists a, r = Ok a.
Proof. destruct r; [eauto|discriminate]. Qed.

Section ErrorMap.
Variable derotate_cube : Frame -> R -> Frame.
Variable fs : gmap string FitsFile.

Lemma load_loop_errs (load : Loaded -> string -> result Loaded) :
  (forall st file st', load st file = Ok st' ->
     exists f, fs !! file = Some f
       /\ cube_errs st' = cube_errs st ++ [derotate_cube (err f) (DEROTANG f)]) ->
  forall filenames st st',
    for_in load st filenames = Ok st' ->
    exists files,
      Forall2 (fun name f => fs !! name = Some f) filenames files
      /\ cube_errs st' = cube_errs st ++ derotated_errs derotate_cube files.
Proof.
  intros Hload. induction filenames as [|file filenames IH]; intros st st' H.
  - injection H as <-. exists []. split; [constructor|].
    by rewrite app_nil_r.
  - rewrite for_in_cons in H. apply bind_Ok in H as (st1 & H1 & H2).
    destruct (Hload _ _ _ H1) as (f & Hf & He).
    destruct (IH _ _ H2) as (files & Hfiles & Hes).
    exists (f :: files). split; [by constructor|].
    rewrite Hes, He, <- app_assoc. done.
Qed.

Lemma load3_errs st file st' :
  load3 derotate_cube fs st file = Ok st' ->
  exists f, fs !! file = Some f
    /\ cube_errs st' = cube_errs st ++ [derotate_cube (err f) (DEROTANG f)].
Proof.
  unfold load3, fits_open. destruct (fs !! file) as [f|]; [|done].
  intros [= <-]. eauto.
Qed.

Lemma load2_errs st file st' :
  load2 derotate_cube fs st file = Ok st' ->
  exists f, fs !! file = Some f
    /\ cube_errs st' = cube_errs st ++ [derotate_cube (err f) (DEROTANG f)].
Proof.
  unfold load2, fits_open. destruct (fs !! file) as [f|]; [|done].
  intros [= <-]. eauto.
Qed.

Lemma triple_diff_dict_empty : raises (triple_diff_dict ∅).
Proof. by eexists. Qed.

Lemma double_diff_dict_empty : raises (double_diff_dict ∅).
Proof. by eexists. Qed.

Lemma combine_errs_rms errs p :
  errs <> [] -> combine_errs errs p = rms_over_set errs p.
Proof.
  intros Hne. unfold combine_errs, rms_over_set, fmap.
  apply sqrt_div_alt. apply lt_0_INR. destruct errs; [done|simpl; lia].
Qed.

Lemma triplediff_body_err filenames hdul :
  triplediff_body derotate_cube fs filenames = Ok hdul ->
  exists files,
    Forall2 (fun name f => fs !! name = Some f) filenames files
    /\ forall p, stokes_err hdul p
                 = rms_over_set (derotated_errs derotate_cube files) p.
Proof.
  unfold triplediff_body. intros H.
  apply bind_Ok in H as (st & Hst & H). apply bind_Ok in H as (cube & Hcube & [= <-]).
  destruct (load_loop_errs _ load3_errs _ _ _ Hst) as (files & Hfiles & Herrs).
  simpl in Herrs. exists files. split; [done|]. intros p. simpl.
  rewrite Herrs. apply combine_errs_rms. intros Hnil.
  destruct files; [|done]. apply Forall2_nil_inv_r in Hfiles as ->.
  injection Hst as <-. simpl in Hcube.
  destruct triple_diff_dict_empty as [e He]. congruence.
Qed.

Lemma doublediff_body_err filenames hdul :
  doublediff_body derotate_cube fs filenames = Ok hdul ->
  exists files,
    Forall2 (fun name f => fs !! name = Some f) filenames files
    /\ forall p, stokes_err hdul p
                 = rms_over_set (derotated_errs derotate_cube files) p.
Proof.
  unfold doublediff_body. intros H.
  apply bind_Ok in H as (st & Hst & H). apply bind_Ok in H as (cube & Hcube & [= <-]).
  destruct (load_loop_errs _ load2_errs _ _ _ Hst) as (files & Hfiles & Herrs).
  simpl in Herrs. exists files. split; [done|]. intros p. simpl.
  rewrite Herrs. apply combine_errs_rms. intros Hnil.
  destruct files; [|done]. apply Forall2_nil_inv_r in Hfiles as ->.
  injection Hst as <-. simpl in Hcube.
  destruct double_diff_dict_empty as [e He]. congruence.
Qed.

Lemma triplediff_Ok_inv filenames hdul :
  polarization_calibration_triplediff derotate_cube fs filenames = Ok hdul ->
  (length filenames mod 16 = 0)%nat
  /\ triplediff_body derotate_cube fs filenames = Ok hdul.
Proof.
  unfold polarization_calibration_triplediff.
  destruct (length filenames mod 16 =? 0)%nat eqn:Hc; simpl; [|done].
  apply Nat.eqb_eq in Hc. done.
Qed.

Lemma doublediff_Ok_inv filenames hdul :
  polarization_calibration_doublediff derotate_cube fs filenames = Ok hdul ->
  (length filenames mod 8 = 0)%nat
  /\ doublediff_body derotate_cube fs filenames = Ok hdul.
Proof.
  unfold polarization_calibration_doublediff.
  destruct (length filenames mod 8 =? 0)%nat eqn:Hc; simpl; [|done].
  apply Nat.eqb_eq in Hc. done.
Qed.

End ErrorMap.

Lemma two_cycles_run :
  exists hdul,
    polarization_calibration_doublediff no_derotation two_cycles_fs two_cycles_names
    = Ok hdul.
Proof. apply is_Ok_b_true. vm_compute. reflexivity. Defined.

Lemma one_cycle_files_unit_err f : f ∈ one_cycle_files -> err f = fconst 1.
Proof.
  unfold one_cycle_files. intros H.
  apply list_elem_of_bind in H as (a & H & _).
  apply list_elem_of_bind in H as (c & H & _).
  by apply list_elem_of_singleton in H as ->.
Qed.

Lemma two_cycles_fs_unit_err name f :
  two_cycles_fs !! name = Some f -> err f = fconst 1.
Proof.
  intros H. apply elem_of_list_to_map_2, elem_of_zip_r in H.
  apply elem_of_app in H as [H|H]; by apply one_cycle_files_unit_err.
Qed.

(** ** The Mueller-matrix correction *)

Lemma sum_sqr_nonneg (u v : R) : (0 <= u * u + v * v)%R.
Proof. nra. Qed.

Lemma residual2_nonneg m x b : (0 <= residual2 m x b)%R.
Proof.
  destruct m as [[a b'] [c d]], x as [x1 x2], b as [b1 b2].
  unfold residual2. simpl. apply sum_sqr_nonneg.
Qed.

Lemma exact_is_lstsq m b x : mulv m x = b -> is_lstsq m b x.
Proof.
  intros Hx y. pose proof (residual2_nonneg m y b).
  unfold residual2 at 1. rewrite Hx. destruct b as [b1 b2].
  replace ((b1 - b1) * (b1 - b1) + (b2 - b2) * (b2 - b2))%R with 0%R by ring.
  exact H.
Qed.

(** A solution of the normal equations is a least-squares solution. *)
Lemma normal_equations_lstsq a b c d b1 b2 x1 x2 :
  (a * (a * x1 + b * x2 - b1) + c * (c * x1 + d * x2 - b2) = 0)%R ->
  (b * (a * x1 + b * x2 - b1) + d * (c * x1 + d * x2 - b2) = 0)%R ->
  is_lstsq ((a, b), (c, d)) (b1, b2) (x1, x2).
Proof.
  intros H1 H2 [y1 y2]. unfold residual2. simpl.
  assert (Hid :
    ((a * y1 + b * y2 - b1) * (a * y1 + b * y2 - b1)
     + (c * y1 + d * y2 - b2) * (c * y1 + d * y2 - b2)
     = (a * x1 + b * x2 - b1) * (a * x1 + b * x2 - b1)
       + (c * x1 + d * x2 - b2) * (c * x1 + d * x2 - b2)
       + ((a * (y1 - x1) + b * (y2 - x2)) * (a * (y1 - x1) + b * (y2 - x2))
          + (c * (y1 - x1) + d * (y2 - x2)) * (c * (y1 - x1) + d * (y2 - x2)))
       + 2 * ((y1 - x1) * (a * (a * x1 + b * x2 - b1) + c * (c * x1 + d * x2 - b2))
              + (y2 - x2) * (b * (a * x1 + b * x2 - b1) + d * (c * x1 + d * x2 - b2))))%R)
    by ring.
  rewrite Hid, H1, H2.
  pose proof (sum_sqr_nonneg (a * (y1 - x1) + b * (y2 - x2))
                             (c * (y1 - x1) + d * (y2 - x2))).
  lra.
Qed.

Lemma lstsq2_regular m b : det m <> 0%R -> mulv m (lstsq2 m b) = b.
Proof.
  destruct m as [[a b'] [c d]], b as [b1 b2]. intros Hdet.
  unfold lstsq2. destruct (Req_dec_T _ _) as [H0|_]; [done|].
  simpl in *. f_equal; field; exact Hdet.
Qed.

Lemma lstsq2_is_lstsq m b : is_lstsq m b (lstsq2 m b).
Proof.
  destruct (Req_dec_T (det m) 0) as [Hdet|Hdet].
  2: { apply exact_is_lstsq. by apply lstsq2_regular. }
  destruct m as [[a b'] [c d]], b as [b1 b2].
  unfold lstsq2. destruct (Req_dec_T _ _) as [_|]; [|done].
  destruct (Req_dec_T _ _) as [HN|HN]; simpl in *.
  - assert (a = 0 /\ b' = 0 /\ c = 0 /\ d = 0)%R as (-> & -> & -> & ->)
      by (repeat split; nra).
    intros [y1 y2]. unfold residual2. simpl. lra.
  - set (N := (a * a + b' * b' + c * c + d * d)%R) in *.
    set (x1 := ((a * b1 + c * b2) / N)%R). set (x2 := ((b' * b1 + d * b2) / N)%R).
    assert (Hx1 : (N * x1 = a * b1 + c * b2)%R) by (unfold x1; field; exact HN).
    assert (Hx2 : (N * x2 = b' * b1 + d * b2)%R) by (unfold x2; field; exact HN).
    clearbody x1 x2.
    assert (HNdef : (N = a * a + b' * b' + c * c + d * d)%R) by reflexivity.
    clearbody N.
    apply normal_equations_lstsq.
    + apply (Rmult_eq_reg_l N); [|exact HN]. rewrite Rmult_0_r. nsatz.
    + apply (Rmult_eq_reg_l N); [|exact HN]. rewrite Rmult_0_r. nsatz.
Qed.

(** What the correction block computes: first-order IP removal, the two
    error maps, and per pixel a least-squares solution of the system whose
    matrix is the transpose of [[mQ1, mQ2], [mU1, mU2]]. *)
Lemma mm_correct_transposed_system I Q U I_err q0 q1 q2 rq u0 u1 u2 ru :
  exists Q2 U2 Q_err U_err,
    make_stokes_image_mm_correct I Q U I_err
      (q0 :: q1 :: q2 :: rq) (u0 :: u1 :: u2 :: ru)
    = Ok ((I, Q2, U2), (I_err, Q_err, U_err))
    /\ forall p,
        Q_err p = hypot (I_err p) (q0 * I_err p)
        /\ U_err p = hypot (I_err p) (u0 * I_err p)
        /\ is_lstsq (transpose (crosstalk_matrix q1 q2 u1 u2))
             ((Q p - q0 * I p)%R, (U p - u0 * I p)%R) (Q2 p, U2 p).
Proof.
  eexists _, _, _, _. split; [reflexivity|].
  intros p. split; [reflexivity|]. split; [reflexivity|].
  simpl. rewrite <- surjective_pairing. apply lstsq2_is_lstsq.
Qed.

(** C3: with rows [mQ = [0, 1, 1, 0]], [mU = [0, 0, 1, 0]] and the planes
    [Q = 1], [U = 0], the block returns [Q'' = 1], [U'' = -1].  For the
    matrix [M = [[1, 1], [0, 1]]] of the two rows the system
    [M [Q''; U''] = [1; 0]] has the exact solution [(1, 0)], and [(1, -1)] is
    not a least-squares solution of it: the code solves with the transpose
    of [M]. *)
Theorem mm_correct_crosstalk_transposed :
  exists Q2 U2 Q_err U_err,
    make_stokes_image_mm_correct (fconst 1) (fconst 1) (fconst 0) (fconst 0)
      [0; 1; 1; 0]%R [0; 0; 1; 0]%R
    = Ok ((fconst 1, Q2, U2), (fconst 0, Q_err, U_err))
    /\ forall p,
        Q2 p = 1%R /\ U2 p = (-1)%R
        /\ mulv (crosstalk_matrix 1 1 0 1) (1%R, 0%R) = (1%R, 0%R)
        /\ ~ is_lstsq (crosstalk_matrix 1 1 0 1) (1%R, 0%R) (Q2 p, U2 p)
        /\ is_lstsq (transpose (crosstalk_matrix 1 1 0 1)) (1%R, 0%R) (Q2 p, U2 p).
Proof.
  eexists _, _, _, _. split; [reflexivity|].
  intros p. cbv beta.
  unfold fsub, fscale, fconst, crosstalk_matrix, transpose, lstsq2, det.
  destruct (Req_dec_T (1 * 1 - 0 * 1) 0) as [H|_]; [lra|]. cbn [fst snd].
  set (x1 := ((1 * (1 - 0 * 1) - 0 * (0 - 0 * 1)) / (1 * 1 - 0 * 1))%R).
  set (x2 := ((1 * (0 - 0 * 1) - 1 * (1 - 0 * 1)) / (1 * 1 - 0 * 1))%R).
  assert (Hx1 : x1 = 1%R) by (unfold x1; field; lra).
  assert (Hx2 : x2 = (-1)%R) by (unfold x2; field; lra).
  rewrite Hx1, Hx2. clear x1 x2 Hx1 Hx2.
  split; [reflexivity|]. split; [reflexivity|].
  split; [unfold mulv; f_equal; ring|].
  split.
  - intros Hls. specialize (Hls (1%R, 0%R)).
    unfold residual2, mulv in Hls. lra.
  - apply exact_is_lstsq. unfold mulv. f_equal; ring.
Qed.

(** ** Radial Stokes parameters and derived products *)

Lemma one_plus_sqr_pos (t : R) : (0 < 1 + t²)%R.
Proof. unfold Rsqr. nra. Qed.

Lemma hypot_pos_x x y : (0 < x)%R -> hypot x y = (x * sqrt (1 + (y / x)²))%R.
Proof.
  intros Hx. unfold hypot.
  replace (x * x + y * y)%R with ((x * x) * (1 + (y / x)²))%R
    by (unfold Rsqr; field; lra).
  rewrite sqrt_mult_alt by nra. rewrite sqrt_square by lra. reflexivity.
Qed.

Lemma hypot_neg_x x y : (x < 0)%R -> hypot x y = (- x * sqrt (1 + (y / x)²))%R.
Proof.
  intros Hx. unfold hypot.
  replace (x * x + y * y)%R with ((- x * - x) * (1 + (y / x)²))%R
    by (unfold Rsqr; field; lra).
  rewrite sqrt_mult_alt by nra. rewrite sqrt_square by lra. reflexivity.
Qed.

Lemma hypot_0_l y : hypot 0 y = Rabs y.
Proof.
  unfold hypot. replace (0 * 0 + y * y)%R with (Rsqr y) by (unfold Rsqr; ring).
  apply sqrt_Rsqr_abs.
Qed.

(** [arctan2 y x] is the polar angle of [(x, y)]: with the modulus
    [hypot x y] it gives back both coordinates. *)
Lemma arctan2_polar x y :
  (hypot x y * cos (arctan2 y x) = x)%R /\ (hypot x y * sin (arctan2 y x) = y)%R.
Proof.
  unfold arctan2.
  pose proof (one_plus_sqr_pos (y / x)) as Hpos.
  pose proof (sqrt_lt_R0 _ Hpos) as Hs.
  destruct (Rlt_dec 0 x) as [Hx|Hx].
  - rewrite cos_atan, sin_atan, hypot_pos_x by done. split; field; lra.
  - destruct (Rlt_dec x 0) as [Hx'|Hx'].
    + rewrite hypot_neg_x by done. destruct (Rle_dec 0 y) as [Hy|Hy].
      * rewrite neg_cos, neg_sin, cos_atan, sin_atan. split; field; lra.
      * unfold Rminus. rewrite cos_plus, sin_plus, cos_neg, sin_neg, cos_PI, sin_PI.
        rewrite cos_atan, sin_atan. split; field; lra.
    + assert (x = 0%R) as -> by lra. rewrite hypot_0_l.
      destruct (Rlt_dec 0 y) as [Hy|Hy].
      * rewrite cos_PI2, sin_PI2, Rabs_right by lra. lra.
      * destruct (Rlt_dec y 0) as [Hy'|Hy'].
        -- rewrite cos_neg, sin_neg, cos_PI2, sin_PI2, Rabs_left by lra. lra.
        -- assert (y = 0%R) as -> by lra. rewrite Rabs_R0. lra.
Qed.

(** C7: the synthesized products of a Stokes frame [(I, Q, U)] with errors,
    at every pixel, with [t] the pixel's azimuth and [a = 2 (t + phi)]. *)
Theorem stokes_products_formulas frame_angles I Q U rest Ie Qe Ue reste phi :
  let cube := I :: Q :: U :: rest in
  let t := frame_angles cube in
  exists Qphi Uphi PI_ AoLP Qphi_err Uphi_err PI_err AoLP_err,
    stokes_products frame_angles cube (Ie :: Qe :: Ue :: reste) phi
    = Ok ([I; Q; U; Qphi; Uphi; PI_; AoLP],
          [Ie; Qe; Ue; Qphi_err; Uphi_err; PI_err; AoLP_err])
    /\ forall p,
        let a := (2 * (t p + phi))%R in
        Qphi p = (- Q p * cos a - U p * sin a)%R
        /\ Uphi p = (Q p * sin a - U p * cos a)%R
        /\ PI_ p = hypot (Q p) (U p)
        /\ AoLP p = arctan2 (U p) (Q p)
        /\ (PI_ p * cos (AoLP p) = Q p /\ PI_ p * sin (AoLP p) = U p)%R
        /\ PI_err p = (hypot (Q p * Qe p) (U p * Ue p) / Rabs (PI_ p))%R
        /\ AoLP_err p = (hypot (Q p * Ue p) (U p * Qe p) / (PI_ p) ^ 2)%R
        /\ Qphi_err p = hypot (cos a * Qe p) (sin a * Ue p)
        /\ Uphi_err p = hypot (sin a * Qe p) (cos a * Ue p).
Proof.
  intros cube t. eexists _, _, _, _, _, _, _, _. split; [reflexivity|].
  intros p a. unfold fmap2, fmap, fmul, fsub, fneg, fdiv, fscale, fadd, fconst.
  fold cube. fold t. fold a.
  split; [ring|]. split; [ring|].
  split; [apply hypot_comm|]. split; [reflexivity|].
  split.
  { rewrite (hypot_comm (U p) (Q p)). apply arctan2_polar. }
  split; [by rewrite (hypot_comm (U p * Ue p)), (hypot_comm (U p) (Q p))|].
  split; [by rewrite (hypot_comm (U p) (Q p))|].
  split; reflexivity.
Qed.

(** C8, as the code has it: radial Stokes with offset [phi] followed by the
    Stokes rotation by the per-pixel angle [t + phi - pi/2] ([t] the pixel's
    azimuth) gives back [Q] and [U] at every pixel; followed by the
    rotation by the constant [-phi] it gives the radial Stokes pair of
    offset [2 phi]. *)
Theorem radial_then_rotate frame_angles I Q U rest phi :
  let cube := I :: Q :: U :: rest in
  let t := frame_angles cube in
  exists Qphi Uphi eQ eU,
    radial_stokes frame_angles cube None phi = Ok (Qphi, Uphi, eQ, eU)
    /\ (exists Q' U',
          rotate_stokes (I :: Qphi :: Uphi :: rest)
            (fun p => (t p + phi - PI / 2)%R)
          = Ok (I :: Q' :: U' :: rest)
          /\ Q' =f Q /\ U' =f U)
    /\ (exists Q' U',
          rotate_stokes (I :: Qphi :: Uphi :: rest) (fconst (- phi))
          = Ok (I :: Q' :: U' :: rest)
          /\ forall p,
              Q' p = (- Q p * cos (2 * (t p + 2 * phi))
                      - U p * sin (2 * (t p + 2 * phi)))%R
              /\ U' p = (Q p * sin (2 * (t p + 2 * phi))
                         - U p * cos (2 * (t p + 2 * phi)))%R).
Proof.
  intros cube t. eexists _, _, _, _. split; [reflexivity|]. split.
  - eexists _, _. split; [reflexivity|].
    split; intros p;
      unfold fmap, fmul, fsub, fneg, fscale, fadd, fconst; fold cube; fold t;
      replace (2 * (t p + phi - PI / 2))%R with (2 * (t p + phi) - PI)%R by lra;
      rewrite cos_minus, sin_minus, cos_PI, sin_PI;
      pose proof (sin2_cos2 (2 * (t p + phi))) as Hsc; unfold Rsqr in Hsc;
      set (c := cos (2 * (t p + phi))) in *; set (s := sin (2 * (t p + phi))) in *.
    + transitivity (Q p * (s * s + c * c))%R; [ring|rewrite Hsc; ring].
    + transitivity (U p * (s * s + c * c))%R; [ring|rewrite Hsc; ring].
  - eexists _, _. split; [reflexivity|].
    intros p. unfold fmap, fmul, fsub, fneg, fscale, fadd, fconst. fold cube. fold t.
    replace (2 * (t p + 2 * phi))%R with (2 * (t p + phi) + 2 * phi)%R by lra.
    replace (2 * - phi)%R with (- (2 * phi))%R by lra.
    rewrite cos_plus, sin_plus, cos_neg, sin_neg. split; ring.
Qed.

(** The round trip with the constant rotation [-phi] fails already for
    [phi = 0], [Q = 1], [U = 0] and azimuth 0: it returns [Q' = -1]. *)
Lemma radial_round_trip_fails : ~ radial_round_trip.
Proof.
  intros H.
  destruct (H (fun _ => fconst 0) (fconst 0) (fconst 1) (fconst 0) 0%R)
    as (Qphi & Uphi & eQ & eU & Q' & U' & Hrad & Hrot & HQ & _).
  injection Hrad as <- <- _ _. injection Hrot as <- _.
  specialize (HQ []).
  unfold fmap, fmul, fsub, fneg, fscale, fadd, fconst in HQ.
  replace (2 * - 0)%R with 0%R in HQ by lra.
  replace (2 * (0 + 0))%R with 0%R in HQ by lra.
  rewrite cos_0, sin_0 in HQ. lra.
Qed.

(** ** Arrays as shared objects *)

Lemma getplane_Some h a ps i v :
  planes_of h a = Ok ps -> ps !! i = Some v -> getplane h a i = Ok v.
Proof. intros Hps Hi. unfold getplane. rewrite Hps. simpl. unfold index. by rewrite Hi. Qed.

(** [instpol_correct] allocates: the result is a new buffer, and every
    buffer of the store it was given is as before. *)
Lemma instpol_correct_fresh h a c0 c1 c2 more pQ pU :
  planes_of h a = Ok (c0 :: c1 :: c2 :: more) ->
  exists new,
    instpol_correct h a pQ pU
    = Ok (<[new := Arr [c0; (c1 - pQ *: c0)%fr; (c2 - pU *: c0)%fr]]> h, whole new)
    /\ new ∉ dom h.
Proof.
  intros Hps. exists (fresh (dom h)). split; [|apply is_fresh].
  unfold instpol_correct.
  rewrite (getplane_Some _ _ _ 0 c0 Hps), (getplane_Some _ _ _ 1 c1 Hps),
    (getplane_Some _ _ _ 2 c2 Hps) by done.
  reflexivity.
Qed.

Lemma planes_of_whole h l ps : h !! l = Some (Arr ps) -> planes_of h (whole l) = Ok ps.
Proof. intros H. unfold planes_of. simpl. by rewrite H. Qed.

Lemma planes_of_slice h l ps n :
  h !! l = Some (Arr ps) -> planes_of h (slice_upto (whole l) n) = Ok (take n ps).
Proof. intros H. unfold planes_of. simpl. by rewrite H. Qed.

Lemma measure_bound mi ma h l I Q U rest phot_rad method :
  h !! l = Some (Arr (I :: Q :: U :: rest)) ->
  method = "aperture"%string \/ method = "annulus"%string ->
  exists cQ cU, measure mi ma h (whole l) phot_rad method = Ok (Some (cQ, cU)).
Proof.
  intros Harr Hm. pose proof (planes_of_whole _ _ _ Harr) as Hps.
  unfold measure.
  rewrite (getplane_Some _ _ _ 0 I Hps), (getplane_Some _ _ _ 1 Q Hps),
    (getplane_Some _ _ _ 2 U Hps) by done.
  destruct Hm as [-> | ->].
  - rewrite decide_True by done. by eexists _, _.
  - rewrite decide_False by done. rewrite decide_True by done. by eexists _, _.
Qed.

Lemma set_card_other h hdr key v comment h' l ps :
  set_card h hdr key v comment = Ok h' ->
  h !! l = Some (Arr ps) -> h' !! l = Some (Arr ps).
Proof.
  unfold set_card. destruct (h !! hdr) as [[|cards]|] eqn:Hh; try done.
  intros [= <-] Hl. rewrite lookup_insert_ne; [done|]. congruence.
Qed.

Lemma set_card_Ok h hdr key v comment cards :
  h !! hdr = Some (Hdr cards) ->
  exists h', set_card h hdr key v comment = Ok h'
             /\ h' !! hdr = Some (Hdr (<[key := (v, comment)]> cards)).
Proof.
  intros Hh. unfold set_card. rewrite Hh. eexists. split; [done|].
  apply lookup_insert_eq.
Qed.

(** C10: [instpol_correct] returns a new array whose first plane is the
    input [I] and leaves every array of the store as it was, its argument
    included; [polarization_ip_correct] writes the corrected planes into the
    buffer of the array it was given and returns that same array. *)
Theorem ip_correct_in_place
    (measure_instpol : Frame -> Frame -> R -> R)
    (measure_instpol_ann : Frame -> Frame -> R -> R -> R)
    (h : heap) (l : loc) (I Q U : Frame) (rest : list Frame)
    (phot_rad : R * R) (method : string) (header : option loc) (pQ pU : R)
    (Harr : h !! l = Some (Arr (I :: Q :: U :: rest)))
    (Hmethod : method = "aperture"%string \/ method = "annulus"%string)
    (Hheader : forall hdr, header = Some hdr -> exists cards, h !! hdr = Some (Hdr cards)) :
  (exists h1 new,
      instpol_correct h (slice_upto (whole l) 3) pQ pU = Ok (h1, new)
      /\ (buffer new ∉ dom h)
      /\ (forall l', l' ∈ dom h -> h1 !! l' = h !! l')
      /\ h1 !! l = Some (Arr (I :: Q :: U :: rest))
      /\ h1 !! buffer new = Some (Arr [I; (Q - pQ *: I)%fr; (U - pU *: I)%fr]))
  /\ (exists h2 cQ cU,
      polarization_ip_correct measure_instpol measure_instpol_ann
        h (whole l) phot_rad method header
      = Ok (h2, (whole l, header))
      /\ measure measure_instpol measure_instpol_ann h (whole l) phot_rad method
         = Ok (Some (cQ, cU))
      /\ h2 !! l = Some (Arr (I :: (Q - cQ *: I)%fr :: (U - cU *: I)%fr :: rest))).
Proof.
  pose proof (planes_of_slice _ _ _ 3 Harr) as Hview. simpl in Hview.
  split.
  - destruct (instpol_correct_fresh _ _ _ _ _ _ pQ pU Hview) as (new & Hrun & Hnew).
    eexists _, _. split; [exact Hrun|]. cbn [buffer whole].
    split; [done|]. split; [|split].
    + intros l' Hl'. apply lookup_insert_ne. intros ->. done.
    + rewrite lookup_insert_ne; [done|]. intros ->.
      apply Hnew, elem_of_dom. by eexists.
    + apply lookup_insert_eq.
  - destruct (measure_bound measure_instpol measure_instpol_ann
                _ _ _ _ _ _ phot_rad method Harr Hmethod) as (cQ & cU & Hmeas).
    destruct (instpol_correct_fresh _ _ _ _ _ _ cQ cU Hview) as (new & Hrun & Hnew).
    assert (Hne : new <> l).
    { intros ->. apply Hnew, elem_of_dom. by eexists. }
    set (values := [I; (Q - cQ *: I)%fr; (U - cU *: I)%fr]).
    set (h1 := <[new := Arr values]> h) in *.
    assert (Hl1 : h1 !! l = Some (Arr (I :: Q :: U :: rest)))
      by (unfold h1; by rewrite lookup_insert_ne).
    set (h2 := <[l := Arr (values ++ rest)]> h1).
    assert (Hassign : assign_slice h1 (whole l) 3 values = Ok h2).
    { unfold assign_slice. rewrite (planes_of_slice _ _ _ 3 Hl1). simpl.
      rewrite Hl1. done. }
    assert (Hvalues : planes_of h1 (whole new) = Ok values).
    { apply planes_of_whole. unfold h1. apply lookup_insert_eq. }
    assert (Hl2 : h2 !! l = Some (Arr (values ++ rest)))
      by (unfold h2; apply lookup_insert_eq).
    unfold polarization_ip_correct. rewrite Hmeas. simpl.
    rewrite Hrun. simpl. fold values. fold h1. rewrite Hvalues. simpl.
    rewrite Hassign. simpl.
    destruct header as [hdr|].
    + destruct (Hheader hdr eq_refl) as [cards Hcards].
      assert (Hhdr2 : h2 !! hdr = Some (Hdr cards)).
      { unfold h2, h1. rewrite !lookup_insert_ne; [done| |].
        - intros ->. apply Hnew, elem_of_dom. by eexists.
        - intros ->. congruence. }
      destruct (set_card_Ok h2 hdr "IP_FQ" cQ "I -> Q IP correction value" _ Hhdr2)
        as (h3 & Hset3 & Hh3).
      destruct (set_card_Ok h3 hdr "IP_FU" cU "I -> U IP correction value" _ Hh3)
        as (h4 & Hset4 & Hh4).
      rewrite Hset3. simpl. rewrite Hset4. simpl.
      exists h4, cQ, cU. split; [done|]. split; [done|].
      eapply set_card_other; [exact Hset4|].
      eapply set_card_other; [exact Hset3|]. exact Hl2.
    + exists h2, cQ, cU. done.
Qed.

Lemma ip_correct_in_place_witness :
  (exists h1 new,
      instpol_correct one_array_heap (slice_upto (whole 1%positive) 3) 0 0 = Ok (h1, new)
      /\ (buffer new ∉ dom one_array_heap)
      /\ (forall l', l' ∈ dom one_array_heap -> h1 !! l' = one_array_heap !! l')
      /\ h1 !! 1%positive = Some (Arr [fconst 1; fconst 2; fconst 3])
      /\ h1 !! buffer new
         = Some (Arr [fconst 1; (fconst 2 - 0 *: fconst 1)%fr;
                      (fconst 3 - 0 *: fconst 1)%fr]))
  /\ (exists h2 cQ cU,
      polarization_ip_correct (fun _ _ _ => 1%R) (fun _ _ _ _ => 1%R)
        one_array_heap (whole 1%positive) (8%R, 8%R) "aperture" None
      = Ok (h2, (whole 1%positive, None))
      /\ measure (fun _ _ _ => 1%R) (fun _ _ _ _ => 1%R)
           one_array_heap (whole 1%positive) (8%R, 8%R) "aperture"
         = Ok (Some (cQ, cU))
      /\ h2 !! 1%positive
         = Some (Arr [fconst 1; (fconst 2 - cQ *: fconst 1)%fr;
                      (fconst 3 - cU *: fconst 1)%fr])).
Proof.
  apply (ip_correct_in_place (fun _ _ _ => 1%R) (fun _ _ _ _ => 1%R)
           one_array_heap 1%positive (fconst 1) (fconst 2) (fconst 3) []
           (8%R, 8%R) "aperture" None 0 0).
  - reflexivity.
  - left. reflexivity.
  - intros hdr Hhdr. discriminate Hhdr.
Defined.

(** * Further properties of the combiner *)

Lemma doubled_key_in a c :
  a ∈ [0; 45; 22.5; 67.5]%Q -> c ∈ [1; 2]%Z -> key2 a c ∈ DOUBLEDIFF_SETS.
Proof.
  intros Ha Hc. apply elem_of_list_to_set. unfold doubled_keys.
  apply list_elem_of_bind. exists a. split; [|done].
  apply list_elem_of_bind. exists c. split; [|done].
  apply list_elem_of_singleton. done.
Qed.

Lemma tripled_keys_cases (P : pyobj -> Prop) :
  (forall a s c,
      a ∈ [0; 45; 22.5; 67.5]%Q -> s ∈ ["A"; "B"]%string -> c ∈ [1; 2]%Z ->
      P (key3 a s c)) ->
  forall k, k ∈ TRIPLEDIFF_SETS -> P k.
Proof.
  intros HP k Hk. apply elem_of_list_to_set in Hk. unfold tripled_keys in Hk.
  apply list_elem_of_bind in Hk as (a & Hk & Ha).
  apply list_elem_of_bind in Hk as (s & Hk & Hs).
  apply list_elem_of_bind in Hk as (c & Hk & Hc).
  apply list_elem_of_singleton in Hk as ->. by apply HP.
Qed.

Lemma doubled_keys_cases (P : pyobj -> Prop) :
  (forall a c, a ∈ [0; 45; 22.5; 67.5]%Q -> c ∈ [1; 2]%Z -> P (key2 a c)) ->
  forall k, k ∈ DOUBLEDIFF_SETS -> P k.
Proof.
  intros HP k Hk. apply elem_of_list_to_set in Hk. unfold doubled_keys in Hk.
  apply list_elem_of_bind in Hk as (a & Hk & Ha).
  apply list_elem_of_bind in Hk as (c & Hk & Hc).
  apply list_elem_of_singleton in Hk as ->. by apply HP.
Qed.

Ltac missing_key d key_in :=
  repeat match goal with
    | |- context [d !! ?k] =>
        let H := fresh "Hk" in
        destruct (d !! k) eqn:H; simpl;
        [| split;
           [ intros e [= <-]; exists k; split;
             [ apply key_in; set_solver
             | split; [exact H | reflexivity] ]
           | intros [? [=]] ] ]
    end.

Lemma triple_diff_dict_cases (d : gmap pyobj Frame) :
  (forall e, triple_diff_dict d = Raise e ->
     exists k, k ∈ TRIPLEDIFF_SETS /\ d !! k = None /\ e = KeyError k)
  /\ (is_Ok (triple_diff_dict d) ->
      forall k, k ∈ TRIPLEDIFF_SETS -> is_Some (d !! k)).
Proof.
  unfold triple_diff_dict, half_diff, half_sum, getitem.
  missing_key d tripled_key_in.
  split; [intros e [=]|]. intros _.
  apply tripled_keys_cases. intros a s c Ha Hs Hc.
  repeat match goal with
    | H : _ ∈ _ :: _ |- _ => apply elem_of_cons in H as [-> | H]
    | H : _ ∈ [] |- _ => by apply elem_of_nil in H
    end; by eexists.
Qed.

(** [triple_diff_dict] returns exactly on the dictionaries that have all
    sixteen keys; on any other it raises [KeyError] for a key of the
    keyspace that is missing. *)
Theorem triple_diff_dict_complete_iff (d : gmap pyobj Frame) :
  (is_Ok (triple_diff_dict d) <-> forall k, k ∈ TRIPLEDIFF_SETS -> is_Some (d !! k))
  /\ (forall e, triple_diff_dict d = Raise e ->
        exists k, k ∈ TRIPLEDIFF_SETS /\ d !! k = None /\ e = KeyError k).
Proof.
  destruct (triple_diff_dict_cases d) as [Hraise Hok].
  split; [|exact Hraise]. split; [exact Hok|].
  intros Hall.
  exists (Spec42.Is (fun k => default (fconst 0) (d !! k)),
          Spec42.Qs (fun k => default (fconst 0) (d !! k)),
          Spec42.Us (fun k => default (fconst 0) (d !! k))).
  apply triple_diff_dict_total. intros a s c Ha Hs Hc.
  destruct (Hall (key3 a s c)) as [v Hv]; [by apply tripled_key_in|].
  by rewrite Hv.
Qed.

Lemma double_diff_dict_total (d : gmap pyobj Frame) (F : pyobj -> Frame) :
  (forall a c, a ∈ [0; 45; 22.5; 67.5]%Q -> c ∈ [1; 2]%Z ->
               d !! key2 a c = Some (F (key2 a c))) ->
  double_diff_dict d = Ok (DoubleTree.Is F, DoubleTree.Qs F, DoubleTree.Us F).
Proof.
  intros Hd. unfold double_diff_dict.
  repeat first
    [ erewrite half_diff_Some by (apply Hd; set_solver)
    | erewrite half_sum_Some by (apply Hd; set_solver) ].
  reflexivity.
Qed.

(** [double_diff_dict] returns exactly on the dictionaries that have all
    eight keys, and raises [KeyError] for a missing key of the keyspace on
    the others. *)
Theorem double_diff_dict_complete_iff (d : gmap pyobj Frame) :
  (is_Ok (double_diff_dict d) <-> forall k, k ∈ DOUBLEDIFF_SETS -> is_Some (d !! k))
  /\ (forall e, double_diff_dict d = Raise e ->
        exists k, k ∈ DOUBLEDIFF_SETS /\ d !! k = None /\ e = KeyError k).
Proof.
  assert ((forall e, double_diff_dict d = Raise e ->
             exists k, k ∈ DOUBLEDIFF_SETS /\ d !! k = None /\ e = KeyError k)
          /\ (is_Ok (double_diff_dict d) ->
              forall k, k ∈ DOUBLEDIFF_SETS -> is_Some (d !! k))) as [Hraise Hok].
  { unfold double_diff_dict, half_diff, half_sum, getitem.
    missing_key d doubled_key_in.
    split; [intros e [=]|]. intros _.
    apply doubled_keys_cases. intros a c Ha Hc.
    repeat match goal with
      | H : _ ∈ _ :: _ |- _ => apply elem_of_cons in H as [-> | H]
      | H : _ ∈ [] |- _ => by apply elem_of_nil in H
      end; by eexists. }
  split; [|exact Hraise]. split; [exact Hok|].
  intros Hall.
  exists (DoubleTree.Is (fun k => default (fconst 0) (d !! k)),
          DoubleTree.Qs (fun k => default (fconst 0) (d !! k)),
          DoubleTree.Us (fun k => default (fconst 0) (d !! k))).
  apply double_diff_dict_total. intros a c Ha Hc.
  destruct (Hall (key2 a c)) as [v Hv]; [by apply doubled_key_in|].
  by rewrite Hv.
Qed.

Ltac unfold_trees :=
  unfold Spec42.Qs, Spec42.Us, Spec42.Is, Spec42.IQ, Spec42.IU,
    Spec42.Q0, Spec42.Q1, Spec42.U0, Spec42.U1,
    Spec42.IQ0, Spec42.IQ1, Spec42.IU0, Spec42.IU1,
    Spec42.pD, Spec42.mD, Spec42.pS, Spec42.mS,
    DoubleTree.Qs, DoubleTree.Us, DoubleTree.Is, DoubleTree.IQ, DoubleTree.IU,
    DoubleTree.D, DoubleTree.S, fscale, fsub, fadd, fconst in *.

(** On a complete eight-key set, [double_diff_dict] gives, at every pixel,
    [Q] as a quarter of the signed sum of the four frames at angles 0 and
    45, [U] likewise at 22.5 and 67.5, and [I] as the plain mean of the
    eight frames. *)
Theorem double_diff_dict_closed_form (d : gmap pyobj Frame) (F : pyobj -> Frame)
  (Hd : forall k, k ∈ DOUBLEDIFF_SETS -> d !! k = Some (F k)) :
  exists I Q U,
    double_diff_dict d = Ok (I, Q, U)
    /\ forall p,
        Q p = ((F (key2 0 1) p - F (key2 0 2) p
                - F (key2 45 1) p + F (key2 45 2) p) / 4)%R
        /\ U p = ((F (key2 22.5 1) p - F (key2 22.5 2) p
                   - F (key2 67.5 1) p + F (key2 67.5 2) p) / 4)%R
        /\ I p = ((F (key2 0 1) p + F (key2 0 2) p
                   + F (key2 45 1) p + F (key2 45 2) p
                   + F (key2 22.5 1) p + F (key2 22.5 2) p
                   + F (key2 67.5 1) p + F (key2 67.5 2) p) / 8)%R.
Proof.
  eexists _, _, _. split.
  - apply double_diff_dict_total. intros a c Ha Hc. apply Hd. by apply doubled_key_in.
  - intros p. unfold_trees. repeat split; lra.
Qed.

Lemma double_diff_dict_closed_form_witness :
  exists I Q U,
    double_diff_dict (gset_to_gmap (fconst 1) DOUBLEDIFF_SETS) = Ok (I, Q, U)
    /\ forall p,
        Q p = ((fconst 1 p - fconst 1 p - fconst 1 p + fconst 1 p) / 4)%R
        /\ U p = ((fconst 1 p - fconst 1 p - fconst 1 p + fconst 1 p) / 4)%R
        /\ I p = ((fconst 1 p + fconst 1 p + fconst 1 p + fconst 1 p
                   + fconst 1 p + fconst 1 p + fconst 1 p + fconst 1 p) / 8)%R.
Proof.
  apply (double_diff_dict_closed_form (gset_to_gmap (fconst 1) DOUBLEDIFF_SETS)
           (fun _ => fconst 1)).
  intros k Hk. rewrite lookup_gset_to_gmap_Some. done.
Defined.

(** [triple_diff_dict] is linear in the frames: on the frames
    [a * F k + G k] it returns [a] times the result on [F] plus the result
    on [G], plane by plane and pixel by pixel. *)
Theorem triple_diff_dict_linear (dF dG dH : gmap pyobj Frame)
    (F G : pyobj -> Frame) (a : R)
  (HF : forall k, k ∈ TRIPLEDIFF_SETS -> dF !! k = Some (F k))
  (HG : forall k, k ∈ TRIPLEDIFF_SETS -> dG !! k = Some (G k))
  (HH : forall k, k ∈ TRIPLEDIFF_SETS -> dH !! k = Some (a *: F k + G k)%fr) :
  exists IF QF UF IG QG UG IH QH UH,
    triple_diff_dict dF = Ok (IF, QF, UF)
    /\ triple_diff_dict dG = Ok (IG, QG, UG)
    /\ triple_diff_dict dH = Ok (IH, QH, UH)
    /\ forall p, IH p = (a * IF p + IG p)%R
                 /\ QH p = (a * QF p + QG p)%R
                 /\ UH p = (a * UF p + UG p)%R.
Proof.
  eexists _, _, _, _, _, _, _, _, _.
  split; [apply (triple_diff_dict_total dF F); intros; apply HF; by apply tripled_key_in|].
  split; [apply (triple_diff_dict_total dG G); intros; apply HG; by apply tripled_key_in|].
  split; [apply (triple_diff_dict_total dH (fun k => (a *: F k + G k)%fr));
          intros; apply HH; by apply tripled_key_in|].
  intros p. unfold_trees. repeat split; lra.
Qed.

Lemma triple_diff_dict_linear_witness :
  exists IF QF UF IG QG UG IH QH UH,
    triple_diff_dict unit_frameset = Ok (IF, QF, UF)
    /\ triple_diff_dict unit_frameset = Ok (IG, QG, UG)
    /\ triple_diff_dict
         (gset_to_gmap (3 *: fconst 1 + fconst 1)%fr TRIPLEDIFF_SETS)
       = Ok (IH, QH, UH)
    /\ forall p, IH p = (3 * IF p + IG p)%R
                 /\ QH p = (3 * QF p + QG p)%R
                 /\ UH p = (3 * UF p + UG p)%R.
Proof.
  apply (triple_diff_dict_linear unit_frameset unit_frameset
           (gset_to_gmap (3 *: fconst 1 + fconst 1)%fr TRIPLEDIFF_SETS)
           (fun _ => fconst 1) (fun _ => fconst 1) 3).
  - apply unit_frameset_lookup.
  - apply unit_frameset_lookup.
  - intros k Hk. rewrite lookup_gset_to_gmap_Some. done.
Defined.

(** A signal common to all sixteen frames cancels in [Q] and [U] and is
    passed on to [I]: adding one array [c] to every frame leaves the two
    polarized planes as they were and adds [c] to the intensity. *)
Theorem triple_diff_dict_common_offset (d d' : gmap pyobj Frame)
    (F : pyobj -> Frame) (c : Frame)
  (Hd : forall k, k ∈ TRIPLEDIFF_SETS -> d !! k = Some (F k))
  (Hd' : forall k, k ∈ TRIPLEDIFF_SETS -> d' !! k = Some (F k + c)%fr) :
  exists I Q U I' Q' U',
    triple_diff_dict d = Ok (I, Q, U)
    /\ triple_diff_dict d' = Ok (I', Q', U')
    /\ forall p, I' p = (I p + c p)%R /\ Q' p = Q p /\ U' p = U p.
Proof.
  eexists _, _, _, _, _, _.
  split; [apply (triple_diff_dict_total d F); intros; apply Hd; by apply tripled_key_in|].
  split; [apply (triple_diff_dict_total d' (fun k => (F k + c)%fr));
          intros; apply Hd'; by apply tripled_key_in|].
  intros p. unfold_trees. repeat split; lra.
Qed.

Lemma triple_diff_dict_common_offset_witness :
  exists I Q U I' Q' U',
    triple_diff_dict unit_frameset = Ok (I, Q, U)
    /\ triple_diff_dict (gset_to_gmap (fconst 1 + fconst 5)%fr TRIPLEDIFF_SETS)
       = Ok (I', Q', U')
    /\ forall p, I' p = (I p + fconst 5 p)%R /\ Q' p = Q p /\ U' p = U p.
Proof.
  apply (triple_diff_dict_common_offset unit_frameset
           (gset_to_gmap (fconst 1 + fconst 5)%fr TRIPLEDIFF_SETS)
           (fun _ => fconst 1) (fconst 5)).
  - apply unit_frameset_lookup.
  - intros k Hk. rewrite lookup_gset_to_gmap_Some. done.
Defined.

(** The triple difference is the double difference taken once more across
    the modulator states: with [dA] and [dB] the two-part-key dictionaries
    of the frames of state A and of state B, [Q] and [U] are the
    half-differences and [I] the half-sum of what [double_diff_dict]
    returns on [dA] and on [dB]. *)
Theorem triple_diff_is_double_diff_of_states (d dA dB : gmap pyobj Frame)
    (F : pyobj -> Frame)
  (Hd : forall k, k ∈ TRIPLEDIFF_SETS -> d !! k = Some (F k))
  (HA : forall a c, a ∈ [0; 45; 22.5; 67.5]%Q -> c ∈ [1; 2]%Z ->
                    dA !! key2 a c = Some (F (key3 a "A" c)))
  (HB : forall a c, a ∈ [0; 45; 22.5; 67.5]%Q -> c ∈ [1; 2]%Z ->
                    dB !! key2 a c = Some (F (key3 a "B" c))) :
  exists I Q U IA QA UA IB QB UB,
    triple_diff_dict d = Ok (I, Q, U)
    /\ double_diff_dict dA = Ok (IA, QA, UA)
    /\ double_diff_dict dB = Ok (IB, QB, UB)
    /\ forall p, I p = (0.5 * (IA p + IB p))%R
                 /\ Q p = (0.5 * (QA p - QB p))%R
                 /\ U p = (0.5 * (UA p - UB p))%R.
Proof.
  set (FA := fun k => match k with
                      | Tuple [a; c] => F (Tuple [a; py_str "A"; c])
                      | _ => fconst 0
                      end).
  set (FB := fun k => match k with
                      | Tuple [a; c] => F (Tuple [a; py_str "B"; c])
                      | _ => fconst 0
                      end).
  eexists _, _, _, _, _, _, _, _, _.
  split; [apply (triple_diff_dict_total d F); intros; apply Hd; by apply tripled_key_in|].
  split; [apply (double_diff_dict_total dA FA); intros; by apply HA|].
  split; [apply (double_diff_dict_total dB FB); intros; by apply HB|].
  intros p. unfold_trees. unfold FA, FB, key2, key3. repeat split; lra.
Qed.

Lemma triple_diff_is_double_diff_of_states_witness :
  exists I Q U IA QA UA IB QB UB,
    triple_diff_dict unit_frameset = Ok (I, Q, U)
    /\ double_diff_dict (gset_to_gmap (fconst 1) DOUBLEDIFF_SETS) = Ok (IA, QA, UA)
    /\ double_diff_dict (gset_to_gmap (fconst 1) DOUBLEDIFF_SETS) = Ok (IB, QB, UB)
    /\ forall p, I p = (0.5 * (IA p + IB p))%R
                 /\ Q p = (0.5 * (QA p - QB p))%R
                 /\ U p = (0.5 * (UA p - UB p))%R.
Proof.
  apply (triple_diff_is_double_diff_of_states unit_frameset
           (gset_to_gmap (fconst 1) DOUBLEDIFF_SETS)
           (gset_to_gmap (fconst 1) DOUBLEDIFF_SETS) (fun _ => fconst 1)).
  - apply unit_frameset_lookup.
  - intros a c Ha Hc. rewrite lookup_gset_to_gmap_Some.
    split; [by apply doubled_key_in|done].
  - intros a c Ha Hc. rewrite lookup_gset_to_gmap_Some.
    split; [by apply doubled_key_in|done].
Defined.

Lemma index_window {A} (l w : list A) ix j v :
  take (length w) (drop ix l) = w -> w !! j = Some v -> index l (ix + j) = Ok v.
Proof.
  intros Hw Hj. unfold index.
  assert (l !! (ix + j)%nat = Some v) as ->; [|done].
  rewrite <- lookup_drop. rewrite <- Hw in Hj.
  apply lookup_take_Some in Hj as [Hj _]. exact Hj.
Qed.

(** The legacy combiner and the dictionary combiner differ by the factor
    two in every plane.  When the sixteen frames of a cycle lie in the cube
    in the order of the keys - retarder angle 0, 45, 22.5, 67.5, then state
    A, B, then camera 1, 2 - the cycle body of the legacy
    [polarization_calibration_triplediff] returns twice the [I], [Q] and [U]
    that [triple_diff_dict] returns on the same frames. *)
Theorem legacy_is_twice_triple_diff_dict (image_cube : list Frame) (ix : nat)
    (d : gmap pyobj Frame) (F : pyobj -> Frame)
  (Hcube : take 16 (drop ix image_cube) = F <$> tripled_keys)
  (Hd : forall k, k ∈ TRIPLEDIFF_SETS -> d !! k = Some (F k)) :
  exists I Q U I' Q' U',
    triple_diff_dict d = Ok (I, Q, U)
    /\ legacy_triplediff_cycle image_cube ix = Ok (I', Q', U')
    /\ forall p, I' p = (2 * I p)%R /\ Q' p = (2 * Q p)%R /\ U' p = (2 * U p)%R.
Proof.
  eexists _, _, _, _, _, _.
  split; [apply (triple_diff_dict_total d F); intros; apply Hd; by apply tripled_key_in|].
  assert (Hat : forall j v, (F <$> tripled_keys) !! j = Some v ->
                            index image_cube (ix + j) = Ok v).
  { intros j v Hj. apply (index_window _ (F <$> tripled_keys)); [|done].
    by rewrite length_fmap. }
  split.
  - unfold legacy_triplediff_cycle.
    rewrite (Hat 0%nat _ eq_refl), (Hat 1%nat _ eq_refl), (Hat 2%nat _ eq_refl),
      (Hat 3%nat _ eq_refl), (Hat 4%nat _ eq_refl), (Hat 5%nat _ eq_refl),
      (Hat 6%nat _ eq_refl), (Hat 7%nat _ eq_refl), (Hat 8%nat _ eq_refl),
      (Hat 9%nat _ eq_refl), (Hat 10%nat _ eq_refl), (Hat 11%nat _ eq_refl),
      (Hat 12%nat _ eq_refl), (Hat 13%nat _ eq_refl), (Hat 14%nat _ eq_refl),
      (Hat 15%nat _ eq_refl).
    rewrite Hcube. reflexivity.
  - intros p. unfold_trees. unfold mean_axis0, tripled_keys. simpl.
    repeat split; lra.
Qed.

Lemma legacy_is_twice_triple_diff_dict_witness :
  exists I Q U I' Q' U',
    triple_diff_dict unit_frameset = Ok (I, Q, U)
    /\ legacy_triplediff_cycle (replicate 16 (fconst 1)) 0 = Ok (I', Q', U')
    /\ forall p, I' p = (2 * I p)%R /\ Q' p = (2 * Q p)%R /\ U' p = (2 * U p)%R.
Proof.
  apply (legacy_is_twice_triple_diff_dict (replicate 16 (fconst 1)) 0
           unit_frameset (fun _ => fconst 1)).
  - reflexivity.
  - apply unit_frameset_lookup.
Defined.

(** * Further properties of the matcher *)

Lemma deltatime_self row : (deltatime row row == 0)%Q.
Proof.
  unfold deltatime.
  assert (H : (MJD row - MJD row == 0)%Q) by ring.
  rewrite H. reflexivity.
Qed.

Lemma deltatime_zero row r : (deltatime row r <= 0)%Q -> (MJD r == MJD row)%Q.
Proof.
  unfold deltatime. intros H.
  apply Qabs_Qle_condition in H as [H1 H2]. lra.
Qed.

Lemma candidates3_In table k r :
  r ∈ candidates3 table k <-> r ∈ table /\ Tuple (row_key3 r) = k.
Proof.
  unfold candidates3. rewrite !list_elem_of_In, List.filter_In.
  by rewrite bool_decide_eq_true.
Qed.

(** The anchor keeps its own key whenever no earlier row of the table has
    both its key and its timestamp: the dictionary returned then maps the
    anchor's key to the anchor's path. *)
Theorem matcher_keeps_untied_anchor (pre post : list Row) (row : Row)
    (m : gmap pyobj string)
  (Huntied : forall r, r ∈ pre -> Tuple (row_key3 r) = Tuple (row_key3 row) ->
                       ~ (MJD r == MJD row)%Q)
  (Hrun : get_triplediff_set (pre ++ row :: post) row = Ok m) :
  m !! Tuple (row_key3 row) = Some (path row).
Proof.
  set (k := Tuple (row_key3 row)) in *. set (table := pre ++ row :: post) in *.
  destruct (decide (k ∈ TRIPLEDIFF_SETS)) as [Hk|Hk].
  - destruct (get_triplediff_set_Ok _ _ _ _ Hrun Hk) as (i & r & (Hi & Hle & Hlt) & Hm).
    rewrite Hm. f_equal. f_equal.
    assert (Hc : candidates3 table k
                 = candidates3 pre k ++ row :: candidates3 post k).
    { unfold candidates3, table. rewrite List.filter_app. simpl.
      by rewrite bool_decide_eq_true_2. }
    set (j := length (candidates3 pre k)).
    assert (Hj : candidates3 table k !! j = Some row).
    { rewrite Hc. rewrite lookup_app_r by (unfold j; lia).
      unfold j. by rewrite Nat.sub_diag. }
    pose proof (Hle _ _ Hj) as Hr0. rewrite deltatime_self in Hr0.
    destruct (Nat.lt_trichotomy i j) as [Hij|[->|Hji]].
    + exfalso. rewrite Hc, lookup_app_l in Hi by exact Hij.
      apply list_elem_of_lookup_2, candidates3_In in Hi as [Hpre Hkey].
      apply (Huntied r Hpre Hkey). by apply deltatime_zero.
    + congruence.
    + exfalso. pose proof (Hlt _ _ Hji Hj) as Hlt0.
      rewrite deltatime_self in Hlt0.
      pose proof (Qabs_nonneg (MJD row - MJD r)) as Hnn.
      unfold deltatime in Hlt0. lra.
  - rewrite get_triplediff_set_loop in Hrun.
    apply for_in_fill_Ok in Hrun as [_ Hout].
    rewrite Hout by (by rewrite elem_of_elements). apply lookup_singleton_eq.
Qed.

Lemma matcher_keeps_untied_anchor_witness :
  exists m,
    get_triplediff_set ([] ++ mkRow 0 "A" 1 60000 "first.fits" :: tail tie_table3)
      (mkRow 0 "A" 1 60000 "first.fits") = Ok m
    /\ m !! Tuple (row_key3 (mkRow 0 "A" 1 60000 "first.fits"))
       = Some (path (mkRow 0 "A" 1 60000 "first.fits")).
Proof.
  destruct (is_Ok_b_true
              (get_triplediff_set
                 ([] ++ mkRow 0 "A" 1 60000 "first.fits" :: tail tie_table3)
                 (mkRow 0 "A" 1 60000 "first.fits"))) as [m Hm].
  { vm_compute. reflexivity. }
  exists m. split; [exact Hm|].
  apply (matcher_keeps_untied_anchor [] (tail tie_table3)
           (mkRow 0 "A" 1 60000 "first.fits") m); [|exact Hm].
  intros r Hr. apply elem_of_nil in Hr. destruct Hr.
Defined.

(** The dictionary returned is defined exactly on the keyspace and on the
    anchor's key: sixteen (eight) keys, and one more when the anchor's own
    key lies outside the keyspace. *)
Theorem matcher_output_keys table row :
  (forall m, get_triplediff_set table row = Ok m ->
             dom m = TRIPLEDIFF_SETS ∪ {[ Tuple (row_key3 row) ]})
  /\ (forall m, get_doublediff_set table row = Ok m ->
                dom m = DOUBLEDIFF_SETS ∪ {[ Tuple (row_key2 row) ]}).
Proof.
  split; intros m Hrun.
  - rewrite get_triplediff_set_loop in Hrun.
    apply for_in_fill_Ok in Hrun as [Hin Hout].
    apply set_eq. intros k. rewrite elem_of_dom, elem_of_union, elem_of_singleton.
    destruct (decide (k ∈ TRIPLEDIFF_SETS)) as [Hk|Hk].
    + destruct (Hin k) as (p & _ & Hp); [by apply elem_of_elements|].
      rewrite Hp. split; [by left|by eexists].
    + rewrite Hout by (by rewrite elem_of_elements).
      rewrite lookup_singleton_is_Some. split; [by right|]. intros [?|?]; done.
  - rewrite get_doublediff_set_loop in Hrun.
    apply for_in_fill_Ok in Hrun as [Hin Hout].
    apply set_eq. intros k. rewrite elem_of_dom, elem_of_union, elem_of_singleton.
    destruct (decide (k ∈ DOUBLEDIFF_SETS)) as [Hk|Hk].
    + destruct (Hin k) as (p & _ & Hp); [by apply elem_of_elements|].
      rewrite Hp. split; [by left|by eexists].
    + rewrite Hout by (by rewrite elem_of_elements).
      rewrite lookup_singleton_is_Some. split; [by right|]. intros [?|?]; done.
Qed.

Lemma matcher_output_keys_witness :
  exists m, get_triplediff_set tie_table3 tie_anchor3 = Ok m
            /\ dom m = TRIPLEDIFF_SETS ∪ {[ Tuple (row_key3 tie_anchor3) ]}.
Proof.
  destruct (is_Ok_b_true (get_triplediff_set tie_table3 tie_anchor3)) as [m Hm].
  { vm_compute. reflexivity. }
  exists m. split; [exact Hm|].
  destruct (matcher_output_keys tie_table3 tie_anchor3) as [H _]. by apply H.
Defined.

(** The matcher never gives a key a record that does not bear it: the path
    stored for a key of the keyspace is the path of a table row with that
    key, and no row with that key is nearer in time to the anchor. *)
Theorem matcher_assigns_bearers table row m k p
  (Hrun : get_triplediff_set table row = Ok m)
  (Hk : k ∈ TRIPLEDIFF_SETS)
  (Hp : m !! k = Some p) :
  exists r, r ∈ table /\ Tuple (row_key3 r) = k /\ path r = p
            /\ forall r', r' ∈ table -> Tuple (row_key3 r') = k ->
                          (deltatime row r <= deltatime row r')%Q.
Proof.
  destruct (get_triplediff_set_Ok _ _ _ _ Hrun Hk) as (i & r & (Hi & Hle & _) & Hm).
  exists r. apply list_elem_of_lookup_2, candidates3_In in Hi as [Hr Hkey].
  split; [done|]. split; [done|]. split; [congruence|].
  intros r' Hr' Hkey'.
  assert (Hc : r' ∈ candidates3 table k) by (by apply candidates3_In).
  apply list_elem_of_lookup in Hc as [j Hj]. by eapply Hle.
Qed.

Lemma matcher_assigns_bearers_witness :
  exists m r,
    get_triplediff_set tie_table3 tie_anchor3 = Ok m
    /\ r ∈ tie_table3 /\ Tuple (row_key3 r) = key3 45 "B" 2
    /\ path r = "later.fits"%string
    /\ forall r', r' ∈ tie_table3 -> Tuple (row_key3 r') = key3 45 "B" 2 ->
                  (deltatime tie_anchor3 r <= deltatime tie_anchor3 r')%Q.
Proof.
  assert (Hin : key3 45 "B" 2 ∈ TRIPLEDIFF_SETS)
    by (apply tripled_key_in; set_solver).
  assert (H1 : get_triplediff_set tie_table3 tie_anchor3
               ≫= (fun m => mret (m !! key3 45 "B" 2))
               = Ok (Some "later.fits"%string))
    by (vm_compute; reflexivity).
  apply bind_Ok in H1 as (m & Hm & Hk). injection Hk as Hk.
  exists m.
  destruct (matcher_assigns_bearers tie_table3 tie_anchor3 m (key3 45 "B" 2)
              "later.fits"%string Hm Hin Hk) as (r & Hr).
  exists r. split; [exact Hm|exact Hr].
Defined.

Lemma nearest_Raise_msg row cands e :
  nearest row cands = Raise e ->
  e = ValueError "attempt to get argmin of an empty sequence".
Proof.
  intros He. destruct cands as [|c cands].
  - by injection He as <-.
  - destruct (nearest_spec row (c :: cands)) as (i & r & Hn & _); [done|congruence].
Qed.

Lemma for_in_fill_perm (pick : pyobj -> result string) (e0 : exn) keys keys' out :
  keys ≡ₚ keys' ->
  (forall k e, k ∈ keys -> pick k = Raise e -> e = e0) ->
  for_in (fill_with pick) out keys = for_in (fill_with pick) out keys'.
Proof.
  intros Hperm He0.
  destruct (for_in (fill_with pick) out keys) as [m|e] eqn:H1,
           (for_in (fill_with pick) out keys') as [m'|e'] eqn:H2.
  - f_equal. apply map_eq. intros k.
    apply for_in_fill_Ok in H1 as [Hin Hout], H2 as [Hin' Hout'].
    destruct (decide (k ∈ keys)) as [Hk|Hk].
    + destruct (Hin k Hk) as (p & Hp & ->).
      destruct (Hin' k) as (p' & Hp' & ->); [by rewrite <- Hperm|]. congruence.
    + rewrite Hout, Hout'; [done| |done]. by rewrite <- Hperm.
  - apply for_in_fill_Raise in H2 as (k & Hk & Hr).
    apply for_in_fill_Ok in H1 as [Hin _].
    destruct (Hin k) as (p & Hp & _); [by rewrite Hperm|]. congruence.
  - apply for_in_fill_Raise in H1 as (k & Hk & Hr).
    apply for_in_fill_Ok in H2 as [Hin _].
    destruct (Hin k) as (p & Hp & _); [by rewrite <- Hperm|]. congruence.
  - apply for_in_fill_Raise in H1 as (k & Hk & Hr).
    apply for_in_fill_Raise in H2 as (k' & Hk' & Hr').
    rewrite (He0 _ _ Hk Hr). rewrite (He0 k' e'); [done| |done]. by rewrite Hperm.
Qed.

(** The result of the matcher does not depend on the order in which the
    loop visits the set of remaining keys: run over any arrangement of the
    keyspace, the loop returns the same dictionary, or raises the same
    exception. *)
Theorem matcher_order_independent table row (keys : list pyobj)
  (Hkeys : keys ≡ₚ elements TRIPLEDIFF_SETS) :
  for_in (fill3 table row) {[ Tuple (row_key3 row) := path row ]} keys
  = get_triplediff_set table row.
Proof.
  rewrite get_triplediff_set_loop.
  rewrite (for_in_ext (fill3 table row) (fill_with (pick3 table row)))
    by (intros; apply fill3_fill_with).
  apply (for_in_fill_perm _ (ValueError "attempt to get argmin of an empty sequence"));
    [done|].
  intros k e Hk Hr. rewrite Hkeys in Hk. apply elem_of_elements in Hk.
  rewrite pick3_candidates in Hr by done. by eapply nearest_Raise_msg.
Qed.

Lemma matcher_order_independent_witness :
  for_in (fill3 tie_table3 tie_anchor3)
    {[ Tuple (row_key3 tie_anchor3) := path tie_anchor3 ]}
    (reverse (elements TRIPLEDIFF_SETS))
  = get_triplediff_set tie_table3 tie_anchor3.
Proof.
  apply (matcher_order_independent tie_table3 tie_anchor3
           (reverse (elements TRIPLEDIFF_SETS))).
  apply reverse_Permutation.
Defined.

(** * Further properties of the calibration *)

Lemma for_in_app {A S} (body : S -> A -> result S) acc xs ys :
  for_in body acc (xs ++ ys) = for_in body acc xs ≫= fun acc' => for_in body acc' ys.
Proof.
  revert acc. induction xs as [|x xs IH]; intros acc; [done|].
  simpl app. rewrite !for_in_cons. destruct (body acc x); simpl; [apply IH|done].
Qed.

Section LastWins.
Variable derotate_cube : Frame -> R -> Frame.
Variable fs : gmap string FitsFile.

(** Loading a list of files into two stores writes the same entries on top
    of both. *)
Lemma load3_loop_union filenames : forall st st' st2,
  for_in (load3 derotate_cube fs) st filenames = Ok st' ->
  forall W, cube_dict st = W ∪ ∅ ->
  exists st2' W',
    for_in (load3 derotate_cube fs) st2 filenames = Ok st2'
    /\ cube_dict st' = W' ∪ ∅
    /\ (forall D, cube_dict st2 = W ∪ D -> cube_dict st2' = W' ∪ D).
Proof.
  induction filenames as [|file filenames IH]; intros st st' st2 H W HW.
  - injection H as <-. exists st2, W. done.
  - rewrite for_in_cons in H. apply bind_Ok in H as (st1 & H1 & H).
    unfold load3 in H1 at 1. unfold fits_open in H1.
    destruct (fs !! file) as [f|] eqn:Hf; [|done]. injection H1 as <-.
    set (key := Tuple [py_float (Calibration.RET_ANG1 f);
                       py_str (Calibration.U_FLC f);
                       py_int (Calibration.U_CAMERA f)]) in *.
    set (v := derotate_cube (data f) (DEROTANG f)) in *.
    edestruct (IH _ _ (mkLoaded (<[key := v]> (cube_dict st2))
                         (cube_errs st2 ++ [derotate_cube (err f) (DEROTANG f)]))
                 H (<[key := v]> W)) as (st2' & W' & Hrun & HW' & HD).
    { simpl. rewrite HW. by rewrite insert_union_l. }
    exists st2', W'. split; [|split; [done|]].
    + rewrite for_in_cons.
      assert (Hx : load3 derotate_cube fs st2 file
                   = Ok (mkLoaded (<[key := v]> (cube_dict st2))
                           (cube_errs st2 ++ [derotate_cube (err f) (DEROTANG f)])))
        by (unfold load3, fits_open; by rewrite Hf).
      rewrite Hx. exact Hrun.
    + intros D HD2. apply HD. simpl. rewrite HD2. by rewrite insert_union_l.
Qed.

Lemma load3_loop_total filenames : forall st,
  (forall file, file ∈ filenames -> is_Some (fs !! file)) ->
  is_Ok (for_in (load3 derotate_cube fs) st filenames).
Proof.
  induction filenames as [|file filenames IH]; intros st Hall; [by eexists|].
  rewrite for_in_cons.
  destruct (Hall file) as [f Hf]; [by left|].
  assert (Hx : is_Ok (load3 derotate_cube fs st file))
    by (unfold load3, fits_open; rewrite Hf; by eexists).
  destruct Hx as [st1 ->]. simpl.
  apply IH. intros file' Hin. apply Hall. by right.
Qed.

End LastWins.

Lemma triple_diff_dict_ext (d d' : gmap pyobj Frame) :
  (forall k, k ∈ TRIPLEDIFF_SETS -> d !! k = d' !! k) ->
  triple_diff_dict d = triple_diff_dict d'.
Proof.
  intros H. unfold triple_diff_dict, half_diff, half_sum, getitem.
  repeat match goal with
    | |- context [d !! ?k] =>
        rewrite (H k) by (apply tripled_key_in; set_solver)
    end.
  reflexivity.
Qed.

(** Only the last file of each key reaches the Stokes planes: when the
    files [last] alone calibrate, putting any whole cycles of readable
    files in front of them gives the same Stokes planes - the frames of the
    earlier files are overwritten in the dictionary before the combiner
    runs. *)
Theorem calibration_uses_last_files derotate_cube fs (first last : list string)
    (hdul_last : StokesHDUL)
  (Hfirst : forall file, file ∈ first -> is_Some (fs !! file))
  (Hlen : (length first mod 16 = 0)%nat)
  (Hlast : polarization_calibration_triplediff derotate_cube fs last = Ok hdul_last) :
  exists hdul,
    polarization_calibration_triplediff derotate_cube fs (first ++ last) = Ok hdul
    /\ stokes_cube hdul = stokes_cube hdul_last.
Proof.
  apply triplediff_Ok_inv in Hlast as [Hmod Hbody].
  unfold triplediff_body in Hbody.
  apply bind_Ok in Hbody as (st_l & Hst_l & Hbody).
  apply bind_Ok in Hbody as (cube & Hcube & [= <-]).
  destruct (load3_loop_total derotate_cube fs first (mkLoaded ∅ []) Hfirst)
    as [st_f Hst_f].
  destruct (load3_loop_union derotate_cube fs last _ _ st_f Hst_l ∅)
    as (st & W & Hst & HW & HD).
  { simpl. by rewrite (left_id_L ∅ (∪)). }
  specialize (HD (cube_dict st_f)). rewrite (left_id_L ∅ (∪)) in HD.
  specialize (HD eq_refl). rewrite (right_id_L ∅ (∪)) in HW.
  assert (Hsame : triple_diff_dict (cube_dict st) = Ok cube).
  { rewrite <- Hcube. apply triple_diff_dict_ext. intros k Hk.
    destruct (triple_diff_dict_cases (cube_dict st_l)) as [_ Hok].
    destruct (Hok (ex_intro _ cube Hcube) k Hk) as [v Hv].
    rewrite HD, <- HW. rewrite Hv. by apply lookup_union_Some_l. }
  exists (mkHDUL cube (combine_errs (cube_errs st))). split; [|done].
  unfold polarization_calibration_triplediff.
  rewrite mod_check_true.
  - unfold triplediff_body. rewrite for_in_app, Hst_f. simpl.
    rewrite Hst. simpl. rewrite Hsame. done.
  - rewrite length_app.
    apply Nat.Div0.mod_divides in Hlen as [a Ha], Hmod as [b Hb].
    apply Nat.Div0.mod_divides. exists (a + b)%nat. lia.
Qed.

Lemma calibration_uses_last_files_witness :
  exists hdul_last hdul,
    polarization_calibration_triplediff no_derotation two_cycles3_fs
      (drop 16 two_cycles3_names) = Ok hdul_last
    /\ polarization_calibration_triplediff no_derotation two_cycles3_fs
         (take 16 two_cycles3_names ++ drop 16 two_cycles3_names) = Ok hdul
    /\ stokes_cube hdul = stokes_cube hdul_last.
Proof.
  assert (Hfirst : forall file, file ∈ take 16 two_cycles3_names ->
                                is_Some (two_cycles3_fs !! file)).
  { intros file Hin. apply list_elem_of_In in Hin.
    assert (H : forallb (fun file => match two_cycles3_fs !! file with
                                     | Some _ => true
                                     | None => false
                                     end) (take 16 two_cycles3_names) = true)
      by (vm_compute; reflexivity).
    rewrite forallb_forall in H. specialize (H file Hin).
    destruct (two_cycles3_fs !! file); [by eexists|discriminate H]. }
  destruct (is_Ok_b_true
              (polarization_calibration_triplediff no_derotation two_cycles3_fs
                 (drop 16 two_cycles3_names))) as [hdul_last Hlast].
  { vm_compute. reflexivity. }
  exists hdul_last.
  destruct (calibration_uses_last_files no_derotation two_cycles3_fs
              (take 16 two_cycles3_names) (drop 16 two_cycles3_names)
              hdul_last Hfirst) as (hdul & Hrun & Hsame).
  - reflexivity.
  - exact Hlast.
  - exists hdul. split; [exact Hlast|]. split; [exact Hrun|exact Hsame].
Defined.

Lemma Rsum_const (l : list R) (c : R) :
  Forall (fun x => x = c) l -> Rsum l = (INR (length l) * c)%R.
Proof.
  induction 1 as [|x l -> _ IH]; [simpl; lra|].
  change (Rsum (c :: l)) with (c + Rsum l)%R. rewrite IH.
  change (length (c :: l)) with (S (length l)). rewrite S_INR. lra.
Qed.

Lemma rms_over_equal_errs (errs : list Frame) (e : Frame) p :
  errs <> [] -> Forall (fun e' => e' p = e p) errs ->
  rms_over_set errs p = (Rabs (e p) / sqrt (INR (length errs)))%R.
Proof.
  intros Hne Hall. unfold rms_over_set, mean_axis0.
  rewrite (Rsum_const _ ((e p) ^ 2)%R).
  - rewrite !length_fmap.
    assert (0 < INR (length errs))%R
      by (apply lt_0_INR; destruct errs; [done|simpl; lia]).
    replace (INR (length errs) * e p ^ 2 / INR (length errs))%R
      with (Rsqr (e p)) by (unfold Rsqr; field; lra).
    by rewrite sqrt_Rsqr_abs.
  - rewrite <- list_fmap_compose. apply Forall_fmap.
    eapply Forall_impl; [exact Hall|]. intros e' He'. simpl. unfold fmap.
    by rewrite He'.
Qed.

(** The square-root-of-N law of the error map: when the derotated error
    maps of all the files of a call agree at a pixel, with value [e], the
    combined error there is [|e| / sqrt N], [N] the number of files. *)
Theorem error_map_of_equal_errors derotate_cube fs filenames hdul (e : Frame) p
  (Hrun : polarization_calibration_triplediff derotate_cube fs filenames = Ok hdul
          \/ polarization_calibration_doublediff derotate_cube fs filenames = Ok hdul)
  (Hsame : forall name f, name ∈ filenames -> fs !! name = Some f ->
                          derotate_cube (err f) (DEROTANG f) p = e p) :
  stokes_err hdul p = (Rabs (e p) / sqrt (INR (length filenames)))%R.
Proof.
  assert (exists files,
    Forall2 (fun name f => fs !! name = Some f) filenames files
    /\ forall p, stokes_err hdul p
                 = rms_over_set (derotated_errs derotate_cube files) p)
    as (files & Hfiles & Herr).
  { destruct Hrun as [H|H].
    - apply triplediff_Ok_inv in H as [_ H]. by apply triplediff_body_err in H.
    - apply doublediff_Ok_inv in H as [_ H]. by apply doublediff_body_err in H. }
  assert (Hne : filenames <> []).
  { intros ->. destruct Hrun as [H|H]; discriminate H. }
  pose proof (Forall2_length _ _ _ Hfiles) as Hlen.
  rewrite Herr, (rms_over_equal_errs _ e).
  - unfold derotated_errs. by rewrite length_fmap, <- Hlen.
  - unfold derotated_errs. destruct files; [|done].
    apply Forall2_nil_inv_r in Hfiles. done.
  - unfold derotated_errs. apply Forall_fmap, Forall_forall. intros f Hf.
    apply list_elem_of_lookup in Hf as [i Hi].
    destruct (Forall2_lookup_r _ _ _ _ _ Hfiles Hi) as (name & Hname & Hfs).
    simpl. eapply Hsame; [|exact Hfs]. by eapply list_elem_of_lookup_2.
Qed.

Lemma error_map_of_equal_errors_witness :
  exists hdul,
    polarization_calibration_doublediff no_derotation two_cycles_fs two_cycles_names
    = Ok hdul
    /\ stokes_err hdul []
       = (Rabs (fconst 1 []) / sqrt (INR (length two_cycles_names)))%R.
Proof.
  destruct two_cycles_run as [hdul Hrun]. exists hdul. split; [exact Hrun|].
  apply (error_map_of_equal_errors no_derotation two_cycles_fs two_cycles_names
           hdul (fconst 1) []).
  - right. exact Hrun.
  - intros name f _ Hf. unfold no_derotation.
    by rewrite (two_cycles_fs_unit_err name f Hf).
Defined.

(** * Dictionaries of arrays read from files *)

Section MakeDict.
Variable fs : gmap string FitsFile.

Abbreviation store3 :=
  (fun (output : gmap pyobj Frame) (file : string) =>
     load_fits fs file ≫= fun f => mret (<[header_key3 f := data f]> output)).

Lemma store3_Ok output file f :
  fs !! file = Some f -> store3 output file = Ok (<[header_key3 f := data f]> output).
Proof. intros Hf. unfold load_fits. by rewrite Hf. Qed.

Lemma store3_inv output file d :
  store3 output file = Ok d ->
  exists f, fs !! file = Some f /\ d = <[header_key3 f := data f]> output.
Proof.
  unfold load_fits. destruct (fs !! file) as [f|]; [|done].
  intros [= <-]. eauto.
Qed.

Lemma make_dict_loop filenames : forall acc d,
  for_in store3 acc filenames = Ok d ->
  (forall k v, d !! k = Some v ->
     acc !! k = Some v
     \/ exists file f, file ∈ filenames /\ fs !! file = Some f
                       /\ header_key3 f = k /\ data f = v)
  /\ (forall k, (forall file f, file ∈ filenames -> fs !! file = Some f ->
                                header_key3 f <> k) ->
                d !! k = acc !! k).
Proof.
  induction filenames as [|file filenames IH]; intros acc d H.
  - injection H as <-. split; [by left|done].
  - rewrite for_in_cons in H. apply bind_Ok in H as (acc1 & H1 & H).
    apply store3_inv in H1 as (f & Hf & ->).
    destruct (IH _ _ H) as [Hfrom Hkeep]. split.
    + intros k v Hk. destruct (Hfrom k v Hk) as [Hacc|(file' & f' & Hin & Hrest)].
      * destruct (decide (header_key3 f = k)) as [<-|Hne].
        -- rewrite lookup_insert_eq in Hacc. injection Hacc as <-.
           right. exists file, f. split; [by left|done].
        -- rewrite lookup_insert_ne in Hacc by done. by left.
      * right. exists file', f'. split; [by right|done].
    + intros k Hk. rewrite Hkeep.
      * apply lookup_insert_ne. apply (Hk file f); [by left|done].
      * intros file' f' Hin. apply Hk. by right.
Qed.

End MakeDict.

(** [make_triplediff_dict] keeps, for each key, the array of the last
    listed file with that key; and every entry of the dictionary is the
    array of a listed file filed under that file's key. *)
Theorem make_triplediff_dict_last_wins fs (before after : list string)
    (file : string) (f : FitsFile) (d : gmap pyobj Frame)
  (Hf : fs !! file = Some f)
  (Hafter : forall file' f', file' ∈ after -> fs !! file' = Some f' ->
                             header_key3 f' <> header_key3 f)
  (Hrun : make_triplediff_dict fs (before ++ file :: after) = Ok d) :
  d !! header_key3 f = Some (data f)
  /\ forall k v, d !! k = Some v ->
       exists file' f', file' ∈ before ++ file :: after
                        /\ fs !! file' = Some f'
                        /\ header_key3 f' = k /\ data f' = v.
Proof.
  unfold make_triplediff_dict in Hrun. split.
  - rewrite for_in_app in Hrun. apply bind_Ok in Hrun as (acc1 & _ & Hrun).
    rewrite for_in_cons in Hrun. apply bind_Ok in Hrun as (acc2 & H2 & Hrun).
    apply store3_inv in H2 as (f0 & Hf0 & ->).
    assert (f0 = f) as -> by congruence.
    apply make_dict_loop in Hrun as [_ Hkeep].
    rewrite Hkeep by exact Hafter. apply lookup_insert_eq.
  - intros k v Hk. apply make_dict_loop in Hrun as [Hfrom _].
    destruct (Hfrom k v Hk) as [Hempty|H]; [|exact H].
    by rewrite lookup_empty in Hempty.
Qed.

Lemma make_triplediff_dict_last_wins_witness :
  exists d,
    make_triplediff_dict two_cycles3_fs
      (take 16 two_cycles3_names ++ "f16"%string :: drop 17 two_cycles3_names) = Ok d
    /\ d !! header_key3 (mkFits (fconst 1) (fconst 1) 0 "A" 1 0)
       = Some (data (mkFits (fconst 1) (fconst 1) 0 "A" 1 0)).
Proof.
  destruct (is_Ok_b_true
              (make_triplediff_dict two_cycles3_fs
                 (take 16 two_cycles3_names ++ "f16"%string
                  :: drop 17 two_cycles3_names))) as [d Hd].
  { vm_compute. reflexivity. }
  exists d. split; [exact Hd|].
  apply (make_triplediff_dict_last_wins two_cycles3_fs
           (take 16 two_cycles3_names) (drop 17 two_cycles3_names)
           "f16"%string (mkFits (fconst 1) (fconst 1) 0 "A" 1 0) d).
  - vm_compute. reflexivity.
  - intros file' f' Hin Hf'. apply list_elem_of_In in Hin.
    assert (H : forallb
                  (fun name =>
                     match two_cycles3_fs !! name with
                     | Some g =>
                         negb (bool_decide
                                 (header_key3 g
                                  = header_key3 (mkFits (fconst 1) (fconst 1) 0 "A" 1 0)))
                     | None => true
                     end) (drop 17 two_cycles3_names) = true)
      by (vm_compute; reflexivity).
    rewrite forallb_forall in H. specialize (H file' Hin). rewrite Hf' in H.
    apply negb_true_iff, bool_decide_eq_false in H. exact H.
  - exact Hd.
Defined.

(** * Further properties of the Mueller-matrix correction *)

Lemma det_transpose m : det (transpose m) = det m.
Proof. destruct m as [[a b] [c d]]. simpl. ring. Qed.

(** With a regular cross-talk matrix the block solves its system exactly:
    the returned planes [Q''], [U''] satisfy
    [mQ1 Q'' + mU1 U'' = Q - mQ0 I] and [mQ2 Q'' + mU2 U'' = U - mU0 I] at
    every pixel.  So it recovers [Qt], [Ut] from planes that were made as
    [Q = mQ0 I + mQ1 Qt + mU1 Ut], [U = mU0 I + mQ2 Qt + mU2 Ut]. *)
Theorem mm_correct_regular_exact I Q U I_err q0 q1 q2 rq u0 u1 u2 ru
  (Hdet : det (crosstalk_matrix q1 q2 u1 u2) <> 0%R) :
  exists Q2 U2 errs,
    make_stokes_image_mm_correct I Q U I_err
      (q0 :: q1 :: q2 :: rq) (u0 :: u1 :: u2 :: ru)
    = Ok ((I, Q2, U2), errs)
    /\ (forall p, (q1 * Q2 p + u1 * U2 p = Q p - q0 * I p)%R
                  /\ (q2 * Q2 p + u2 * U2 p = U p - u0 * I p)%R)
    /\ forall Qt Ut : Frame,
        Q =f (q0 *: I + (q1 *: Qt + u1 *: Ut))%fr ->
        U =f (u0 *: I + (q2 *: Qt + u2 *: Ut))%fr ->
        Q2 =f Qt /\ U2 =f Ut.
Proof.
  eexists _, _, _. split; [reflexivity|].
  assert (Hsol : forall p,
    mulv (transpose (crosstalk_matrix q1 q2 u1 u2))
      (lstsq2 (transpose (crosstalk_matrix q1 q2 u1 u2))
         ((Q p - q0 * I p)%R, (U p - u0 * I p)%R))
    = ((Q p - q0 * I p)%R, (U p - u0 * I p)%R)).
  { intros p. apply lstsq2_regular. by rewrite det_transpose. }
  assert (Hex : forall p,
    (q1 * fst (lstsq2 (transpose (crosstalk_matrix q1 q2 u1 u2))
                 ((Q p - q0 * I p)%R, (U p - u0 * I p)%R))
     + u1 * snd (lstsq2 (transpose (crosstalk_matrix q1 q2 u1 u2))
                   ((Q p - q0 * I p)%R, (U p - u0 * I p)%R))
     = Q p - q0 * I p)%R
    /\ (q2 * fst (lstsq2 (transpose (crosstalk_matrix q1 q2 u1 u2))
                    ((Q p - q0 * I p)%R, (U p - u0 * I p)%R))
        + u2 * snd (lstsq2 (transpose (crosstalk_matrix q1 q2 u1 u2))
                      ((Q p - q0 * I p)%R, (U p - u0 * I p)%R))
        = U p - u0 * I p)%R).
  { intros p. specialize (Hsol p).
    destruct (lstsq2 _ _) as [x1 x2]. simpl in Hsol. injection Hsol as H1 H2.
    simpl. split; lra. }
  split; [exact Hex|].
  intros Qt Ut HQ HU. simpl in Hdet.
  split; intros p; destruct (Hex p) as [H1 H2]; cbv beta;
    unfold fsub, fscale in *; rewrite (HQ p), (HU p) in *;
    unfold fadd, fscale in *;
    set (x1 := fst _) in *; set (x2 := snd _) in *; clearbody x1 x2.
  - apply (Rmult_eq_reg_l (q1 * u2 - q2 * u1)); [|exact Hdet]. nsatz.
  - apply (Rmult_eq_reg_l (q1 * u2 - q2 * u1)); [|exact Hdet]. nsatz.
Qed.

Lemma mm_correct_regular_exact_witness :
  exists Q2 U2 errs,
    make_stokes_image_mm_correct (fconst 1) (fconst 2) (fconst 3) (fconst 1)
      [0; 1; 1; 0]%R [0; 0; 1; 0]%R
    = Ok ((fconst 1, Q2, U2), errs)
    /\ (forall p, (1 * Q2 p + 0 * U2 p = fconst 2 p - 0 * fconst 1 p)%R
                  /\ (1 * Q2 p + 1 * U2 p = fconst 3 p - 0 * fconst 1 p)%R)
    /\ forall Qt Ut : Frame,
        fconst 2 =f (0 *: fconst 1 + (1 *: Qt + 0 *: Ut))%fr ->
        fconst 3 =f (0 *: fconst 1 + (1 *: Qt + 1 *: Ut))%fr ->
        Q2 =f Qt /\ U2 =f Ut.
Proof.
  apply (mm_correct_regular_exact (fconst 1) (fconst 2) (fconst 3) (fconst 1)
           0 1 1 [0%R] 0 0 1 [0%R]).
  simpl. lra.
Defined.

(** * Further properties of the radial Stokes parameters *)

Lemma hypot_eq x y x' y' :
  (x * x + y * y = x' * x' + y' * y')%R -> hypot x y = hypot x' y'.
Proof. unfold hypot. by intros ->. Qed.

(** The radial pair is a reflection of [(Q, U)] at every pixel: it has the
    same polarized intensity, [Qphi^2 + Uphi^2 = Q^2 + U^2], and the two
    error planes have the same quadrature sum as the errors of [Q] and
    [U]. *)
Theorem radial_stokes_preserves_norm frame_angles I Q U rest Ie Qe Ue reste phi :
  exists Qphi Uphi Qphi_err Uphi_err,
    radial_stokes frame_angles (I :: Q :: U :: rest)
      (Some (Ie :: Qe :: Ue :: reste)) phi
    = Ok (Qphi, Uphi, Some Qphi_err, Some Uphi_err)
    /\ forall p,
        (Qphi p * Qphi p + Uphi p * Uphi p = Q p * Q p + U p * U p)%R
        /\ hypot (Qphi p) (Uphi p) = hypot (Q p) (U p)
        /\ (Qphi_err p * Qphi_err p + Uphi_err p * Uphi_err p
            = Qe p * Qe p + Ue p * Ue p)%R.
Proof.
  eexists _, _, _, _. split; [reflexivity|]. intros p.
  unfold fmap2, fmap, fmul, fsub, fneg, fscale, fadd, fconst.
  set (a := (2 * (frame_angles (I :: Q :: U :: rest) p + phi))%R).
  pose proof (sin2_cos2 a) as Hsc. unfold Rsqr in Hsc.
  set (c := cos a) in *. set (s := sin a) in *.
  assert (Hnorm : ((- c * Q p - s * U p) * (- c * Q p - s * U p)
                   + (s * Q p - c * U p) * (s * Q p - c * U p)
                   = Q p * Q p + U p * U p)%R).
  { transitivity ((s * s + c * c) * (Q p * Q p + U p * U p))%R; [ring|].
    rewrite Hsc. ring. }
  split; [exact Hnorm|]. split; [by apply hypot_eq|].
  rewrite !hypot_sqr.
  transitivity ((s * s + c * c) * (Qe p * Qe p + Ue p * Ue p))%R; [ring|].
  rewrite Hsc. ring.
Qed.

(** Stokes rotations compose by adding their angles: rotating by [a] and
    then by [b] is rotating by [a + b].  In particular the rotation by
    [-a] undoes the rotation by [a], and a rotation keeps [Q^2 + U^2]. *)
Theorem rotate_stokes_compose I Q U rest (a b : Frame) :
  exists Q1 U1 Q2 U2 Q3 U3,
    rotate_stokes (I :: Q :: U :: rest) a = Ok (I :: Q1 :: U1 :: rest)
    /\ rotate_stokes (I :: Q1 :: U1 :: rest) b = Ok (I :: Q2 :: U2 :: rest)
    /\ rotate_stokes (I :: Q :: U :: rest) (a + b)%fr = Ok (I :: Q3 :: U3 :: rest)
    /\ Q2 =f Q3 /\ U2 =f U3
    /\ (forall p, b p = (- a p)%R -> Q2 p = Q p /\ U2 p = U p)
    /\ forall p, (Q1 p * Q1 p + U1 p * U1 p = Q p * Q p + U p * U p)%R.
Proof.
  eexists _, _, _, _, _, _.
  split; [reflexivity|]. split; [reflexivity|]. split; [reflexivity|].
  assert (Hadd : forall p, (2 * (a p + b p) = 2 * a p + 2 * b p)%R)
    by (intros; ring).
  split; [|split; [|split]]; intros p;
    unfold fmap, fmul, fsub, fadd, fscale.
  - rewrite Hadd, cos_plus, sin_plus. ring.
  - rewrite Hadd, cos_plus, sin_plus. ring.
  - intros ->. replace (2 * - a p)%R with (- (2 * a p))%R by ring.
    rewrite cos_neg, sin_neg.
    pose proof (sin2_cos2 (2 * a p)) as Hsc. unfold Rsqr in Hsc.
    set (c := cos (2 * a p)) in *. set (s := sin (2 * a p)) in *.
    split.
    + transitivity (Q p * (s * s + c * c))%R; [ring|rewrite Hsc; ring].
    + transitivity (U p * (s * s + c * c))%R; [ring|rewrite Hsc; ring].
  - pose proof (sin2_cos2 (2 * a p)) as Hsc. unfold Rsqr in Hsc.
    set (c := cos (2 * a p)) in *. set (s := sin (2 * a p)) in *.
    transitivity ((s * s + c * c) * (Q p * Q p + U p * U p))%R; [ring|].
    rewrite Hsc. ring.
Qed.

(** [rotate_stokes] and [radial_stokes] need the planes 1 and 2: they
    return exactly on cubes of at least three planes and raise [IndexError]
    on shorter ones.  What [rotate_stokes] returns has as many planes as its
    argument and differs from it at most in the planes 1 and 2. *)
Theorem stokes_planes_required frame_angles (cube : list Frame) (theta : Frame) phi :
  (is_Ok (rotate_stokes cube theta) <-> (3 <= length cube)%nat)
  /\ (is_Ok (radial_stokes frame_angles cube None phi) <-> (3 <= length cube)%nat)
  /\ (rotate_stokes cube theta = Raise IndexError
      /\ radial_stokes frame_angles cube None phi = Raise IndexError
      \/ exists out,
           rotate_stokes cube theta = Ok out
           /\ length out = length cube
           /\ forall i, i <> 1%nat -> i <> 2%nat -> out !! i = cube !! i).
Proof.
  destruct cube as [|I [|Q [|U rest]]].
  1-3: split; [|split; [|left; split; reflexivity]];
       (split; [intros [out H]; discriminate H | simpl; lia]).
  split; [|split].
  - split; [simpl; lia|]. intros _. eexists. reflexivity.
  - split; [simpl; lia|]. intros _. eexists. reflexivity.
  - right. eexists. split; [reflexivity|]. split; [reflexivity|].
    intros [|[|[|i]]] H1 H2; done.
Qed.

(** * Further properties of the second-order IP correction *)

Lemma measure_unbound mi ma h a phot_rad method :
  method <> "aperture"%string -> method <> "annulus"%string ->
  measure mi ma h a phot_rad method = Ok None.
Proof.
  intros H1 H2. unfold measure. by rewrite !decide_False by done.
Qed.

(** [polarization_ip_correct] binds its coefficients only for the methods
    "aperture" and "annulus": with any other method, such as the default
    "photometry" that [make_stokes_image] passes, the [match] falls through
    and the call raises [UnboundLocalError] for [cQ], whatever the array. *)
Theorem ip_correct_unknown_method mi ma h stokes_data phot_rad method header
  (Hap : method <> "aperture"%string) (Han : method <> "annulus"%string) :
  polarization_ip_correct mi ma h stokes_data phot_rad method header
  = Raise (UnboundLocalError "cQ").
Proof.
  unfold polarization_ip_correct. by rewrite measure_unbound.
Qed.

Lemma ip_correct_unknown_method_witness :
  polarization_ip_correct (fun _ _ _ => 1%R) (fun _ _ _ _ => 1%R)
    one_array_heap (whole 1%positive) (8%R, 8%R) "photometry" None
  = Raise (UnboundLocalError "cQ").
Proof.
  apply (ip_correct_unknown_method (fun _ _ _ => 1%R) (fun _ _ _ _ => 1%R)
           one_array_heap (whole 1%positive) (8%R, 8%R) "photometry" None);
    discriminate.
Defined.

Lemma measure_values mi ma h l I Q U rest r1 r2 method :
  h !! l = Some (Arr (I :: Q :: U :: rest)) ->
  method = "aperture"%string \/ method = "annulus"%string ->
  measure mi ma h (whole l) (r1, r2) method
  = Ok (Some (if decide (method = "aperture"%string)
              then (mi I Q r1, mi I U r1)
              else (ma I Q r1 r2, ma I U r1 r2))).
Proof.
  intros Harr Hm. pose proof (planes_of_whole _ _ _ Harr) as Hps.
  unfold measure.
  rewrite (getplane_Some _ _ _ 0 I Hps), (getplane_Some _ _ _ 1 Q Hps),
    (getplane_Some _ _ _ 2 U Hps) by done.
  destruct Hm as [-> | ->].
  - by rewrite !decide_True by done.
  - rewrite !decide_False by done. by rewrite decide_True by done.
Qed.

(** A run of [polarization_ip_correct] with a header. *)
Lemma ip_correct_run mi ma h l I Q U rest r1 r2 method hdr cards :
  h !! l = Some (Arr (I :: Q :: U :: rest)) ->
  h !! hdr = Some (Hdr cards) ->
  method = "aperture"%string \/ method = "annulus"%string ->
  let c := if decide (method = "aperture"%string)
           then (mi I Q r1, mi I U r1) else (ma I Q r1 r2, ma I U r1 r2) in
  exists h2,
    polarization_ip_correct mi ma h (whole l) (r1, r2) method (Some hdr)
    = Ok (h2, (whole l, Some hdr))
    /\ h2 !! l = Some (Arr (I :: (Q - c.1 *: I)%fr :: (U - c.2 *: I)%fr :: rest))
    /\ h2 !! hdr
       = Some (Hdr (<["IP_FU"%string := (c.2, "I -> U IP correction value"%string)]>
                      (<["IP_FQ"%string := (c.1, "I -> Q IP correction value"%string)]>
                         cards)))
    /\ (forall l', l' ∈ dom h -> l' <> l -> l' <> hdr -> h2 !! l' = h !! l')
    /\ dom h ⊆ dom h2.
Proof.
  intros Harr Hhdr Hmethod c.
  pose proof (measure_values mi ma h l I Q U rest r1 r2 method Harr Hmethod) as Hmeas.
  fold c in Hmeas. destruct c as [cQ cU]. cbn [fst snd].
  pose proof (planes_of_slice _ _ _ 3 Harr) as Hview. simpl in Hview.
  destruct (instpol_correct_fresh _ _ _ _ _ _ cQ cU Hview) as (new & Hrun & Hnew).
  assert (Hne : new <> l).
  { intros ->. apply Hnew, elem_of_dom. by eexists. }
  assert (Hne' : new <> hdr).
  { intros ->. apply Hnew, elem_of_dom. by eexists. }
  assert (Hlh : l <> hdr) by congruence.
  set (values := [I; (Q - cQ *: I)%fr; (U - cU *: I)%fr]).
  set (h1 := <[new := Arr values]> h) in *.
  assert (Hl1 : h1 !! l = Some (Arr (I :: Q :: U :: rest)))
    by (unfold h1; by rewrite lookup_insert_ne).
  set (h2 := <[l := Arr (values ++ rest)]> h1).
  assert (Hassign : assign_slice h1 (whole l) 3 values = Ok h2).
  { unfold assign_slice. rewrite (planes_of_slice _ _ _ 3 Hl1). simpl.
    rewrite Hl1. done. }
  assert (Hvalues : planes_of h1 (whole new) = Ok values).
  { apply planes_of_whole. unfold h1. apply lookup_insert_eq. }
  assert (Hhdr2 : h2 !! hdr = Some (Hdr cards)).
  { unfold h2, h1. by rewrite !lookup_insert_ne. }
  destruct (set_card_Ok h2 hdr "IP_FQ" cQ "I -> Q IP correction value" _ Hhdr2)
    as (h3 & Hset3 & Hh3).
  destruct (set_card_Ok h3 hdr "IP_FU" cU "I -> U IP correction value" _ Hh3)
    as (h4 & Hset4 & Hh4).
  assert (Hother : forall l', l' <> hdr -> h4 !! l' = h2 !! l').
  { intros l' Hl'. unfold set_card in Hset3, Hset4.
    rewrite Hhdr2 in Hset3. injection Hset3 as <-.
    rewrite lookup_insert_eq in Hset4. injection Hset4 as <-.
    by rewrite !lookup_insert_ne. }
  exists h4. split; [|split; [|split; [|split]]].
  - unfold polarization_ip_correct. rewrite Hmeas. simpl.
    rewrite Hrun. simpl. fold values. fold h1. rewrite Hvalues. simpl.
    rewrite Hassign. simpl. rewrite Hset3. simpl. rewrite Hset4. done.
  - rewrite Hother by done. unfold h2. apply lookup_insert_eq.
  - exact Hh4.
  - intros l' Hin Hl Hh. rewrite Hother by done. unfold h2, h1.
    rewrite !lookup_insert_ne; [done| |done].
    intros ->. done.
  - intros l' Hin. apply elem_of_dom.
    destruct (decide (l' = hdr)) as [->|Hh]; [by eexists|].
    rewrite Hother by done. unfold h2.
    destruct (decide (l' = l)) as [->|Hl]; [rewrite lookup_insert_eq; by eexists|].
    rewrite lookup_insert_ne by done. unfold h1.
    rewrite lookup_insert_ne; [by apply elem_of_dom|]. intros ->. done.
Qed.

(** What a run of [polarization_ip_correct] with a header leaves behind:
    the coefficients are measured on the planes as they were before the
    correction, with the first radius for "aperture" and both radii for
    "annulus"; the planes after the third stay; the header gets the cards
    [IP_FQ] and [IP_FU] with the two coefficients; and every other object
    of the store is as it was. *)
Theorem ip_correct_records_coefficients mi ma h l I Q U rest r1 r2 method hdr cards
  (Harr : h !! l = Some (Arr (I :: Q :: U :: rest)))
  (Hhdr : h !! hdr = Some (Hdr cards))
  (Hmethod : method = "aperture"%string \/ method = "annulus"%string) :
  let c := if decide (method = "aperture"%string)
           then (mi I Q r1, mi I U r1) else (ma I Q r1 r2, ma I U r1 r2) in
  exists h2,
    polarization_ip_correct mi ma h (whole l) (r1, r2) method (Some hdr)
    = Ok (h2, (whole l, Some hdr))
    /\ h2 !! l = Some (Arr (I :: (Q - c.1 *: I)%fr :: (U - c.2 *: I)%fr :: rest))
    /\ h2 !! hdr
       = Some (Hdr (<["IP_FU"%string := (c.2, "I -> U IP correction value"%string)]>
                      (<["IP_FQ"%string := (c.1, "I -> Q IP correction value"%string)]>
                         cards)))
    /\ forall l', l' ∈ dom h -> l' <> l -> l' <> hdr -> h2 !! l' = h !! l'.
Proof.
  intros c.
  destruct (ip_correct_run mi ma h l I Q U rest r1 r2 method hdr cards
              Harr Hhdr Hmethod) as (h2 & H1 & H2 & H3 & H4 & _).
  exists h2. done.
Qed.

Lemma ip_correct_records_coefficients_witness :
  exists h2,
    polarization_ip_correct (fun _ _ _ => 1%R) (fun _ _ _ _ => 1%R)
      array_and_header_heap (whole 1%positive) (8%R, 8%R) "annulus" (Some 2%positive)
    = Ok (h2, (whole 1%positive, Some 2%positive))
    /\ h2 !! 1%positive
       = Some (Arr [fconst 1; (fconst 2 - 1 *: fconst 1)%fr;
                    (fconst 3 - 1 *: fconst 1)%fr])
    /\ h2 !! 2%positive
       = Some (Hdr (<["IP_FU"%string := (1%R, "I -> U IP correction value"%string)]>
                      (<["IP_FQ"%string := (1%R, "I -> Q IP correction value"%string)]>
                         ∅)))
    /\ forall l', l' ∈ dom array_and_header_heap ->
                  l' <> 1%positive -> l' <> 2%positive ->
                  h2 !! l' = array_and_header_heap !! l'.
Proof.
  apply (ip_correct_records_coefficients (fun _ _ _ => 1%R) (fun _ _ _ _ => 1%R)
           array_and_header_heap 1%positive (fconst 1) (fconst 2) (fconst 3) []
           8 8 "annulus" 2%positive ∅).
  - reflexivity.
  - reflexivity.
  - right. reflexivity.
Defined.

(** [instpol_correct] applied to its own result subtracts the sum of the
    coefficients: two corrections in a row are the correction by
    [pQ + pQ'] and [pU + pU'].  The result has three planes whatever the
    argument had, and the argument is as it was. *)
Theorem instpol_correct_twice h a c0 c1 c2 more pQ pU pQ' pU'
  (Hps : planes_of h a = Ok (c0 :: c1 :: c2 :: more)) :
  exists h1 a1 h2 a2 Q2 U2,
    instpol_correct h a pQ pU = Ok (h1, a1)
    /\ instpol_correct h1 a1 pQ' pU' = Ok (h2, a2)
    /\ planes_of h2 a2 = Ok [c0; Q2; U2]
    /\ Q2 =f (c1 - (pQ + pQ') *: c0)%fr
    /\ U2 =f (c2 - (pU + pU') *: c0)%fr
    /\ planes_of h2 a = Ok (c0 :: c1 :: c2 :: more).
Proof.
  destruct (instpol_correct_fresh _ _ _ _ _ _ pQ pU Hps) as (new & Hrun & Hnew).
  set (h1 := <[new := Arr [c0; (c1 - pQ *: c0)%fr; (c2 - pU *: c0)%fr]]> h) in *.
  assert (Hps1 : planes_of h1 (whole new)
                 = Ok [c0; (c1 - pQ *: c0)%fr; (c2 - pU *: c0)%fr]).
  { apply planes_of_whole. unfold h1. apply lookup_insert_eq. }
  destruct (instpol_correct_fresh _ _ _ _ _ _ pQ' pU' Hps1) as (new' & Hrun' & Hnew').
  eexists _, _, _, _, _, _. split; [exact Hrun|]. split; [exact Hrun'|].
  split; [apply planes_of_whole, lookup_insert_eq|].
  split; [|split].
  - intros p. unfold fsub, fscale. ring.
  - intros p. unfold fsub, fscale. ring.
  - assert (Ha : buffer a ∈ dom h).
    { unfold planes_of in Hps. apply elem_of_dom.
      destruct (h !! buffer a); [by eexists|done]. }
    assert (Ha1 : buffer a ∈ dom h1) by (unfold h1; set_solver).
    unfold planes_of in *. unfold h1.
    rewrite !lookup_insert_ne; [done| |]; intros ->; done.
Qed.

Lemma instpol_correct_twice_witness :
  exists h1 a1 h2 a2 Q2 U2,
    instpol_correct one_array_heap (whole 1%positive) 1 2 = Ok (h1, a1)
    /\ instpol_correct h1 a1 3 4 = Ok (h2, a2)
    /\ planes_of h2 a2 = Ok [fconst 1; Q2; U2]
    /\ Q2 =f (fconst 2 - (1 + 3) *: fconst 1)%fr
    /\ U2 =f (fconst 3 - (2 + 4) *: fconst 1)%fr
    /\ planes_of h2 (whole 1%positive) = Ok [fconst 1; fconst 2; fconst 3].
Proof.
  apply (instpol_correct_twice one_array_heap (whole 1%positive)
           (fconst 1) (fconst 2) (fconst 3) [] 1 2 3 4).
  reflexivity.
Defined.

(** * Properties of the fields of [make_stokes_image] *)

(** [make_stokes_image] can only get through a field when the Mueller
    correction is on, and the IP correction is off or has one of the
    methods "aperture" and "annulus".  Without [mm_correct] the variable
    [stokes_err_data] is never bound; with [ip_correct] and another method,
    such as the default "photometry", [cQ] is not. *)
Theorem make_stokes_image_field_returns_only_if mi ma h stokes_data stokes_header
    stokes_err mm ip_correct ip_radius ip_radius2 ip_method
  (Hret : is_Ok (make_stokes_image_field mi ma h stokes_data stokes_header
                   stokes_err mm ip_correct ip_radius ip_radius2 ip_method)) :
  mm <> None
  /\ (ip_correct = true ->
      ip_method = "aperture"%string \/ ip_method = "annulus"%string).
Proof.
  destruct Hret as [out Hret]. unfold make_stokes_image_field in Hret.
  apply bind_Ok in Hret as (planes & _ & Hret).
  apply bind_Ok in Hret as ([[I Q] U] & _ & Hret).
  apply bind_Ok in Hret as ([[h1 sd1] err1] & Hmm & Hret).
  apply bind_Ok in Hret as ([[h2 sd2] hdr2] & Hip & Hret).
  apply bind_Ok in Hret as (err & Herr & _).
  split.
  - intros ->. injection Hmm as <- <- <-. discriminate Herr.
  - intros ->.
    destruct (decide (ip_method = "aperture"%string)) as [|Hap]; [by left|].
    destruct (decide (ip_method = "annulus"%string)) as [|Han]; [by right|].
    apply bind_Ok in Hip as (x & Hip & _).
    unfold polarization_ip_correct in Hip.
    rewrite measure_unbound in Hip by done. discriminate Hip.
Qed.

Lemma setplane_Ok h l ps i v :
  h !! l = Some (Arr ps) -> (i < length ps)%nat ->
  setplane h (whole l) i v = Ok (<[l := Arr (<[i := v]> ps)]> h).
Proof.
  intros Hl Hi. unfold setplane. rewrite (planes_of_whole _ _ _ Hl). simpl.
  rewrite decide_True by done. by rewrite Hl.
Qed.

Lemma card_value_Ok h hdr cards key v comment :
  h !! hdr = Some (Hdr cards) -> cards !! key = Some (v, comment) ->
  card_value h (Some hdr) key = Ok v.
Proof. intros Hh Hk. unfold card_value. by rewrite Hh, Hk. Qed.

Lemma hypot_hypot_scale e a b :
  hypot (hypot e (a * e)) (b * e) = (Rabs e * sqrt (1 + a * a + b * b))%R.
Proof.
  unfold hypot at 1. rewrite hypot_sqr.
  replace (e * e + a * e * (a * e) + b * e * (b * e))%R
    with (Rsqr e * (1 + a * a + b * b))%R by (unfold Rsqr; ring).
  rewrite sqrt_mult_alt by apply Rle_0_sqr. by rewrite sqrt_Rsqr_abs.
Qed.

Ltac run := cbn [mbind result_bind mret result_ret].

(** A field that gets through both corrections. *)
Lemma field_run mi ma h l hdr cards I Q U I_err q0 q1 q2 rq u0 u1 u2 ru r1 r2 method :
  h !! l = Some (Arr [I; Q; U]) ->
  h !! hdr = Some (Hdr cards) ->
  method = "aperture"%string \/ method = "annulus"%string ->
  exists Q2 U2 Qe Ue,
    make_stokes_image_mm_correct I Q U I_err
      (q0 :: q1 :: q2 :: rq) (u0 :: u1 :: u2 :: ru)
    = Ok ((I, Q2, U2), (I_err, Qe, Ue))
    /\ let c := if decide (method = "aperture"%string)
                then (mi I Q2 r1, mi I U2 r1)
                else (ma I Q2 r1 r2, ma I U2 r1 r2) in
       exists h' data errs,
         make_stokes_image_field mi ma h (whole l) hdr I_err
           (Some (q0 :: q1 :: q2 :: rq, u0 :: u1 :: u2 :: ru)) true r1 r2 method
         = Ok (h', (data, errs, Some hdr))
         /\ planes_of h' data
            = Ok [I; (Q2 - c.1 *: I)%fr; (U2 - c.2 *: I)%fr]
         /\ planes_of h' errs
            = Ok [I_err; fmap2 hypot Qe (c.1 *: I_err)%fr;
                  fmap2 hypot Ue (c.2 *: I_err)%fr]
         /\ h' !! l = Some (Arr [I; (Q - q0 *: I)%fr; (U - u0 *: I)%fr]).
Proof.
  intros Harr Hhdr Hmethod.
  set (res := fun p => lstsq2 (transpose ((q1, q2), (u1, u2)))
                        ((Q - q0 *: I)%fr p, (U - u0 *: I)%fr p)).
  set (Q2 := (fun p => fst (res p)) : Frame).
  set (U2 := (fun p => snd (res p)) : Frame).
  set (Qe := fmap2 hypot I_err (q0 *: I_err)%fr).
  set (Ue := fmap2 hypot I_err (u0 *: I_err)%fr).
  exists Q2, U2, Qe, Ue. split; [reflexivity|].
  intros c.
  assert (Hlh : l <> hdr) by congruence.
  set (hA := <[l := Arr [I; (Q - q0 *: I)%fr; (U - u0 *: I)%fr]]> h).
  set (n1 := fresh (dom hA)).
  set (hB := <[n1 := Arr [I; Q2; U2]]> hA).
  set (n2 := fresh (dom hB)).
  set (hC := <[n2 := Arr [I_err; Qe; Ue]]> hB).
  assert (Hn1 : n1 ∉ dom hA) by apply is_fresh.
  assert (Hn2 : n2 ∉ dom hB) by apply is_fresh.
  assert (HlA : hA !! l = Some (Arr [I; (Q - q0 *: I)%fr; (U - u0 *: I)%fr]))
    by apply lookup_insert_eq.
  assert (HhA : hA !! hdr = Some (Hdr cards))
    by (unfold hA; by rewrite lookup_insert_ne).
  assert (Hn1l : n1 <> l) by (intros E; apply Hn1, elem_of_dom; rewrite E; by eexists).
  assert (Hn1h : n1 <> hdr) by (intros E; apply Hn1, elem_of_dom; rewrite E; by eexists).
  assert (HlB : hB !! l = Some (Arr [I; (Q - q0 *: I)%fr; (U - u0 *: I)%fr]))
    by (unfold hB; by rewrite lookup_insert_ne).
  assert (HhB : hB !! hdr = Some (Hdr cards))
    by (unfold hB; by rewrite lookup_insert_ne).
  assert (H1B : hB !! n1 = Some (Arr [I; Q2; U2])) by apply lookup_insert_eq.
  assert (Hn2l : n2 <> l) by (intros E; apply Hn2, elem_of_dom; rewrite E; by eexists).
  assert (Hn2h : n2 <> hdr) by (intros E; apply Hn2, elem_of_dom; rewrite E; by eexists).
  assert (Hn21 : n2 <> n1) by (intros E; apply Hn2, elem_of_dom; rewrite E; by eexists).
  assert (HlC : hC !! l = Some (Arr [I; (Q - q0 *: I)%fr; (U - u0 *: I)%fr]))
    by (unfold hC; by rewrite lookup_insert_ne).
  assert (HhC : hC !! hdr = Some (Hdr cards))
    by (unfold hC; by rewrite lookup_insert_ne).
  assert (H1C : hC !! n1 = Some (Arr [I; Q2; U2]))
    by (unfold hC; by rewrite lookup_insert_ne).
  assert (H2C : hC !! n2 = Some (Arr [I_err; Qe; Ue])) by apply lookup_insert_eq.
  destruct (ip_correct_run mi ma hC n1 I Q2 U2 [] r1 r2 method hdr cards
              H1C HhC Hmethod) as (h2 & Hrun & H12 & Hh2 & Hframe & _).
  fold c in Hrun, H12, Hh2. destruct c as [cQ cU]. cbn [fst snd] in *.
  assert (H22 : h2 !! n2 = Some (Arr [I_err; Qe; Ue])).
  { rewrite Hframe; [done| |done|done]. apply elem_of_dom. by eexists. }
  assert (Hl2 : h2 !! l = Some (Arr [I; (Q - q0 *: I)%fr; (U - u0 *: I)%fr])).
  { rewrite Hframe; [done| |done|done]. apply elem_of_dom. by eexists. }
  set (e1 := fmap2 hypot Qe (cQ *: I_err)%fr).
  set (e2 := fmap2 hypot Ue (cU *: I_err)%fr).
  set (h3 := <[n2 := Arr [I_err; e1; Ue]]> h2).
  set (h4 := <[n2 := Arr [I_err; e1; e2]]> h3).
  assert (H23 : h3 !! n2 = Some (Arr [I_err; e1; Ue])) by apply lookup_insert_eq.
  assert (Hh3 : h3 !! hdr = h2 !! hdr) by (unfold h3; by rewrite lookup_insert_ne).
  exists h4, (whole n1), (whole n2). split; [|split; [|split]].
  - assert (Hmm : make_stokes_image_mm_correct I Q U I_err
                     (q0 :: q1 :: q2 :: rq) (u0 :: u1 :: u2 :: ru)
                   = Ok ((I, Q2, U2), (I_err, Qe, Ue))) by reflexivity.
    assert (Hassign : assign_slice h (whole l) 3
                        [I; (Q - q0 *: I)%fr; (U - u0 *: I)%fr] = Ok hA).
    { unfold assign_slice. rewrite (planes_of_slice _ _ _ 3 Harr). simpl.
      rewrite Harr. done. }
    unfold make_stokes_image_field.
    rewrite (planes_of_whole _ _ _ Harr). run.
    change (unpack3 [I; Q; U]) with (Ok (I, Q, U)). run.
    rewrite Hmm. run.
    change (index (q0 :: q1 :: q2 :: rq) 0) with (Ok q0).
    change (index (u0 :: u1 :: u2 :: ru) 0) with (Ok u0). run.
    rewrite Hassign. run. unfold np_array.
    change (fresh (dom hA)) with n1.
    change (<[n1 := Arr [I; Q2; U2]]> hA) with hB.
    change (fresh (dom hB)) with n2.
    change (<[n2 := Arr [I_err; Qe; Ue]]> hB) with hC.
    run. rewrite Hrun. run. unfold local. run.
    rewrite (getplane_Some h2 (whole n2) _ 1 Qe (planes_of_whole _ _ _ H22) eq_refl).
    run.
    rewrite (card_value_Ok h2 hdr _ "IP_FQ" cQ _ Hh2)
      by (rewrite lookup_insert_ne by done; apply lookup_insert_eq).
    run.
    rewrite (getplane_Some h2 (whole n2) _ 0 I_err (planes_of_whole _ _ _ H22) eq_refl).
    run.
    rewrite (setplane_Ok h2 n2 _ 1 _ H22) by (simpl; lia). run.
    change (<[1%nat := fmap2 hypot Qe (cQ *: I_err)%fr]> [I_err; Qe; Ue])
      with [I_err; e1; Ue].
    fold h3.
    rewrite (getplane_Some h3 (whole n2) _ 2 Ue (planes_of_whole _ _ _ H23) eq_refl).
    run.
    rewrite Hh2 in Hh3.
    rewrite (card_value_Ok h3 hdr _ "IP_FU" cU _ Hh3) by apply lookup_insert_eq.
    run.
    rewrite (getplane_Some h3 (whole n2) _ 0 I_err (planes_of_whole _ _ _ H23) eq_refl).
    run.
    rewrite (setplane_Ok h3 n2 _ 2 _ H23) by (simpl; lia). run.
    reflexivity.
  - apply planes_of_whole. unfold h4, h3. by rewrite !lookup_insert_ne.
  - apply planes_of_whole. unfold h4. apply lookup_insert_eq.
  - unfold h4, h3. by rewrite !lookup_insert_ne.
Qed.

Lemma make_stokes_image_field_returns_only_if_witness :
  Some ([0; 1; 0]%R, [0; 0; 1]%R) <> None
  /\ (true = true ->
      "aperture"%string = "aperture"%string \/ "aperture"%string = "annulus"%string).
Proof.
  apply (make_stokes_image_field_returns_only_if
           (fun _ _ _ => 1%R) (fun _ _ _ _ => 1%R) array_and_header_heap
           (whole 1%positive) 2%positive (fconst 1)
           (Some ([0; 1; 0]%R, [0; 0; 1]%R)) true 8 8 "aperture").
  destruct (field_run (fun _ _ _ => 1%R) (fun _ _ _ _ => 1%R)
              array_and_header_heap 1%positive 2%positive ∅
              (fconst 1) (fconst 2) (fconst 3) (fconst 1)
              0 1 0 [] 0 0 1 [] 8 8 "aperture")
    as (Q2 & U2 & Qe & Ue & _ & h' & data & errs & Hrun & _).
  - reflexivity.
  - reflexivity.
  - left. reflexivity.
  - eexists. exact Hrun.
Defined.

(** A field with three planes and a header, with Mueller rows of at least
    three entries and the method "aperture" or "annulus", gets through both
    corrections.  The returned planes are the Mueller-corrected [Q''],
    [U''] less [cQ I], [cU I], the coefficients being measured on the
    Mueller-corrected planes.  The returned errors of [Q] and [U] are
    [|I_err| sqrt (1 + mQ0^2 + cQ^2)] and [|I_err| sqrt (1 + mU0^2 + cU^2)].
    The array of the input is left holding [Q - mQ0 I] and [U - mU0 I]. *)
Theorem make_stokes_image_field_corrected mi ma h l hdr cards I Q U I_err
    q0 q1 q2 rq u0 u1 u2 ru r1 r2 method
  (Harr : h !! l = Some (Arr [I; Q; U]))
  (Hhdr : h !! hdr = Some (Hdr cards))
  (Hmethod : method = "aperture"%string \/ method = "annulus"%string) :
  exists Q2 U2 mm_errs h' data errs Qe Ue,
    make_stokes_image_mm_correct I Q U I_err
      (q0 :: q1 :: q2 :: rq) (u0 :: u1 :: u2 :: ru)
    = Ok ((I, Q2, U2), mm_errs)
    /\ make_stokes_image_field mi ma h (whole l) hdr I_err
         (Some (q0 :: q1 :: q2 :: rq, u0 :: u1 :: u2 :: ru)) true r1 r2 method
       = Ok (h', (data, errs, Some hdr))
    /\ let c := if decide (method = "aperture"%string)
                then (mi I Q2 r1, mi I U2 r1)
                else (ma I Q2 r1 r2, ma I U2 r1 r2) in
       planes_of h' data = Ok [I; (Q2 - c.1 *: I)%fr; (U2 - c.2 *: I)%fr]
       /\ planes_of h' errs = Ok [I_err; Qe; Ue]
       /\ (forall p,
             Qe p = (Rabs (I_err p) * sqrt (1 + q0 * q0 + c.1 * c.1))%R
             /\ Ue p = (Rabs (I_err p) * sqrt (1 + u0 * u0 + c.2 * c.2))%R)
       /\ h' !! l = Some (Arr [I; (Q - q0 *: I)%fr; (U - u0 *: I)%fr]).
Proof.
  destruct (field_run mi ma h l hdr cards I Q U I_err q0 q1 q2 rq u0 u1 u2 ru
              r1 r2 method Harr Hhdr Hmethod)
    as (Q2 & U2 & Qe & Ue & Hmm & Hrest).
  cbv zeta in Hrest.
  destruct Hrest as (h' & data & errs & Hrun & Hdata & Herrs & Hl).
  exists Q2, U2, (I_err, Qe, Ue), h', data, errs.
  eexists _, _. split; [exact Hmm|]. split; [exact Hrun|].
  cbv zeta. split; [exact Hdata|]. split; [exact Herrs|]. split; [|exact Hl].
  unfold make_stokes_image_mm_correct in Hmm. simpl in Hmm.
  injection Hmm as _ _ <- <-.
  intros p. unfold fmap2, fscale. split; apply hypot_hypot_scale.
Qed.

Lemma make_stokes_image_field_corrected_witness :
  exists Q2 U2 mm_errs h' data errs Qe Ue,
    make_stokes_image_mm_correct (fconst 1) (fconst 2) (fconst 3) (fconst 1)
      [0; 1; 0]%R [0; 0; 1]%R
    = Ok ((fconst 1, Q2, U2), mm_errs)
    /\ make_stokes_image_field (fun _ _ _ => 1%R) (fun _ _ _ _ => 1%R)
         array_and_header_heap (whole 1%positive) 2%positive (fconst 1)
         (Some ([0; 1; 0]%R, [0; 0; 1]%R)) true 8 8 "aperture"
       = Ok (h', (data, errs, Some 2%positive))
    /\ planes_of h' data
       = Ok [fconst 1; (Q2 - 1 *: fconst 1)%fr; (U2 - 1 *: fconst 1)%fr]
    /\ planes_of h' errs = Ok [fconst 1; Qe; Ue]
    /\ (forall p,
          Qe p = (Rabs (fconst 1 p) * sqrt (1 + 0 * 0 + 1 * 1))%R
          /\ Ue p = (Rabs (fconst 1 p) * sqrt (1 + 0 * 0 + 1 * 1))%R)
    /\ h' !! 1%positive
       = Some (Arr [fconst 1; (fconst 2 - 0 *: fconst 1)%fr;
                    (fconst 3 - 0 *: fconst 1)%fr]).
Proof.
  apply (make_stokes_image_field_corrected
           (fun _ _ _ => 1%R) (fun _ _ _ _ => 1%R)
           array_and_header_heap 1%positive 2%positive ∅
           (fconst 1) (fconst 2) (fconst 3) (fconst 1)
           0 1 0 [] 0 0 1 [] 8 8 "aperture").
  - reflexivity.
  - reflexivity.
  - left. reflexivity.
Defined.

(** * When the calibration returns *)

Section Returns.
Variable derotate_cube : Frame -> R -> Frame.
Variable fs : gmap string FitsFile.

(** The keys of the dictionary after the loading loop: those it had, and
    the keys of the files. *)
Lemma load3_loop_keys filenames : forall st st',
  for_in (load3 derotate_cube fs) st filenames = Ok st' ->
  forall k, is_Some (cube_dict st' !! k)
            <-> is_Some (cube_dict st !! k)
                \/ exists file f, file ∈ filenames /\ fs !! file = Some f
                                  /\ header_key3 f = k.
Proof.
  induction filenames as [|file filenames IH]; intros st st' H k.
  - injection H as <-. split; [by left|]. intros [H|(file & f & Hin & _)]; [done|].
    by apply elem_of_nil in Hin.
  - rewrite for_in_cons in H. apply bind_Ok in H as (st1 & H1 & H).
    unfold load3, fits_open in H1. destruct (fs !! file) as [f|] eqn:Hf; [|done].
    injection H1 as <-. rewrite (IH _ _ H k). cbn [cube_dict]. split.
    + intros [Hk|(file' & f' & Hin & Hrest)].
      * destruct (decide (header_key3 f = k)) as [He|Hne].
        -- right. exists file, f. split; [by left|done].
        -- left. unfold header_key3 in Hne. by rewrite lookup_insert_ne in Hk.
      * right. exists file', f'. split; [by right|done].
    + intros [Hk|(file' & f' & Hin & Hf' & Hkey)].
      * left. destruct (decide (header_key3 f = k)) as [<-|Hne].
        -- unfold header_key3. rewrite lookup_insert_eq. by eexists.
        -- unfold header_key3 in Hne. by rewrite lookup_insert_ne.
      * apply elem_of_cons in Hin as [->|Hin].
        -- left. assert (f' = f) as -> by congruence. subst k.
           unfold header_key3. rewrite lookup_insert_eq. by eexists.
        -- right. exists file', f'. done.
Qed.

Lemma load3_loop_readable filenames : forall st st',
  for_in (load3 derotate_cube fs) st filenames = Ok st' ->
  forall file, file ∈ filenames -> is_Some (fs !! file).
Proof.
  induction filenames as [|file filenames IH]; intros st st' H file' Hin.
  - by apply elem_of_nil in Hin.
  - rewrite for_in_cons in H. apply bind_Ok in H as (st1 & H1 & H).
    apply elem_of_cons in Hin as [->|Hin]; [|by eapply IH].
    unfold load3, fits_open in H1. destruct (fs !! file); [by eexists|done].
Qed.


Lemma triplediff_count_ok filenames :
  (length filenames mod 16 = 0)%nat ->
  polarization_calibration_triplediff derotate_cube fs filenames
  = triplediff_body derotate_cube fs filenames.
Proof. intros Hmod. unfold polarization_calibration_triplediff. by rewrite Hmod. Qed.

(** With the right number of files, all of which can be opened, the call
    returns and every key has a file, or it raises [KeyError] for a key
    that no file has. *)
Lemma calibration_cases filenames :
  (length filenames mod 16 = 0)%nat ->
  (forall file, file ∈ filenames -> is_Some (fs !! file)) ->
  ((forall k, k ∈ TRIPLEDIFF_SETS ->
      exists file f, file ∈ filenames /\ fs !! file = Some f /\ header_key3 f = k)
   /\ is_Ok (polarization_calibration_triplediff derotate_cube fs filenames))
  \/ exists k, k ∈ TRIPLEDIFF_SETS
       /\ (forall file f, file ∈ filenames -> fs !! file = Some f ->
                          header_key3 f <> k)
       /\ polarization_calibration_triplediff derotate_cube fs filenames
          = Raise (KeyError k).
Proof.
  intros Hmod Hread. rewrite (triplediff_count_ok _ Hmod). unfold triplediff_body.
  destruct (load3_loop_total derotate_cube fs filenames (mkLoaded ∅ []) Hread)
    as [st Hst].
  rewrite Hst. cbn [mbind result_bind].
  pose proof (load3_loop_keys _ _ _ Hst) as Hkeys.
  destruct (triple_diff_dict_cases (cube_dict st)) as [Hraise Hok].
  destruct (triple_diff_dict (cube_dict st)) as [cube|e] eqn:Hd.
  - left. split; [|by eexists].
    intros k Hk. destruct (proj1 (Hkeys k)) as [Hempty|H]; [|by destruct Hempty|done].
    apply Hok; [by eexists|done].
  - right. destruct (Hraise e eq_refl) as (k & Hk & Hnone & ->).
    exists k. split; [done|]. split; [|done].
    intros file f Hin Hf Hkey.
    assert (Hsome : is_Some (cube_dict st !! k))
      by (apply Hkeys; right; by exists file, f).
    rewrite Hnone in Hsome. by destruct Hsome.
Qed.

End Returns.

(** [polarization_calibration_triplediff] returns exactly when the number
    of files is a multiple of 16, every file can be opened, and every key
    of the keyspace is the key of one of the files. *)
Theorem calibration_returns_iff derotate_cube fs (filenames : list string) :
  is_Ok (polarization_calibration_triplediff derotate_cube fs filenames)
  <-> (length filenames mod 16 = 0)%nat
      /\ (forall file, file ∈ filenames -> is_Some (fs !! file))
      /\ (forall k, k ∈ TRIPLEDIFF_SETS ->
            exists file f, file ∈ filenames /\ fs !! file = Some f
                           /\ header_key3 f = k).
Proof.
  split.
  - intros [hdul Hrun].
    apply triplediff_Ok_inv in Hrun as [Hmod Hrun]. split; [done|].
    unfold triplediff_body in Hrun. apply bind_Ok in Hrun as (st & Hst & Hrun).
    pose proof (load3_loop_readable derotate_cube fs _ _ _ Hst) as Hread.
    split; [exact Hread|].
    destruct (calibration_cases derotate_cube fs filenames Hmod Hread)
      as [[Hc _]|(k & _ & _ & Hraise)]; [done|].
    rewrite (triplediff_count_ok _ _ _ Hmod) in Hraise.
    unfold triplediff_body in Hraise.
    rewrite Hst in Hraise. cbn [mbind result_bind] in Hraise.
    apply bind_Ok in Hrun as (cube & Hcube & _). rewrite Hcube in Hraise.
    discriminate Hraise.
  - intros (Hmod & Hread & Hc).
    destruct (calibration_cases derotate_cube fs filenames Hmod Hread)
      as [[_ Hok]|(k & Hk & Hno & _)]; [done|].
    destruct (Hc k Hk) as (file & f & Hin & Hf & Hkey). by destruct (Hno file f).
Qed.

(** The check of the number of files does not make the set complete: when
    the number is a multiple of 16 and the files can be opened, but some
    key of the keyspace has no file, the call raises [KeyError] for a key
    that no file has. *)
Theorem calibration_of_incomplete_set derotate_cube fs (filenames : list string)
  (Hmod : (length filenames mod 16 = 0)%nat)
  (Hread : forall file, file ∈ filenames -> is_Some (fs !! file))
  (Hmiss : ~ forall k, k ∈ TRIPLEDIFF_SETS ->
             exists file f, file ∈ filenames /\ fs !! file = Some f
                            /\ header_key3 f = k) :
  exists k, k ∈ TRIPLEDIFF_SETS
    /\ (forall file f, file ∈ filenames -> fs !! file = Some f ->
                       header_key3 f <> k)
    /\ polarization_calibration_triplediff derotate_cube fs filenames
       = Raise (KeyError k).
Proof.
  destruct (calibration_cases derotate_cube fs filenames Hmod Hread)
    as [[Hc _]|H]; [done|exact H].
Qed.

Lemma calibration_of_incomplete_set_witness :
  exists k, k ∈ TRIPLEDIFF_SETS
    /\ (forall file f, file ∈ replicate 16 "f0"%string ->
                       two_cycles3_fs !! file = Some f -> header_key3 f <> k)
    /\ polarization_calibration_triplediff no_derotation two_cycles3_fs
         (replicate 16 "f0"%string)
       = Raise (KeyError k).
Proof.
  assert (Hin : key3 0 "A" 2 ∈ TRIPLEDIFF_SETS)
    by (apply tripled_key_in; set_solver).
  assert (Hf0 : two_cycles3_fs !! "f0"%string
                = Some (mkFits (fconst 1) (fconst 1) 0 "A" 1 0))
    by (vm_compute; reflexivity).
  apply (calibration_of_incomplete_set no_derotation two_cycles3_fs
           (replicate 16 "f0"%string)).
  - reflexivity.
  - intros file [-> _]%elem_of_replicate. rewrite Hf0. by eexists.
  - intros Hc. destruct (Hc _ Hin) as (file & f & [-> _]%elem_of_replicate & Hf & Hkey).
    rewrite Hf0 in Hf. injection Hf as <-.
    assert (Hb : bool_decide (header_key3 (mkFits (fconst 1) (fconst 1) 0 "A" 1 0)
                              = key3 0 "A" 2) = false)
      by (vm_compute; reflexivity).
    apply bool_decide_eq_false in Hb. contradiction.
Defined.

(** * The error map with NaN *)

Lemma omap_power2 (errs : list WithNaN.NFrame) p :
  omap (fun f : WithNaN.NFrame => f p) (WithNaN.power2 <$> errs)
  = (fun x => (x ^ 2)%R) <$> omap (fun e : WithNaN.NFrame => e p) errs.
Proof.
  induction errs as [|e errs IH]; [done|].
  rewrite fmap_cons. cbn [omap list_omap]. rewrite IH.
  unfold WithNaN.power2. by destruct (e p).
Qed.

Lemma omap_length_le {A B} (f : A -> option B) l : (length (omap f l) <= length l)%nat.
Proof.
  induction l as [|x l IH]; [done|].
  cbn [omap list_omap]. destruct (f x); simpl; fold (omap f l); lia.
Qed.

Lemma nanmean_cases (vs : list R) :
  match vs with
  | [] => None
  | x :: xs => Some (Rsum (x :: xs) / INR (length (x :: xs)))%R
  end
  = if decide (vs = []) then None else Some (Rsum vs / INR (length vs))%R.
Proof. destruct vs; [by rewrite decide_True|by rewrite decide_False]. Qed.

(** What the code computes is the scaled root mean square over the
    entries that are not NaN, the scale being the number of all maps. *)
Lemma nan_combine_errs_rms errs p :
  WithNaN.combine_errs errs p = WithNaN.rms_scaled errs (length errs) p.
Proof.
  unfold WithNaN.combine_errs, WithNaN.rms_scaled, WithNaN.nanmean_axis0.
  rewrite omap_power2, nanmean_cases.
  pose proof (omap_length_le (fun e : WithNaN.NFrame => e p) errs) as Hle.
  destruct (omap (fun e : WithNaN.NFrame => e p) errs) as [|x xs] eqn:Hf.
  - by rewrite !decide_True.
  - rewrite !decide_False by done. rewrite length_fmap.
    cbn [base.fmap option_fmap option_map].
    f_equal. apply sqrt_div_alt. apply lt_0_INR. simpl in Hle. lia.
Qed.

(** A list that holds every element of a duplicate-free list of its own
    length is a rearrangement of it. *)
Lemma covering_Permutation {A} (l ks : list A) :
  NoDup ks -> (forall k, k ∈ ks -> k ∈ l) -> length l = length ks -> l ≡ₚ ks.
Proof.
  intros Hnd Hin Hlen. symmetry.
  apply submseteq_length_Permutation; [|lia].
  by apply NoDup_submseteq.
Qed.

Lemma TRIPLEDIFF_SETS_size : length (elements TRIPLEDIFF_SETS) = 16%nat.
Proof. vm_compute. reflexivity. Qed.

Lemma DOUBLEDIFF_SETS_size : length (elements DOUBLEDIFF_SETS) = 8%nat.
Proof. vm_compute. reflexivity. Qed.

Lemma double_diff_dict_cases (d : gmap pyobj Frame) :
  (forall e, double_diff_dict d = Raise e ->
     exists k, k ∈ DOUBLEDIFF_SETS /\ d !! k = None /\ e = KeyError k)
  /\ (is_Ok (double_diff_dict d) ->
      forall k, k ∈ DOUBLEDIFF_SETS -> is_Some (d !! k)).
Proof.
  unfold double_diff_dict, half_diff, half_sum, getitem.
  missing_key d doubled_key_in.
  split; [intros e [=]|]. intros _.
  apply doubled_keys_cases. intros a c Ha Hc.
  repeat match goal with
    | H : _ ∈ _ :: _ |- _ => apply elem_of_cons in H as [-> | H]
    | H : _ ∈ [] |- _ => by apply elem_of_nil in H
    end; by eexists.
Qed.

(** The files that a list of names stands for. *)
Lemma files_of_names {A} (fs : gmap string A) (names : list string) (files files' : list A) :
  Forall2 (fun name f => fs !! name = Some f) names files ->
  Forall2 (fun name f => fs !! name = Some f) names files' ->
  files = files'.
Proof.
  revert files files'. induction names as [|name names IH]; intros files files' H1 H2.
  - apply Forall2_nil_inv_l in H1, H2. by subst.
  - apply Forall2_cons_inv_l in H1 as (f & fl & Hf & H1 & ->).
    apply Forall2_cons_inv_l in H2 as (f' & fl' & Hf' & H2 & ->).
    f_equal; [congruence|by eapply IH].
Qed.

Section NaNErrorMap.
Variable derotate_cube : Frame -> R -> Frame.
Variable derotate_cube_nan : WithNaN.NFrame -> R -> WithNaN.NFrame.
Variable fs : gmap string WithNaN.FitsFile.

(** The loading loop appends the derotated error map of every file and
    files the data of every file under its key. *)
Lemma nan_load_loop (load : WithNaN.Loaded -> string -> result WithNaN.Loaded)
    (key : WithNaN.FitsFile -> pyobj) :
  (forall st file st', load st file = Ok st' ->
     exists f, fs !! file = Some f
       /\ WithNaN.cube_errs st'
          = WithNaN.cube_errs st
            ++ [derotate_cube_nan (WithNaN.err f) (WithNaN.DEROTANG f)]
       /\ WithNaN.cube_dict st'
          = <[key f := derotate_cube (WithNaN.data f) (WithNaN.DEROTANG f)]>
              (WithNaN.cube_dict st)) ->
  forall filenames st st',
    for_in load st filenames = Ok st' ->
    exists files,
      Forall2 (fun name f => fs !! name = Some f) filenames files
      /\ WithNaN.cube_errs st'
         = WithNaN.cube_errs st ++ WithNaN.derotated_errs derotate_cube_nan files
      /\ forall k, is_Some (WithNaN.cube_dict st' !! k) ->
                   is_Some (WithNaN.cube_dict st !! k) \/ k ∈ key <$> files.
Proof.
  intros Hload. induction filenames as [|file filenames IH]; intros st st' H.
  - injection H as <-. exists []. split; [constructor|].
    split; [by rewrite app_nil_r|]. intros k Hk. by left.
  - rewrite for_in_cons in H. apply bind_Ok in H as (st1 & H1 & H2).
    destruct (Hload _ _ _ H1) as (f & Hf & He & Hd).
    destruct (IH _ _ H2) as (files & Hfiles & Hes & Hkeys).
    exists (f :: files). split; [by constructor|]. split.
    + rewrite Hes, He, <- app_assoc. done.
    + intros k Hk. destruct (Hkeys k Hk) as [H|H].
      * rewrite Hd in H. destruct (decide (key f = k)) as [<-|Hne].
        -- right. rewrite fmap_cons. by left.
        -- left. by rewrite lookup_insert_ne in H.
      * right. rewrite fmap_cons. by right.
Qed.

Lemma nan_load3_step st file st' :
  WithNaN.load3 derotate_cube derotate_cube_nan fs st file = Ok st' ->
  exists f, fs !! file = Some f
    /\ WithNaN.cube_errs st'
       = WithNaN.cube_errs st
         ++ [derotate_cube_nan (WithNaN.err f) (WithNaN.DEROTANG f)]
    /\ WithNaN.cube_dict st'
       = <[WithNaN.file_key3 f := derotate_cube (WithNaN.data f) (WithNaN.DEROTANG f)]>
           (WithNaN.cube_dict st).
Proof.
  unfold WithNaN.load3, WithNaN.fits_open. destruct (fs !! file) as [f|]; [|done].
  intros [= <-]. eauto.
Qed.

Lemma nan_load2_step st file st' :
  WithNaN.load2 derotate_cube derotate_cube_nan fs st file = Ok st' ->
  exists f, fs !! file = Some f
    /\ WithNaN.cube_errs st'
       = WithNaN.cube_errs st
         ++ [derotate_cube_nan (WithNaN.err f) (WithNaN.DEROTANG f)]
    /\ WithNaN.cube_dict st'
       = <[WithNaN.file_key2 f := derotate_cube (WithNaN.data f) (WithNaN.DEROTANG f)]>
           (WithNaN.cube_dict st).
Proof.
  unfold WithNaN.load2, WithNaN.fits_open. destruct (fs !! file) as [f|]; [|done].
  intros [= <-]. eauto.
Qed.

(** A triple-difference call that returns: the count, the files, the
    error map, and that every key has a file. *)
Lemma nan_triplediff_inv filenames hdul :
  WithNaN.polarization_calibration_triplediff derotate_cube derotate_cube_nan fs filenames
  = Ok hdul ->
  (length filenames mod 16 = 0)%nat
  /\ exists files,
       Forall2 (fun name f => fs !! name = Some f) filenames files
       /\ (forall p, WithNaN.stokes_err hdul p
                     = WithNaN.rms_scaled
                         (WithNaN.derotated_errs derotate_cube_nan files)
                         (length filenames) p)
       /\ forall k, k ∈ TRIPLEDIFF_SETS -> k ∈ WithNaN.file_key3 <$> files.
Proof.
  unfold WithNaN.polarization_calibration_triplediff.
  destruct (length filenames mod 16 =? 0)%nat eqn:Hc; simpl; [|done].
  apply Nat.eqb_eq in Hc. intros H. split; [done|].
  unfold WithNaN.triplediff_body in H.
  apply bind_Ok in H as (st & Hst & H). apply bind_Ok in H as (cube & Hcube & [= <-]).
  destruct (nan_load_loop _ _ nan_load3_step _ _ _ Hst) as (files & Hfiles & Herrs & Hkeys).
  simpl in Herrs. exists files. split; [done|]. split.
  - intros p. cbn [WithNaN.stokes_err]. rewrite nan_combine_errs_rms, Herrs.
    unfold WithNaN.derotated_errs. rewrite length_fmap.
    by rewrite (Forall2_length _ _ _ Hfiles).
  - intros k Hk. destruct (triple_diff_dict_cases (WithNaN.cube_dict st)) as [_ Hok].
    destruct (Hkeys k) as [Hempty|Hin]; [|by destruct Hempty|done].
    apply Hok; [by eexists|done].
Qed.

Lemma nan_doublediff_inv filenames hdul :
  WithNaN.polarization_calibration_doublediff derotate_cube derotate_cube_nan fs filenames
  = Ok hdul ->
  (length filenames mod 8 = 0)%nat
  /\ exists files,
       Forall2 (fun name f => fs !! name = Some f) filenames files
       /\ (forall p, WithNaN.stokes_err hdul p
                     = WithNaN.rms_scaled
                         (WithNaN.derotated_errs derotate_cube_nan files)
                         (length filenames) p)
       /\ forall k, k ∈ DOUBLEDIFF_SETS -> k ∈ WithNaN.file_key2 <$> files.
Proof.
  unfold WithNaN.polarization_calibration_doublediff.
  destruct (length filenames mod 8 =? 0)%nat eqn:Hc; simpl; [|done].
  apply Nat.eqb_eq in Hc. intros H. split; [done|].
  unfold WithNaN.doublediff_body in H.
  apply bind_Ok in H as (st & Hst & H). apply bind_Ok in H as (cube & Hcube & [= <-]).
  destruct (nan_load_loop _ _ nan_load2_step _ _ _ Hst) as (files & Hfiles & Herrs & Hkeys).
  simpl in Herrs. exists files. split; [done|]. split.
  - intros p. cbn [WithNaN.stokes_err]. rewrite nan_combine_errs_rms, Herrs.
    unfold WithNaN.derotated_errs. rewrite length_fmap.
    by rewrite (Forall2_length _ _ _ Hfiles).
  - intros k Hk. destruct (double_diff_dict_cases (WithNaN.cube_dict st)) as [_ Hok].
    destruct (Hkeys k) as [Hempty|Hin]; [|by destruct Hempty|done].
    apply Hok; [by eexists|done].
Qed.

End NaNErrorMap.

(** C9, as the code has it.  The error map of a calibration that returns
    is, at every pixel, NaN where the derotated error maps of all the files
    of the call are NaN, and otherwise the root mean square of those that
    are not NaN there, divided by the square root of [N = len(filenames)].
    [N] counts all the files passed to the call, those with NaN at the
    pixel and those of other cycles included; it is a multiple of 16 for
    triple-difference and of 8 for double-difference.  When the call is
    given exactly 16 (8) files, their keys are the 16 (8) keys, each once:
    the files are the members of one frame set. *)
Theorem error_map_rms_over_call derotate_cube derotate_cube_nan fs filenames hdul
  (Hrun : WithNaN.polarization_calibration_triplediff
            derotate_cube derotate_cube_nan fs filenames = Ok hdul
          \/ WithNaN.polarization_calibration_doublediff
               derotate_cube derotate_cube_nan fs filenames = Ok hdul) :
  exists files,
    Forall2 (fun name f => fs !! name = Some f) filenames files
    /\ (forall p,
          let finite :=
            omap (fun f => derotate_cube_nan (WithNaN.err f) (WithNaN.DEROTANG f) p)
                 files in
          WithNaN.stokes_err hdul p
          = if decide (finite = []) then None
            else Some (sqrt (Rsum ((fun x => (x ^ 2)%R) <$> finite)
                             / INR (length finite))
                       / sqrt (INR (length filenames)))%R)
    /\ (WithNaN.polarization_calibration_triplediff
          derotate_cube derotate_cube_nan fs filenames = Ok hdul ->
        (length filenames mod 16 = 0)%nat
        /\ (length filenames = 16%nat ->
            WithNaN.file_key3 <$> files ≡ₚ elements TRIPLEDIFF_SETS))
    /\ (WithNaN.polarization_calibration_doublediff
          derotate_cube derotate_cube_nan fs filenames = Ok hdul ->
        (length filenames mod 8 = 0)%nat
        /\ (length filenames = 8%nat ->
            WithNaN.file_key2 <$> files ≡ₚ elements DOUBLEDIFF_SETS)).
Proof.
  assert (Hformula : forall files p,
    WithNaN.rms_scaled (WithNaN.derotated_errs derotate_cube_nan files)
      (length filenames) p
    = let finite :=
        omap (fun f => derotate_cube_nan (WithNaN.err f) (WithNaN.DEROTANG f) p)
             files in
      if decide (finite = []) then None
      else Some (sqrt (Rsum ((fun x => (x ^ 2)%R) <$> finite) / INR (length finite))
                 / sqrt (INR (length filenames)))%R).
  { intros files p. unfold WithNaN.rms_scaled, WithNaN.derotated_errs.
    assert (Hom : omap (fun e : WithNaN.NFrame => e p)
                    ((fun f => derotate_cube_nan (WithNaN.err f) (WithNaN.DEROTANG f))
                       <$> files)
                  = omap (fun f => derotate_cube_nan (WithNaN.err f)
                                     (WithNaN.DEROTANG f) p) files).
    { induction files as [|f files IH]; [done|].
      rewrite fmap_cons. cbn [omap list_omap]. by rewrite IH. }
    by rewrite Hom. }
  destruct Hrun as [Hrun|Hrun].
  - destruct (nan_triplediff_inv _ _ _ _ _ Hrun) as (Hmod & files & Hfiles & Herr & Hkeys).
    exists files. split; [done|]. split; [intros p; rewrite Herr; apply Hformula|].
    split.
    + intros _. split; [done|]. intros H16.
      apply covering_Permutation; [apply NoDup_elements| |].
      * intros k Hk. apply Hkeys. by apply elem_of_elements.
      * rewrite length_fmap, <- (Forall2_length _ _ _ Hfiles), H16.
        by rewrite TRIPLEDIFF_SETS_size.
    + intros Hrun2.
      destruct (nan_doublediff_inv _ _ _ _ _ Hrun2)
        as (Hmod2 & files2 & Hfiles2 & _ & Hkeys2).
      rewrite (files_of_names _ _ _ _ Hfiles Hfiles2).
      split; [done|]. intros H8.
      apply covering_Permutation; [apply NoDup_elements| |].
      * intros k Hk. apply Hkeys2. by apply elem_of_elements.
      * rewrite length_fmap, <- (Forall2_length _ _ _ Hfiles2), H8.
        by rewrite DOUBLEDIFF_SETS_size.
  - destruct (nan_doublediff_inv _ _ _ _ _ Hrun) as (Hmod & files & Hfiles & Herr & Hkeys).
    exists files. split; [done|]. split; [intros p; rewrite Herr; apply Hformula|].
    split.
    + intros Hrun3.
      destruct (nan_triplediff_inv _ _ _ _ _ Hrun3)
        as (Hmod3 & files3 & Hfiles3 & _ & Hkeys3).
      rewrite (files_of_names _ _ _ _ Hfiles Hfiles3).
      split; [done|]. intros H16.
      apply covering_Permutation; [apply NoDup_elements| |].
      * intros k Hk. apply Hkeys3. by apply elem_of_elements.
      * rewrite length_fmap, <- (Forall2_length _ _ _ Hfiles3), H16.
        by rewrite TRIPLEDIFF_SETS_size.
    + intros _. split; [done|]. intros H8.
      apply covering_Permutation; [apply NoDup_elements| |].
      * intros k Hk. apply Hkeys. by apply elem_of_elements.
      * rewrite length_fmap, <- (Forall2_length _ _ _ Hfiles), H8.
        by rewrite DOUBLEDIFF_SETS_size.
Qed.

Lemma nan_cycle_run :
  exists hdul,
    WithNaN.polarization_calibration_doublediff
      no_derotation WithNaN.no_derotation_nan WithNaN.nan_cycle_fs two_cycles_names
    = Ok hdul.
Proof. apply is_Ok_b_true. vm_compute. reflexivity. Defined.

Lemma error_map_rms_over_call_witness :
  exists hdul files,
    Forall2 (fun name f => WithNaN.nan_cycle_fs !! name = Some f) two_cycles_names files
    /\ (forall p,
          let finite :=
            omap (fun f => WithNaN.no_derotation_nan (WithNaN.err f)
                             (WithNaN.DEROTANG f) p) files in
          WithNaN.stokes_err hdul p
          = if decide (finite = []) then None
            else Some (sqrt (Rsum ((fun x => (x ^ 2)%R) <$> finite)
                             / INR (length finite))
                       / sqrt (INR (length two_cycles_names)))%R)
    /\ (WithNaN.polarization_calibration_triplediff
          no_derotation WithNaN.no_derotation_nan WithNaN.nan_cycle_fs two_cycles_names
        = Ok hdul ->
        (length two_cycles_names mod 16 = 0)%nat
        /\ (length two_cycles_names = 16%nat ->
            WithNaN.file_key3 <$> files ≡ₚ elements TRIPLEDIFF_SETS))
    /\ (WithNaN.polarization_calibration_doublediff
          no_derotation WithNaN.no_derotation_nan WithNaN.nan_cycle_fs two_cycles_names
        = Ok hdul ->
        (length two_cycles_names mod 8 = 0)%nat
        /\ (length two_cycles_names = 8%nat ->
            WithNaN.file_key2 <$> files ≡ₚ elements DOUBLEDIFF_SETS)).
Proof.
  destruct nan_cycle_run as [hdul Hrun]. exists hdul.
  apply (error_map_rms_over_call no_derotation WithNaN.no_derotation_nan
           WithNaN.nan_cycle_fs two_cycles_names hdul).
  right. exact Hrun.
Defined.

Lemma nan_two_cycles_run :
  exists hdul,
    WithNaN.polarization_calibration_doublediff
      no_derotation WithNaN.no_derotation_nan WithNaN.two_cycles_fs two_cycles_names
    = Ok hdul.
Proof. apply is_Ok_b_true. vm_compute. reflexivity. Defined.

Lemma nan_cycle_files_err e f : f ∈ WithNaN.cycle_files e -> WithNaN.err f = e.
Proof.
  unfold WithNaN.cycle_files. intros H.
  apply list_elem_of_bind in H as (a & H & _).
  apply list_elem_of_bind in H as (c & H & _).
  by apply list_elem_of_singleton in H as ->.
Qed.

Lemma nan_two_cycles_fs_unit_err name f :
  WithNaN.two_cycles_fs !! name = Some f ->
  WithNaN.err f = WithNaN.of_frame (fconst 1).
Proof.
  intros H. apply elem_of_list_to_map_2, elem_of_zip_r in H.
  apply elem_of_app in H as [H|H]; by apply nan_cycle_files_err in H.
Qed.

Lemma rms_scaled_unit_errs (errs : list WithNaN.NFrame) n p :
  errs <> [] -> Forall (fun e => e = WithNaN.of_frame (fconst 1)) errs ->
  WithNaN.rms_scaled errs n p = Some (1 / sqrt (INR n))%R.
Proof.
  intros Hne Hall. unfold WithNaN.rms_scaled.
  assert (Hfin : omap (fun e : WithNaN.NFrame => e p) errs
                 = replicate (length errs) 1%R).
  { clear Hne. induction Hall as [|e errs -> _ IH]; [done|].
    cbn [omap list_omap]. unfold WithNaN.of_frame at 1, fconst at 1.
    by rewrite IH. }
  rewrite Hfin. rewrite decide_False by (destruct errs; done).
  rewrite fmap_replicate, Rsum_replicate, length_replicate.
  assert (0 < INR (length errs))%R
    by (apply lt_0_INR; destruct errs; [done|simpl; lia]).
  replace (INR (length errs) * 1 ^ 2 / INR (length errs))%R with 1%R by (field; lra).
  by rewrite sqrt_1.
Qed.

(** The error map of a double-difference call on sixteen files is not an
    RMS over eight of them scaled by [1/sqrt 8]: with every error map the
    constant 1 the code returns [1/sqrt 16]. *)
Lemma error_map_counts_all_files : ~ WithNaN.doublediff_err_over_eight.
Proof.
  intros Hclaim. destruct nan_two_cycles_run as [hdul Hrun].
  destruct (Hclaim _ _ _ _ _ Hrun) as (members & Hlen & Hfrom & Hclaimed).
  apply nan_doublediff_inv in Hrun as (_ & files & Hfiles & Herr & _).
  specialize (Hclaimed []). rewrite (Herr []) in Hclaimed.
  pose proof (Forall2_length _ _ _ Hfiles) as Hn. simpl in Hn.
  rewrite !rms_scaled_unit_errs in Hclaimed.
  - apply (inj Some) in Hclaimed.
    assert (H16 : INR 16 = 16%R) by (simpl; lra).
    assert (H8 : INR 8 = 8%R) by (simpl; lra).
    change (length two_cycles_names) with 16%nat in Hclaimed.
    rewrite H16, H8 in Hclaimed.
    assert (Hs16 : (0 < sqrt 16)%R) by (apply sqrt_lt_R0; lra).
    assert (Hs8 : (0 < sqrt 8)%R) by (apply sqrt_lt_R0; lra).
    assert (Heq : sqrt 16 = sqrt 8).
    { apply Rinv_eq_reg. unfold Rdiv in Hclaimed. lra. }
    apply sqrt_inj in Heq; lra.
  - unfold WithNaN.derotated_errs. destruct members; [done|]. done.
  - unfold WithNaN.derotated_errs. apply Forall_fmap, Forall_forall. intros f Hf.
    destruct (Hfrom f Hf) as (name & _ & Hfs).
    simpl. unfold WithNaN.no_derotation_nan. by eapply nan_two_cycles_fs_unit_err.
  - unfold WithNaN.derotated_errs. destruct files; [done|]. done.
  - unfold WithNaN.derotated_errs. apply Forall_fmap, Forall_forall. intros f Hf.
    apply list_elem_of_lookup in Hf as [i Hi].
    destruct (Forall2_lookup_r _ _ _ _ _ Hfiles Hi) as (name & _ & Hfs).
    simpl. unfold WithNaN.no_derotation_nan. by eapply nan_two_cycles_fs_unit_err.
Qed.

(** On error maps without NaN the combination is the one with the plain
    mean. *)
Lemma nan_combine_errs_of_frames (errs : list Frame) p :
  errs <> [] ->
  WithNaN.combine_errs (WithNaN.of_frame <$> errs) p = Some (combine_errs errs p).
Proof.
  intros Hne. rewrite nan_combine_errs_rms, combine_errs_rms by done.
  unfold WithNaN.rms_scaled, rms_over_set, mean_axis0.
  assert (Hfin : omap (fun e : WithNaN.NFrame => e p) (WithNaN.of_frame <$> errs)
                 = (fun e : Frame => e p) <$> errs).
  { clear Hne. induction errs as [|e errs IH]; [done|].
    rewrite !fmap_cons. cbn [omap list_omap]. unfold WithNaN.of_frame at 1.
    by rewrite IH. }
  rewrite Hfin. rewrite decide_False by (destruct errs; done).
  rewrite !length_fmap. rewrite <- !list_fmap_compose. reflexivity.
Qed.
